(** * lenstronomy: Gaussian lens profile and point-source bookkeeping

    A shallow embedding of
    - [lenstronomy/LensModel/Profiles/gaussian.py] (module [Gaussian]) and
    - [lenstronomy/PointSource/point_source.py] (module [PointSourceModel]),
    with the properties their specification states about them.

    Numbers.  The profile code computes with [float64]; it is embedded over
    the real numbers [R] ([np.sqrt], [np.pi], [np.exp] are [sqrt], [PI],
    [exp]), so rounding, overflow and NaN are outside the model.  Division
    is the one partial operation the profile uses: it is embedded as a
    checked operation that fails on a zero divisor and records every
    divisor it was given.  Where a statement is about the very numbers
    the code returns or compares, the code is embedded in binary64 as
    well: the two amplitude converters (module [GaussianBinary64]) and the
    test of the amplitudes' sign (module [PositiveFlux]). *)

From Stdlib Require Import Reals Lra List QArith.
From Stdlib Require Floats.
From stdpp Require Import base option list gmap strings.
Import ListNotations.

Module Gaussian.

Local Open Scope R_scope.

(** ** Checked arithmetic *)

(** A computation either fails (a division by zero happened) or yields a
    value together with the divisors used on the way, in program order. *)
Definition Checked (A : Type) : Type := option (A * list R).

Definition ret {A : Type} (a : A) : Checked A := Some (a, []).

Definition bind {A B : Type} (m : Checked A) (f : A -> Checked B) : Checked B :=
  match m with
  | None => None
  | Some (a, l1) =>
      match f a with
      | None => None
      | Some (b, l2) => Some (b, l1 ++ l2)
      end
  end.

Notation "'let*' x ':=' m 'in' k" := (bind m (fun x => k))
  (at level 10, x name, m at level 200, k at level 200).

(** [a / b] of the source. *)
Definition div (a b : R) : Checked R :=
  if Req_dec_T b 0 then None else Some (a / b, [b]).

(** Elementwise application of a checked scalar function to an array. *)
Fixpoint mapM {A B : Type} (f : A -> Checked B) (l : list A) : Checked (list B) :=
  match l with
  | [] => ret []
  | a :: l' => let* b := f a in let* bs := mapM f l' in ret (b :: bs)
  end.

Definition value {A : Type} (m : Checked A) : option A :=
  match m with None => None | Some (a, _) => Some a end.

Definition divisors {A : Type} (m : Checked A) : list R :=
  match m with None => [] | Some (_, l) => l end.

(** ** The profile *)

(** [self.ds = 0.00001] *)
Definition ds : R := 1 / 100000.

(** Python's two-argument [max(a, b)]: [b] when [b > a], else [a]. *)
Definition py_max (a b : R) : R := if Rlt_dec a b then b else a.

(** [R[R <= self.ds] = self.ds], on one entry of the array. *)
Definition floor_entry (r : R) : R := if Rle_dec r ds then ds else r.

Definition _amp3d_to_2d (amp sigma_x sigma_y : R) : R :=
  amp * sqrt PI * sqrt (sigma_x * sigma_y * 2).

Definition _amp2d_to_3d (amp sigma_x sigma_y : R) : Checked R :=
  div amp (sqrt PI * sqrt (sigma_x * sigma_y * 2)).

Definition mass_2d (R0 amp sigma : R) : Checked R :=
  let sigma_x := sigma in
  let sigma_y := sigma in
  let* amp2d := div amp (sqrt PI * sqrt (sigma_x * sigma_y * 2)) in
  let* c := div 1 (2 * sigma_x * sigma_y) in
  let* q := div (amp2d * 2 * PI * 1) (2 * c) in
  ret (q * (1 - exp (- c * R0 ^ 2))).

Definition mass_2d_lens (R0 amp sigma : R) : Checked R :=
  let* amp_density := _amp2d_to_3d amp sigma sigma in
  mass_2d R0 amp_density sigma.

Definition alpha_abs (R0 amp sigma : R) : Checked R :=
  let sigma_x := sigma in
  let sigma_y := sigma in
  let* amp_density := _amp2d_to_3d amp sigma_x sigma_y in
  let* m := mass_2d R0 amp_density sigma in
  let* a := div m PI in
  div a R0.

Definition d_alpha_dr (R0 amp sigma_x sigma_y : R) : Checked R :=
  let* c := div 1 (2 * sigma_x * sigma_y) in
  let* a3 := _amp2d_to_3d amp sigma_x sigma_y in
  let* t := div 2 PI in
  let A := a3 * sqrt (t * sigma_x * sigma_y) in
  let* q := div 1 (R0 ^ 2) in
  ret (q * (-1 + (1 + 2 * c * R0 ^ 2) * exp (- c * R0 ^ 2)) * A).

(** The part of [derivatives] after the radius has been floored. *)
Definition derivatives_at (x_ y_ R0 amp sigma : R) : Checked (R * R) :=
  let* alpha := alpha_abs R0 amp sigma in
  let* qx := div alpha R0 in
  let* qy := div alpha R0 in
  ret (qx * x_, qy * y_).

(** [derivatives] on scalars ([isinstance(R, float)]). *)
Definition derivatives (x y amp sigma center_x center_y : R) : Checked (R * R) :=
  let x_ := x - center_x in
  let y_ := y - center_y in
  let R0 := sqrt (x_ ^ 2 + y_ ^ 2) in
  let R0 := py_max R0 ds in
  derivatives_at x_ y_ R0 amp sigma.

(** [derivatives] on arrays: the same formulas entry by entry, the radius
    floored through the mask [R <= ds]. *)
Definition derivatives_array (xy : list (R * R)) (amp sigma center_x center_y : R)
  : Checked (list (R * R)) :=
  mapM (fun p =>
          let x_ := fst p - center_x in
          let y_ := snd p - center_y in
          let R0 := sqrt (x_ ^ 2 + y_ ^ 2) in
          let R0 := floor_entry R0 in
          derivatives_at x_ y_ R0 amp sigma) xy.

(** The part of [hessian] after the radius has been floored. *)
Definition hessian_at (x_ y_ r amp sigma : R) : Checked (R * R * R * R) :=
  let sigma_x := sigma in
  let sigma_y := sigma in
  let* d0 := d_alpha_dr r amp sigma_x sigma_y in
  let d_alpha_dr := - d0 in
  let* alpha := alpha_abs r amp sigma in
  let* a1 := div d_alpha_dr r in
  let* a2 := div alpha (r ^ 2) in
  let* a3 := div (- (a1 + a2) * x_ ^ 2) r in
  let* a4 := div alpha r in
  let f_xx := a3 + a4 in
  let* b1 := div d_alpha_dr r in
  let* b2 := div alpha (r ^ 2) in
  let* b3 := div (- (b1 + b2) * y_ ^ 2) r in
  let* b4 := div alpha r in
  let f_yy := b3 + b4 in
  let* c1 := div d_alpha_dr r in
  let* c2 := div alpha (r ^ 2) in
  let* f_xy := div (- (c1 + c2) * x_ * y_) r in
  ret (f_xx, f_xy, f_xy, f_yy).

Definition hessian (x y amp sigma center_x center_y : R) : Checked (R * R * R * R) :=
  let x_ := x - center_x in
  let y_ := y - center_y in
  let r := sqrt (x_ ^ 2 + y_ ^ 2) in
  let r := py_max r ds in
  hessian_at x_ y_ r amp sigma.

Definition hessian_array (xy : list (R * R)) (amp sigma center_x center_y : R)
  : Checked (list (R * R * R * R)) :=
  mapM (fun p =>
          let x_ := fst p - center_x in
          let y_ := snd p - center_y in
          let r := sqrt (x_ ^ 2 + y_ ^ 2) in
          let r := floor_entry r in
          hessian_at x_ y_ r amp sigma) xy.

Section Potential.

(** [scipy.integrate.quad(f, a, b)[0]]: the quadrature routine is outside
    the repository; every result below holds for any such routine. *)
Variable quad : (R -> R) -> R -> R -> R.

Definition _num_integral (r c : R) : R :=
  if Req_dec_T r 0 then 0
  else quad (fun x => (1 - exp (- c * x ^ 2)) / x) 0 r.

(** The part of [function] that follows the numerical integral. *)
Definition potential_prefactor (amp sigma_x sigma_y c : R) : Checked R :=
  let* amp_density := _amp2d_to_3d amp sigma_x sigma_y in
  let* amp2d := div amp_density (sqrt PI * sqrt (sigma_x * sigma_y * 2)) in
  let* t := div (2 * 1) (2 * c) in
  ret (amp2d * t).

(** [function] on scalars. *)
Definition function (x y amp sigma center_x center_y : R) : Checked R :=
  let x_ := x - center_x in
  let y_ := y - center_y in
  let r := sqrt (x_ ^ 2 + y_ ^ 2) in
  let sigma_x := sigma in
  let sigma_y := sigma in
  let* c := div 1 (2 * sigma_x * sigma_y) in
  let num_int := _num_integral r c in
  let* amp2d := potential_prefactor amp sigma_x sigma_y c in
  ret (num_int * amp2d).

(** [function] on arrays: one integral per entry, then the product with
    the scalar prefactor. *)
Definition function_array (xy : list (R * R)) (amp sigma center_x center_y : R)
  : Checked (list R) :=
  let r := map (fun p => sqrt ((fst p - center_x) ^ 2 + (snd p - center_y) ^ 2)) xy in
  let sigma_x := sigma in
  let sigma_y := sigma in
  let* c := div 1 (2 * sigma_x * sigma_y) in
  let num_int := map (fun ri => _num_integral ri c) r in
  let* amp2d := potential_prefactor amp sigma_x sigma_y c in
  ret (map (fun n => n * amp2d) num_int).

End Potential.

End Gaussian.


(** * The amplitude converters in binary64

    [_amp3d_to_2d] and [_amp2d_to_3d] once more, with the arithmetic of
    the code: numpy's [float64] is IEEE 754 binary64, whose operations
    [*], [/] and [sqrt] are correctly rounded, as the primitive floats
    are.  Division by zero raises nothing here (numpy returns an infinity
    or a NaN). *)

Module GaussianBinary64.

Import PrimFloat.
Local Open Scope float_scope.

(** [np.pi] *)
Definition pi : float := 0x1.921fb54442d18p+1.

Definition _amp3d_to_2d (amp sigma_x sigma_y : float) : float :=
  amp * sqrt pi * sqrt (sigma_x * sigma_y * 2).

Definition _amp2d_to_3d (amp sigma_x sigma_y : float) : float :=
  amp / (sqrt pi * sqrt (sigma_x * sigma_y * 2)).

End GaussianBinary64.

(** * Point sources: [lenstronomy/PointSource/point_source.py]

    Numbers are rationals [Q] here (exact arithmetic, decidable order), so
    that every definition of this module runs; [check_positive_flux], whose
    answer depends on the numbers being [float64], is in module
    [PositiveFlux].  Python objects that the
    code mutates or copies (the keyword-argument dictionaries and the list
    that holds them) live in an explicit heap and are passed by reference,
    so that sharing is visible. *)

Module PointSourceModel.

Local Open Scope string_scope.
Local Open Scope list_scope.

(** ** Exceptions and results *)

(** The Python exceptions the modelled code can raise.  [InvalidReference]
    has no Python counterpart: it is the result of looking up a reference
    that the heap does not hold, which no Python program can do. *)
Inductive Exception : Type :=
| ValueError
| IndexError
| KeyError
| TypeError
| InvalidReference.

Inductive result (A : Type) : Type :=
| Ok (a : A)
| Raise (e : Exception).

Arguments Ok {A} a.
Arguments Raise {A} e.

Definition rbind {A B : Type} (m : result A) (f : A -> result B) : result B :=
  match m with
  | Ok a => f a
  | Raise e => Raise e
  end.

Notation "'let*' x ':=' m 'in' k" := (rbind m (fun x => k))
  (at level 10, x name, m at level 200, k at level 200).
Notation "'let*' ' p ':=' m 'in' k" := (rbind m (fun x => match x with p => k end))
  (at level 10, p strict pattern, m at level 200, k at level 200).

(** ** Values and the heap *)

(** What a keyword-argument dictionary holds under a key: a float or a
    one-dimensional array of floats. *)
Inductive value : Type :=
| Scalar (q : Q)
| Array (a : list Q).

Abbreviation ref := positive.

(** Dictionaries and lists are objects: [dicts] maps the reference of a
    dictionary to its contents, [lists] the reference of a list (of
    dictionaries) to the references it holds. *)
Record heap : Type := Heap {
  dicts : gmap positive (gmap string value);
  lists : gmap positive (list positive)
}.

(** [l[i]] for [i >= 0] *)
Definition getitem {A : Type} (l : list A) (i : nat) : result A :=
  match l !! i with
  | Some a => Ok a
  | None => Raise IndexError
  end.

(** [d[key]] *)
Definition dict_getitem (d : gmap string value) (key : string) : result value :=
  match d !! key with
  | Some v => Ok v
  | None => Raise KeyError
  end.

Definition load_dict (h : heap) (r : ref) : result (gmap string value) :=
  match dicts h !! r with
  | Some d => Ok d
  | None => Raise InvalidReference
  end.

Definition load_list (h : heap) (r : ref) : result (list ref) :=
  match lists h !! r with
  | Some l => Ok l
  | None => Raise InvalidReference
  end.

(** [d[key] = v] on the dictionary object [r] *)
Definition dict_setitem (h : heap) (r : ref) (key : string) (v : value) : result heap :=
  match dicts h !! r with
  | Some d => Ok (Heap (<[r := <[key := v]> d]> (dicts h)) (lists h))
  | None => Raise InvalidReference
  end.

(** Iterating over (or taking [len] of) a value: a float is not iterable. *)
Definition py_iter (v : value) : result (list Q) :=
  match v with
  | Array a => Ok a
  | Scalar _ => Raise TypeError
  end.

(** [np.asarray(v)], flattened *)
Definition np_asarray (v : value) : list Q :=
  match v with
  | Array a => a
  | Scalar q => [q]
  end.

(** ** [_sort_position_by_original] *)

Definition Qlt_bool (a b : Q) : bool := negb (Qle_bool b a).

(** Elementwise [a + b] of two one-dimensional arrays, with numpy's
    broadcasting of an array of length one. *)
Definition np_add (a b : list Q) : result (list Q) :=
  if decide (length a = length b) then Ok (zip_with Qplus a b)
  else match a, b with
       | [u], _ => Ok (map (fun v => Qplus u v) b)
       | _, [v] => Ok (map (fun u => Qplus u v) a)
       | _, _ => Raise ValueError
       end.

(** [(x - x_solved) ** 2 + (y - y_solved) ** 2] *)
Definition r2 (x y : Q) (x_solved y_solved : list Q) : result (list Q) :=
  np_add (map (fun u => Qpower (Qminus x u) 2) x_solved)
         (map (fun u => Qpower (Qminus y u) 2) y_solved).

(** [np.argmin]: index of the first occurrence of the minimum. *)
Fixpoint argmin_from (best_i : nat) (best : Q) (i : nat) (l : list Q) : nat :=
  match l with
  | [] => best_i
  | v :: l' =>
      if Qlt_bool v best then argmin_from i v (S i) l'
      else argmin_from best_i best (S i) l'
  end.

Definition np_argmin (l : list Q) : result nat :=
  match l with
  | [] => Raise ValueError
  | v :: l' => Ok (argmin_from 0 v 1 l')
  end.

(** [np.delete(a, index)] *)
Definition np_delete (a : list Q) (index : nat) : result (list Q) :=
  if decide (index < length a)%nat then Ok (delete index a) else Raise IndexError.

(** The loop [for i in range(len(x_o))]; [xo_rest] is [x_o[i:]]. *)
Fixpoint sort_loop (xo_rest : list Q) (y_o : list Q) (i : nat)
         (x_solved_new y_solved_new x_solved y_solved : list Q)
  : result (list Q * list Q * list Q * list Q) :=
  match xo_rest with
  | [] => Ok (x_solved_new, y_solved_new, x_solved, y_solved)
  | x :: xo_rest' =>
      let* y := getitem y_o i in
      let* r2_i := r2 x y x_solved y_solved in
      let* index := np_argmin r2_i in
      let* xs := getitem x_solved index in
      let* ys := getitem y_solved index in
      let* x_solved' := np_delete x_solved index in
      let* y_solved' := np_delete y_solved index in
      sort_loop xo_rest' y_o (S i) (x_solved_new ++ [xs]) (y_solved_new ++ [ys])
                x_solved' y_solved'
  end.

Definition _sort_position_by_original (x_o y_o x_solved y_solved : list Q)
  : result (list Q * list Q) :=
  if decide (length x_solved < length x_o)%nat then Ok (x_o, y_o)
  else
    let* '(x_solved_new, y_solved_new, x_solved, y_solved) :=
      sort_loop x_o y_o 0 [] [] x_solved y_solved in
    Ok (x_solved_new ++ x_solved, y_solved_new ++ y_solved).

(** ** [copy.deepcopy] of a list of dictionaries *)

(** The elements are copied in order; [memo] maps each dictionary already
    copied to its copy, so that a dictionary held twice is copied once and
    the copy is held twice. *)
Fixpoint deepcopy_items (items : list ref) (memo : gmap positive positive)
         (d : gmap positive (gmap string value))
  : result (list ref * gmap positive positive * gmap positive (gmap string value)) :=
  match items with
  | [] => Ok ([], memo, d)
  | r :: items' =>
      match memo !! r with
      | Some r' =>
          let* '(rs, memo', d') := deepcopy_items items' memo d in
          Ok (r' :: rs, memo', d')
      | None =>
          match d !! r with
          | None => Raise InvalidReference
          | Some kw =>
              let r' := fresh (dom d) in
              let* '(rs, memo', d') := deepcopy_items items' (<[r := r']> memo) (<[r' := kw]> d) in
              Ok (r' :: rs, memo', d')
          end
      end
  end.

Definition deepcopy (h : heap) (l : ref) : result (ref * heap) :=
  let* items := load_list h l in
  let* '(items', _, d') := deepcopy_items items ∅ (dicts h) in
  let l' := fresh (dom (lists h)) in
  Ok (l', Heap d' (<[l' := items']> (lists h))).

(** ** The [PointSource] class *)

Definition _SUPPORTED_MODELS : list string :=
  ["UNLENSED"; "LENSED_POSITION"; "SOURCE_POSITION"].

Section Model.

(** Instances of the [LensModel] class and the lens keyword arguments are
    only handed on to code outside this file. *)
Variable LensModel : Type.
Variable LensKwargs : Type.

(** The three point-source types of [lenstronomy.PointSource.Types], with
    the arguments [__init__] constructs them from. *)
Inductive PSType : Type :=
| Unlensed
| LensedPositions (lens_model : option LensModel)
                  (fixed_magnification additional_images : bool)
                  (index_lens_model_list : option (list (list nat)))
                  (point_source_frame_list : option (list nat))
                  (redshift : option Q)
| SourcePositions (lens_model : option LensModel)
                  (fixed_magnification : bool)
                  (redshift : option Q).

(** [PointSourceCached(model, save_cache=...)] *)
Record PointSourceCached : Type := {
  cached_model : PSType;
  cached_save_cache : bool
}.

(** The arguments of [PointSource.__init__]. *)
Record Config : Type := {
  arg_point_source_type_list : list string;
  arg_lens_model : option LensModel;
  arg_fixed_magnification_list : option (list bool);
  arg_additional_images_list : option (list bool);
  arg_flux_from_point_source_list : option (list bool);
  arg_magnification_limit : option Q;
  arg_save_cache : bool;
  arg_kwargs_lens_eqn_solver : option (gmap string Q);
  arg_index_lens_model_list : option (list (list nat));
  arg_point_source_frame_list : option (list (option (list nat)));
  arg_redshift_list : option (list (option Q))
}.

Record PointSource : Type := {
  _index_lens_model_list : option (list (list nat));
  _point_source_frame_list : option (list (option (list nat)));
  _lens_model : option LensModel;
  point_source_type_list : list string;
  _point_source_list : list PointSourceCached;
  _fixed_magnification_list : list bool;
  _flux_from_point_source_list : list bool;
  _redshift_list : list (option Q);
  _kwargs_lens_eqn_solver : gmap string Q;
  _magnification_limit : option Q;
  _save_cache : bool
}.

(** [x if x is not None else [v] * n] *)
Definition default_list {A : Type} (l : option (list A)) (v : A) (n : nat) : list A :=
  match l with
  | Some l => l
  | None => replicate n v
  end.

(** The constructors [LensedPositions(...)] and [SourcePositions(...)] of
    [lenstronomy.PointSource.Types] are outside this file.  The object
    such a constructor builds is represented by the arguments it is
    given; whether the call returns or raises (and what) is given by the
    two functions below, about which nothing is assumed.  [Unlensed()]
    and [PointSourceCached(...)] are given nothing they could reject. *)
Variable LensedPositions_init :
  option LensModel -> bool -> bool -> option (list (list nat)) -> option (list nat) ->
  option Q -> result unit.
Variable SourcePositions_init : option LensModel -> bool -> option Q -> result unit.

(** One round of the loop of [__init__]: the wrapper built for the source
    [model] declared at position [i]. *)
Definition init_model (lens_model : option LensModel) (save_cache : bool)
           (fixed_magnification_list additional_images_list : list bool)
           (index_lens_model_list : option (list (list nat)))
           (point_source_frame_list : option (list (option (list nat))))
           (redshift_list : list (option Q))
           (i : nat) (model : string) : result PointSourceCached :=
  if decide (model = "UNLENSED") then
    Ok {| cached_model := Unlensed; cached_save_cache := save_cache |}
  else if decide (model = "LENSED_POSITION") then
    let* fixed_magnification := getitem fixed_magnification_list i in
    let* additional_images := getitem additional_images_list i in
    let* frame := match point_source_frame_list with
                  | Some l => getitem l i
                  | None => Raise TypeError
                  end in
    let* redshift := getitem redshift_list i in
    let* constructed := LensedPositions_init lens_model fixed_magnification additional_images
                                             index_lens_model_list frame redshift in
    Ok {| cached_model := LensedPositions lens_model fixed_magnification additional_images
                                          index_lens_model_list frame redshift;
          cached_save_cache := save_cache |}
  else if decide (model = "SOURCE_POSITION") then
    let* fixed_magnification := getitem fixed_magnification_list i in
    let* redshift := getitem redshift_list i in
    let* constructed := SourcePositions_init lens_model fixed_magnification redshift in
    Ok {| cached_model := SourcePositions lens_model fixed_magnification redshift;
          cached_save_cache := save_cache |}
  else Raise ValueError.

(** [for i, model in enumerate(point_source_type_list)], [models] being the
    part of the list from position [i] on and [acc] the wrappers appended
    so far. *)
Fixpoint init_loop (build : nat -> string -> result PointSourceCached)
         (models : list string) (i : nat) (acc : list PointSourceCached)
  : result (list PointSourceCached) :=
  match models with
  | [] => Ok acc
  | model :: models' =>
      let* m := build i model in
      init_loop build models' (S i) (acc ++ [m])
  end.

Definition __init__ (cfg : Config) : result PointSource :=
  let point_source_type_list := arg_point_source_type_list cfg in
  let index_lens_model_list := arg_index_lens_model_list cfg in
  let n := length point_source_type_list in
  let* point_source_frame_list :=
    if decide ("LENSED_POSITION" ∈ point_source_type_list) then
      if bool_decide (index_lens_model_list ≠ None)
         && bool_decide (arg_point_source_frame_list cfg = None)
      then Raise ValueError
      else if bool_decide (index_lens_model_list = None)
           then Ok (Some (replicate n None))
           else Ok (arg_point_source_frame_list cfg)
    else Ok (arg_point_source_frame_list cfg) in
  let fixed_magnification_list := default_list (arg_fixed_magnification_list cfg) false n in
  let additional_images_list := default_list (arg_additional_images_list cfg) false n in
  let flux_from_point_source_list := default_list (arg_flux_from_point_source_list cfg) true n in
  let redshift_list := default_list (arg_redshift_list cfg) None n in
  let* models :=
    init_loop (init_model (arg_lens_model cfg) (arg_save_cache cfg)
                          fixed_magnification_list additional_images_list
                          index_lens_model_list point_source_frame_list redshift_list)
              point_source_type_list 0 [] in
  let kwargs_lens_eqn_solver :=
    match arg_kwargs_lens_eqn_solver cfg with
    | Some k => k
    | None => ∅
    end in
  Ok {| _index_lens_model_list := index_lens_model_list;
        _point_source_frame_list := point_source_frame_list;
        _lens_model := arg_lens_model cfg;
        point_source_type_list := point_source_type_list;
        _point_source_list := models;
        _fixed_magnification_list := fixed_magnification_list;
        _flux_from_point_source_list := flux_from_point_source_list;
        _redshift_list := redshift_list;
        _kwargs_lens_eqn_solver := kwargs_lens_eqn_solver;
        _magnification_limit := arg_magnification_limit cfg;
        _save_cache := arg_save_cache cfg |}.

(** [model.image_position(kwargs, kwargs_lens, magnification_limit=...,
    kwargs_lens_eqn_solver=..., additional_images=...)] of the wrapped
    models, which solve the lens equation outside this file. *)
Variable model_image_position :
  PointSourceCached -> gmap string value -> LensKwargs -> option Q -> gmap string Q -> bool
  -> result (list Q * list Q).

Section Methods.

Variable self : PointSource.

(** The loop of [image_position]; [models] is [self._point_source_list]
    from position [i] on. *)
Fixpoint image_position_loop (h : heap) (entries : list ref) (kwargs_lens : LensKwargs)
         (k : option nat) (original_position additional_images : bool)
         (models : list PointSourceCached) (i : nat)
         (x_image_list y_image_list : list (list Q))
  : result (list (list Q) * list (list Q)) :=
  match models with
  | [] => Ok (x_image_list, y_image_list)
  | model :: models' =>
      if match k with None => true | Some k' => Nat.eqb k' i end then
        let* r := getitem entries i in
        let* kwargs := load_dict h r in
        let* '(x_image, y_image) :=
          model_image_position model kwargs kwargs_lens (_magnification_limit self)
                               (_kwargs_lens_eqn_solver self) additional_images in
        let* '(x_image, y_image) :=
          if original_position && additional_images then
            let* ty := getitem (point_source_type_list self) i in
            if decide (ty = "LENSED_POSITION") then
              let* x_o := dict_getitem kwargs "ra_image" in
              let* y_o := dict_getitem kwargs "dec_image" in
              let* x_o := py_iter x_o in
              let* y_o := py_iter y_o in
              _sort_position_by_original x_o y_o x_image y_image
            else Ok (x_image, y_image)
          else Ok (x_image, y_image) in
        image_position_loop h entries kwargs_lens k original_position additional_images
                            models' (S i) (x_image_list ++ [x_image]) (y_image_list ++ [y_image])
      else
        image_position_loop h entries kwargs_lens k original_position additional_images
                            models' (S i) x_image_list y_image_list
  end.

Definition image_position (h : heap) (kwargs_ps : ref) (kwargs_lens : LensKwargs)
           (k : option nat) (original_position additional_images : bool)
  : result (list (list Q) * list (list Q)) :=
  let* entries := load_list h kwargs_ps in
  image_position_loop h entries kwargs_lens k original_position additional_images
                      (_point_source_list self) 0 [] [].

(** The loop of [num_basis] over [enumerate(self.point_source_type_list)]. *)
Fixpoint num_basis_loop (ra_pos_list : list (list Q)) (models : list string) (i n : nat)
  : result nat :=
  match models with
  | [] => Ok n
  | _ :: models' =>
      let* flux := getitem (_flux_from_point_source_list self) i in
      if flux : bool then
        let* fixed := getitem (_fixed_magnification_list self) i in
        if fixed : bool then num_basis_loop ra_pos_list models' (S i) (n + 1)
        else
          let* ra := getitem ra_pos_list i in
          num_basis_loop ra_pos_list models' (S i) (n + length ra)
      else num_basis_loop ra_pos_list models' (S i) n
  end.

Definition num_basis (h : heap) (kwargs_ps : ref) (kwargs_lens : LensKwargs) : result nat :=
  let* '(ra_pos_list, dec_pos_list) := image_position h kwargs_ps kwargs_lens None false false in
  num_basis_loop ra_pos_list (point_source_type_list self) 0 0.

(** The loop of [update_linear] over [enumerate(self._point_source_list)]:
    the dictionaries are written in place. *)
Fixpoint update_linear_loop (param : list Q) (entries : list ref) (ra_pos_list : list (list Q))
         (models : list PointSourceCached) (k i : nat) (h : heap) : result (nat * heap) :=
  match models with
  | [] => Ok (i, h)
  | _ :: models' =>
      let* flux := getitem (_flux_from_point_source_list self) k in
      if flux : bool then
        let* kwargs := getitem entries k in
        let* fixed := getitem (_fixed_magnification_list self) k in
        if fixed : bool then
          let* p := getitem param i in
          let* h' := dict_setitem h kwargs "source_amp" (Scalar p) in
          update_linear_loop param entries ra_pos_list models' (S k) (i + 1) h'
        else
          let* ra := getitem ra_pos_list k in
          let n_points := length ra in
          let* h' := dict_setitem h kwargs "point_amp" (Array (take n_points (drop i param))) in
          update_linear_loop param entries ra_pos_list models' (S k) (i + n_points) h'
      else update_linear_loop param entries ra_pos_list models' (S k) i h
  end.

(** [update_linear] returns its argument [kwargs_ps] and the next index;
    the third component is the heap after the call. *)
Definition update_linear (param : list Q) (i : nat) (kwargs_ps : ref) (kwargs_lens : LensKwargs)
           (h : heap) : result (ref * nat * heap) :=
  let* '(ra_pos_list, dec_pos_list) := image_position h kwargs_ps kwargs_lens None false false in
  let* entries := load_list h kwargs_ps in
  let* '(i', h') :=
    update_linear_loop param entries ra_pos_list (_point_source_list self) 0 i h in
  Ok (kwargs_ps, i', h').

(** The loop of [linear_param_from_kwargs]. *)
Fixpoint linear_param_loop (h : heap) (entries : list ref)
         (models : list PointSourceCached) (k : nat) (param : list value)
  : result (list value) :=
  match models with
  | [] => Ok param
  | _ :: models' =>
      let* flux := getitem (_flux_from_point_source_list self) k in
      if flux : bool then
        let* r := getitem entries k in
        let* kwargs := load_dict h r in
        let* fixed := getitem (_fixed_magnification_list self) k in
        if fixed : bool then
          let* a := dict_getitem kwargs "source_amp" in
          linear_param_loop h entries models' (S k) (param ++ [a])
        else
          let* amps := dict_getitem kwargs "point_amp" in
          let* amps := py_iter amps in
          linear_param_loop h entries models' (S k) (param ++ map Scalar amps)
      else linear_param_loop h entries models' (S k) param
  end.

Definition linear_param_from_kwargs (h : heap) (kwargs_list : ref) : result (list value) :=
  let* entries := load_list h kwargs_list in
  linear_param_loop h entries (_point_source_list self) 0 [].

(** The loop of [set_amplitudes] over [enumerate(self.point_source_type_list)],
    writing into the copy [entries]. *)
Fixpoint set_amplitudes_loop (amp_list : list value) (entries : list ref)
         (models : list string) (i : nat) (h : heap) : result heap :=
  match models with
  | [] => Ok h
  | model :: models' =>
      let* flux := getitem (_flux_from_point_source_list self) i in
      if flux : bool then
        let* amp := getitem amp_list i in
        if decide (model = "UNLENSED") then
          let* r := getitem entries i in
          let* h' := dict_setitem h r "point_amp" amp in
          set_amplitudes_loop amp_list entries models' (S i) h'
        else if decide (model ∈ ["LENSED_POSITION"; "SOURCE_POSITION"]) then
          let* fixed := getitem (_fixed_magnification_list self) i in
          let* r := getitem entries i in
          let* h' := dict_setitem h r (if fixed : bool then "source_amp" else "point_amp") amp in
          set_amplitudes_loop amp_list entries models' (S i) h'
        else set_amplitudes_loop amp_list entries models' (S i) h
      else set_amplitudes_loop amp_list entries models' (S i) h
  end.

(** [set_amplitudes] returns the reference of the new list; the second
    component is the heap after the call. *)
Definition set_amplitudes (amp_list : list value) (kwargs_ps : ref) (h : heap)
  : result (ref * heap) :=
  let* '(kwargs_list, h1) := deepcopy h kwargs_ps in
  let* entries := load_list h1 kwargs_list in
  let* h2 := set_amplitudes_loop amp_list entries (point_source_type_list self) 0 h1 in
  Ok (kwargs_list, h2).

End Methods.

End Model.

Arguments Unlensed {LensModel}.
Arguments LensedPositions {LensModel}.
Arguments SourcePositions {LensModel}.
Arguments cached_model {LensModel}.
Arguments cached_save_cache {LensModel}.
Arguments arg_point_source_type_list {LensModel}.
Arguments arg_lens_model {LensModel}.
Arguments arg_fixed_magnification_list {LensModel}.
Arguments arg_additional_images_list {LensModel}.
Arguments arg_flux_from_point_source_list {LensModel}.
Arguments arg_magnification_limit {LensModel}.
Arguments arg_save_cache {LensModel}.
Arguments arg_kwargs_lens_eqn_solver {LensModel}.
Arguments arg_index_lens_model_list {LensModel}.
Arguments arg_point_source_frame_list {LensModel}.
Arguments arg_redshift_list {LensModel}.
Arguments _index_lens_model_list {LensModel}.
Arguments _point_source_frame_list {LensModel}.
Arguments _lens_model {LensModel}.
Arguments point_source_type_list {LensModel}.
Arguments _point_source_list {LensModel}.
Arguments _fixed_magnification_list {LensModel}.
Arguments _flux_from_point_source_list {LensModel}.
Arguments _redshift_list {LensModel}.
Arguments _kwargs_lens_eqn_solver {LensModel}.
Arguments _magnification_limit {LensModel}.
Arguments _save_cache {LensModel}.
Arguments init_model {LensModel}.
Arguments init_loop {LensModel}.
Arguments __init__ {LensModel}.
Arguments image_position_loop {LensModel LensKwargs}.
Arguments image_position {LensModel LensKwargs}.
Arguments num_basis_loop {LensModel}.
Arguments num_basis {LensModel LensKwargs}.
Arguments update_linear_loop {LensModel}.
Arguments update_linear {LensModel LensKwargs}.
Arguments linear_param_loop {LensModel}.
Arguments linear_param_from_kwargs {LensModel}.
Arguments set_amplitudes_loop {LensModel}.
Arguments set_amplitudes {LensModel}.

End PointSourceModel.

(** * Point sources: [check_positive_flux] in binary64

    [check_positive_flux] compares the amplitudes with zero, and what the
    comparison answers depends on the numbers being [float64]: a NaN is
    not [>= 0].  The amplitudes are therefore binary64 numbers here
    (numpy's [>=] on [float64] is the IEEE 754 comparison, as the
    primitive floats' is).  The method reads [kwargs_ps] and writes
    nothing, so the list of dictionaries is passed by value.  A value
    under ['point_amp'] or ['source_amp'] is a float or a one-dimensional
    array of floats; other Python objects are outside the model. *)

Module PositiveFlux.

Import PrimFloat.
Local Open Scope string_scope.
Local Open Scope list_scope.

Inductive value : Type :=
| Scalar (x : float)
| Array (a : list float).

(** [np.asarray(v)], flattened *)
Definition np_asarray (v : value) : list float :=
  match v with
  | Array a => a
  | Scalar x => [x]
  end.

(** [np.all(point_amp >= 0)] *)
Definition np_all_nonneg (point_amp : list float) : bool :=
  forallb (fun x => (0 <=? x)%float) point_amp.

(** The loop body for one dictionary: [false] when it sets [pos_bool] to
    [False] and breaks, [true] when it falls through. *)
Definition check_positive_flux_entry (kwargs : gmap string value) : bool :=
  match kwargs !! "point_amp" with
  | Some v =>
      let point_amp := np_asarray v in
      if negb (np_all_nonneg point_amp) then false
      else match kwargs !! "source_amp" with
           | Some v =>
               let point_amp := np_asarray v in
               if negb (np_all_nonneg point_amp) then false else true
           | None => true
           end
  | None =>
      match kwargs !! "source_amp" with
      | Some v =>
          let point_amp := np_asarray v in
          if negb (np_all_nonneg point_amp) then false else true
      | None => true
      end
  end.

(** The loop [for kwargs in kwargs_ps], from [pos_bool = True]. *)
Fixpoint check_positive_flux (kwargs_ps : list (gmap string value)) : bool :=
  match kwargs_ps with
  | [] => true
  | kwargs :: kwargs_ps' =>
      if check_positive_flux_entry kwargs then check_positive_flux kwargs_ps'
      else false
  end.

End PositiveFlux.

(** * Point sources: the other methods of [PointSource]

    The methods of [point_source.py] that change the object ([self]) are
    functions from the object to the new object.  The wrapped models and
    the lens model are objects of classes outside this file: what their
    methods return, and what their cache methods do to them, is given by
    the functions of section [Model], about which nothing is assumed. *)

Module PointSourceMore.

Import PointSourceModel.
Local Open Scope string_scope.
Local Open Scope list_scope.

(** [np.zeros_like(v)] *)
Definition np_zeros_like (v : value) : value :=
  match v with
  | Scalar _ => Scalar 0%Q
  | Array a => Array (map (fun _ => 0%Q) a)
  end.

(** [np.abs] on one entry *)
Definition np_abs (q : Q) : Q := if Qle_bool 0 q then q else Qopp q.

Section Model.

Context {LensModel LensKwargs : Type}.

(** ** Assignments to attributes of [self] *)

Definition set_kwargs_lens_eqn_solver (self : PointSource LensModel) (kw : gmap string Q)
  : PointSource LensModel :=
  {| _index_lens_model_list := _index_lens_model_list self;
     _point_source_frame_list := _point_source_frame_list self;
     _lens_model := _lens_model self;
     point_source_type_list := point_source_type_list self;
     _point_source_list := _point_source_list self;
     _fixed_magnification_list := _fixed_magnification_list self;
     _flux_from_point_source_list := _flux_from_point_source_list self;
     _redshift_list := _redshift_list self;
     _kwargs_lens_eqn_solver := kw;
     _magnification_limit := _magnification_limit self;
     _save_cache := _save_cache self |}.

Definition set_point_source_list (self : PointSource LensModel)
           (models : list (PointSourceCached LensModel)) : PointSource LensModel :=
  {| _index_lens_model_list := _index_lens_model_list self;
     _point_source_frame_list := _point_source_frame_list self;
     _lens_model := _lens_model self;
     point_source_type_list := point_source_type_list self;
     _point_source_list := models;
     _fixed_magnification_list := _fixed_magnification_list self;
     _flux_from_point_source_list := _flux_from_point_source_list self;
     _redshift_list := _redshift_list self;
     _kwargs_lens_eqn_solver := _kwargs_lens_eqn_solver self;
     _magnification_limit := _magnification_limit self;
     _save_cache := _save_cache self |}.

Definition set_lens_model (self : PointSource LensModel) (lens_model : option LensModel)
  : PointSource LensModel :=
  {| _index_lens_model_list := _index_lens_model_list self;
     _point_source_frame_list := _point_source_frame_list self;
     _lens_model := lens_model;
     point_source_type_list := point_source_type_list self;
     _point_source_list := _point_source_list self;
     _fixed_magnification_list := _fixed_magnification_list self;
     _flux_from_point_source_list := _flux_from_point_source_list self;
     _redshift_list := _redshift_list self;
     _kwargs_lens_eqn_solver := _kwargs_lens_eqn_solver self;
     _magnification_limit := _magnification_limit self;
     _save_cache := _save_cache self |}.

Definition set_save_cache_attr (self : PointSource LensModel) (save_cache : bool)
  : PointSource LensModel :=
  {| _index_lens_model_list := _index_lens_model_list self;
     _point_source_frame_list := _point_source_frame_list self;
     _lens_model := _lens_model self;
     point_source_type_list := point_source_type_list self;
     _point_source_list := _point_source_list self;
     _fixed_magnification_list := _fixed_magnification_list self;
     _flux_from_point_source_list := _flux_from_point_source_list self;
     _redshift_list := _redshift_list self;
     _kwargs_lens_eqn_solver := _kwargs_lens_eqn_solver self;
     _magnification_limit := _magnification_limit self;
     _save_cache := save_cache |}.

(** ** [update_search_window] *)

(** [d.get(key, default)] *)
Definition dict_get (d : gmap string Q) (key : string) (default_value : Q) : Q :=
  match d !! key with
  | Some v => v
  | None => default_value
  end.

Definition update_search_window (self : PointSource LensModel)
           (search_window x_center y_center : Q) (min_distance : option Q)
           (only_from_unspecified : bool) : PointSource LensModel :=
  let kw := _kwargs_lens_eqn_solver self in
  let kw :=
    match min_distance with
    | Some d =>
        if bool_decide (kw !! "min_distance" = None) && only_from_unspecified
        then <["min_distance" := d]> kw
        else kw
    | None => kw
    end in
  let kw :=
    if only_from_unspecified then
      let kw := <["search_window" := dict_get kw "search_window" search_window]> kw in
      let kw := <["x_center" := dict_get kw "x_center" x_center]> kw in
      <["y_center" := dict_get kw "y_center" y_center]> kw
    else
      let kw := <["search_window" := search_window]> kw in
      let kw := <["x_center" := x_center]> kw in
      <["y_center" := y_center]> kw in
  set_kwargs_lens_eqn_solver self kw.

(** ** [k_list] *)

(** The loop [for point_source_frame in self._point_source_frame_list[k]]. *)
Fixpoint k_list_loop (index_lens_model_list : list (list nat)) (frames : list nat)
         (k_list : list (list nat)) : result (list (list nat)) :=
  match frames with
  | [] => Ok k_list
  | point_source_frame :: frames' =>
      let* ks := getitem index_lens_model_list point_source_frame in
      k_list_loop index_lens_model_list frames' (k_list ++ [ks])
  end.

(** [k_list(k)] for [k >= 0]; subscripting or iterating [None] is a
    [TypeError]. *)
Definition k_list (self : PointSource LensModel) (k : nat) : result (option (list (list nat))) :=
  match _index_lens_model_list self with
  | Some index_lens_model_list =>
      let* frames :=
        match _point_source_frame_list self with
        | Some l => getitem l k
        | None => Raise TypeError
        end in
      let* frames := match frames with
                     | Some f => Ok f
                     | None => Raise TypeError
                     end in
      let* k_list := k_list_loop index_lens_model_list frames [] in
      Ok (Some k_list)
  | None => Ok None
  end.

(** ** The cache of the wrapped models and the lens model *)

(** [model.set_save_cache(b)], [model.delete_lens_model_cache()] and
    [model.update_lens_model(lens_model_class=...)] of [PointSourceCached]:
    the wrapped model after the call. *)
Variable model_set_save_cache :
  PointSourceCached LensModel -> bool -> PointSourceCached LensModel.
Variable model_delete_lens_model_cache :
  PointSourceCached LensModel -> PointSourceCached LensModel.
Variable model_update_lens_model :
  PointSourceCached LensModel -> option LensModel -> PointSourceCached LensModel.

Definition delete_lens_model_cache (self : PointSource LensModel) : PointSource LensModel :=
  set_point_source_list self (map model_delete_lens_model_cache (_point_source_list self)).

Definition update_lens_model (self : PointSource LensModel) (lens_model_class : option LensModel)
  : PointSource LensModel :=
  let self := delete_lens_model_cache self in
  let self := set_lens_model self lens_model_class in
  set_point_source_list self
    (map (fun model => model_update_lens_model model lens_model_class)
         (_point_source_list self)).

Definition _set_save_cache (self : PointSource LensModel) (save_cache : bool)
  : PointSource LensModel :=
  set_point_source_list self
    (map (fun model => model_set_save_cache model save_cache) (_point_source_list self)).

Definition set_save_cache (self : PointSource LensModel) (save_cache : bool)
  : PointSource LensModel :=
  let self := _set_save_cache self save_cache in
  set_save_cache_attr self save_cache.

(** [if self._save_cache is False: self.delete_lens_model_cache();
    self._set_save_cache(self._save_cache)] *)
Definition restore_cache (self : PointSource LensModel) : PointSource LensModel :=
  if _save_cache self then self
  else let self := delete_lens_model_cache self in
       _set_save_cache self (_save_cache self).

(** ** Queries handed on to the wrapped models *)

(** [model.source_position(kwargs, kwargs_lens)], a pair;
    [model.image_position(...)] as in [PointSourceModel];
    [model.image_amplitude(kwargs_ps=..., kwargs_lens=...,
    kwargs_lens_eqn_solver=...)], an array;
    [model.source_amplitude(kwargs_ps=..., kwargs_lens=...)];
    [self._lens_model.magnification(x_pos, y_pos, kwargs_lens)], an
    array. *)
Variable model_source_position :
  PointSourceCached LensModel -> gmap string value -> LensKwargs -> result (value * value).
Variable model_image_position :
  PointSourceCached LensModel -> gmap string value -> LensKwargs -> option Q ->
  gmap string Q -> bool -> result (list Q * list Q).
Variable model_image_amplitude :
  PointSourceCached LensModel -> gmap string value -> LensKwargs -> gmap string Q ->
  result (list Q).
Variable model_source_amplitude :
  PointSourceCached LensModel -> gmap string value -> LensKwargs -> result value.
Variable lens_model_magnification :
  option LensModel -> list Q -> list Q -> LensKwargs -> result (list Q).

(** The loop of [source_position]. *)
Fixpoint source_position_loop (h : heap) (entries : list ref) (kwargs_lens : LensKwargs)
         (models : list (PointSourceCached LensModel)) (i : nat)
         (x_source_list y_source_list : list value)
  : result (list value * list value) :=
  match models with
  | [] => Ok (x_source_list, y_source_list)
  | model :: models' =>
      let* r := getitem entries i in
      let* kwargs := load_dict h r in
      let* '(x_source, y_source) := model_source_position model kwargs kwargs_lens in
      source_position_loop h entries kwargs_lens models' (S i)
                           (x_source_list ++ [x_source]) (y_source_list ++ [y_source])
  end.

Definition source_position (self : PointSource LensModel) (h : heap) (kwargs_ps : ref)
           (kwargs_lens : LensKwargs) : result (list value * list value) :=
  let* entries := load_list h kwargs_ps in
  source_position_loop h entries kwargs_lens (_point_source_list self) 0 [] [].

(** The loop of [image_amplitude]. *)
Fixpoint image_amplitude_loop (self : PointSource LensModel) (h : heap) (entries : list ref)
         (kwargs_lens : LensKwargs) (k : option nat)
         (models : list (PointSourceCached LensModel)) (i : nat) (amp_list : list (list Q))
  : result (list (list Q)) :=
  match models with
  | [] => Ok amp_list
  | model :: models' =>
      if match k with None => true | Some k' => Nat.eqb k' i end then
        let* r := getitem entries i in
        let* kwargs := load_dict h r in
        let* image_amp :=
          model_image_amplitude model kwargs kwargs_lens (_kwargs_lens_eqn_solver self) in
        let* flux := getitem (_flux_from_point_source_list self) i in
        if flux : bool then
          image_amplitude_loop self h entries kwargs_lens k models' (S i)
                               (amp_list ++ [image_amp])
        else
          image_amplitude_loop self h entries kwargs_lens k models' (S i)
                               (amp_list ++ [map (fun _ => 0%Q) image_amp])
      else image_amplitude_loop self h entries kwargs_lens k models' (S i) amp_list
  end.

Definition image_amplitude (self : PointSource LensModel) (h : heap) (kwargs_ps : ref)
           (kwargs_lens : LensKwargs) (k : option nat) : result (list (list Q)) :=
  let* entries := load_list h kwargs_ps in
  image_amplitude_loop self h entries kwargs_lens k (_point_source_list self) 0 [].

(** The loop of [source_amplitude]. *)
Fixpoint source_amplitude_loop (self : PointSource LensModel) (h : heap) (entries : list ref)
         (kwargs_lens : LensKwargs) (models : list (PointSourceCached LensModel)) (i : nat)
         (amp_list : list value) : result (list value) :=
  match models with
  | [] => Ok amp_list
  | model :: models' =>
      let* r := getitem entries i in
      let* kwargs := load_dict h r in
      let* source_amp := model_source_amplitude model kwargs kwargs_lens in
      let* flux := getitem (_flux_from_point_source_list self) i in
      if flux : bool then
        source_amplitude_loop self h entries kwargs_lens models' (S i) (amp_list ++ [source_amp])
      else
        source_amplitude_loop self h entries kwargs_lens models' (S i)
                              (amp_list ++ [np_zeros_like source_amp])
  end.

Definition source_amplitude (self : PointSource LensModel) (h : heap) (kwargs_ps : ref)
           (kwargs_lens : LensKwargs) : result (list value) :=
  let* entries := load_list h kwargs_ps in
  source_amplitude_loop self h entries kwargs_lens (_point_source_list self) 0 [].

(** ** [point_source_list] *)

(** [l[i][j]] *)
Definition getitem2 (l : list (list Q)) (i j : nat) : result Q :=
  let* li := getitem l i in
  getitem li j.

(** The loop [for j in range(len(ra))] of [point_source_list]; [js] are
    the values of [j] still to come. *)
Fixpoint point_source_list_inner (ra_list dec_list amp_list : list (list Q)) (with_amp : bool)
         (i : nat) (js : list nat) (ra_array dec_array amp_array : list Q)
  : result (list Q * list Q * list Q) :=
  match js with
  | [] => Ok (ra_array, dec_array, amp_array)
  | j :: js' =>
      let* skip := if with_amp then
                     let* a := getitem2 amp_list i j in Ok (Qeq_bool a 0)
                   else Ok false in
      if skip : bool then
        point_source_list_inner ra_list dec_list amp_list with_amp i js'
                                ra_array dec_array amp_array
      else
        let* ra := getitem2 ra_list i j in
        let* dec := getitem2 dec_list i j in
        let* amp := if with_amp then getitem2 amp_list i j else Ok 1%Q in
        point_source_list_inner ra_list dec_list amp_list with_amp i js'
                                (ra_array ++ [ra]) (dec_array ++ [dec]) (amp_array ++ [amp])
  end.

(** The loop [for i, ra in enumerate(ra_list)]; [rest] is [ra_list] from
    position [i] on. *)
Fixpoint point_source_list_outer (ra_list dec_list amp_list : list (list Q)) (with_amp : bool)
         (rest : list (list Q)) (i : nat) (ra_array dec_array amp_array : list Q)
  : result (list Q * list Q * list Q) :=
  match rest with
  | [] => Ok (ra_array, dec_array, amp_array)
  | ra :: rest' =>
      let* '(ra_array, dec_array, amp_array) :=
        point_source_list_inner ra_list dec_list amp_list with_amp i (seq 0 (length ra))
                                ra_array dec_array amp_array in
      point_source_list_outer ra_list dec_list amp_list with_amp rest' (S i)
                              ra_array dec_array amp_array
  end.

(** [point_source_list] returns the three arrays; the last component is
    the object after the call.  Without [with_amp] the name [amp_list] is
    never bound and never read. *)
Definition point_source_list (self : PointSource LensModel) (h : heap) (kwargs_ps : ref)
           (kwargs_lens : LensKwargs) (k : option nat) (with_amp : bool)
  : result (list Q * list Q * list Q * PointSource LensModel) :=
  let self := _set_save_cache self true in
  let* '(ra_list, dec_list) :=
    image_position model_image_position self h kwargs_ps kwargs_lens k false false in
  let* amp_list := if with_amp then image_amplitude self h kwargs_ps kwargs_lens k
                   else Ok [] in
  let self := restore_cache self in
  let* '(ra_array, dec_array, amp_array) :=
    point_source_list_outer ra_list dec_list amp_list with_amp ra_list 0 [] [] [] in
  Ok (ra_array, dec_array, amp_array, self).

(** ** [linear_response_set] *)

(** The loop [for j in range(len(x_pos))] of [linear_response_set]. *)
Fixpoint linear_response_points (x_pos y_pos mag : list Q) (js : list nat)
         (ra_pos dec_pos amp : list (list Q))
  : result (list (list Q) * list (list Q) * list (list Q)) :=
  match js with
  | [] => Ok (ra_pos, dec_pos, amp)
  | j :: js' =>
      let* x := getitem x_pos j in
      let* y := getitem y_pos j in
      let* m := getitem mag j in
      linear_response_points x_pos y_pos mag js' (ra_pos ++ [[x]]) (dec_pos ++ [[y]])
                             (amp ++ [[m]])
  end.

(** The loop of [linear_response_set] over
    [enumerate(self._point_source_list)]. *)
Fixpoint linear_response_loop (self : PointSource LensModel) (h : heap) (kwargs_ps : ref)
         (kwargs_lens : LensKwargs) (with_amp : bool)
         (x_image_list y_image_list : list (list Q))
         (models : list (PointSourceCached LensModel)) (i : nat)
         (ra_pos dec_pos amp : list (list Q))
  : result (list (list Q) * list (list Q) * list (list Q)) :=
  match models with
  | [] => Ok (ra_pos, dec_pos, amp)
  | _ :: models' =>
      let* flux := getitem (_flux_from_point_source_list self) i in
      if flux : bool then
        let* x_pos := getitem x_image_list i in
        let* y_pos := getitem y_image_list i in
        let* fixed := getitem (_fixed_magnification_list self) i in
        if fixed : bool then
          let* mag :=
            if with_amp then
              let* amps := image_amplitude self h kwargs_ps kwargs_lens (Some i) in
              getitem amps 0
            else
              let* mag := lens_model_magnification (_lens_model self) x_pos y_pos kwargs_lens in
              Ok (map np_abs mag) in
          linear_response_loop self h kwargs_ps kwargs_lens with_amp x_image_list y_image_list
                               models' (S i) (ra_pos ++ [x_pos]) (dec_pos ++ [y_pos])
                               (amp ++ [mag])
        else
          let* mag :=
            if with_amp then
              let* amps := image_amplitude self h kwargs_ps kwargs_lens (Some i) in
              getitem amps 0
            else Ok (map (fun _ => 1%Q) x_pos) in
          let* '(ra_pos, dec_pos, amp) :=
            linear_response_points x_pos y_pos mag (seq 0 (length x_pos)) ra_pos dec_pos amp in
          linear_response_loop self h kwargs_ps kwargs_lens with_amp x_image_list y_image_list
                               models' (S i) ra_pos dec_pos amp
      else
        linear_response_loop self h kwargs_ps kwargs_lens with_amp x_image_list y_image_list
                             models' (S i) ra_pos dec_pos amp
  end.

(** [linear_response_set] returns [ra_pos, dec_pos, amp, n]; the last
    component is the object after the call. *)
Definition linear_response_set (self : PointSource LensModel) (h : heap) (kwargs_ps : ref)
           (kwargs_lens : LensKwargs) (with_amp : bool)
  : result (list (list Q) * list (list Q) * list (list Q) * nat * PointSource LensModel) :=
  let self := _set_save_cache self true in
  let* '(x_image_list, y_image_list) :=
    image_position model_image_position self h kwargs_ps kwargs_lens None false false in
  let* '(ra_pos, dec_pos, amp) :=
    linear_response_loop self h kwargs_ps kwargs_lens with_amp x_image_list y_image_list
                         (_point_source_list self) 0 [] [] [] in
  let n := length ra_pos in
  let self := restore_cache self in
  Ok (ra_pos, dec_pos, amp, n, self).

End Model.

End PointSourceMore.

(** * Point sources: [check_image_positions]

    The positions traced back to the source plane come from the lens
    model, outside this file; they and the tolerance are real numbers
    here, as in the profile, because the method takes a square root. *)

Module PointSourceCheck.

Import PointSourceModel.
Local Open Scope string_scope.
Local Open Scope list_scope.

(** Elementwise [a + b] of two one-dimensional arrays of reals, with
    numpy's broadcasting of an array of length one. *)
Definition np_add_R (a b : list R) : result (list R) :=
  if decide (length a = length b) then Ok (zip_with Rplus a b)
  else match a, b with
       | [u], _ => Ok (map (fun v => Rplus u v) b)
       | _, [v] => Ok (map (fun u => Rplus u v) a)
       | _, _ => Raise ValueError
       end.

(** [np.max] of a one-dimensional array *)
Definition np_max (a : list R) : result R :=
  match a with
  | [] => Raise ValueError
  | u :: a' => Ok (foldl Rmax u a')
  end.

(** [np.sqrt((x_source - x_source[0]) ** 2 + (y_source - y_source[0]) ** 2)] *)
Definition source_plane_distance (x_source y_source : list R) : result (list R) :=
  let* x0 := getitem x_source 0 in
  let* y0 := getitem y_source 0 in
  let* s := np_add_R (map (fun u => ((u - x0) ^ 2)%R) x_source)
                     (map (fun u => ((u - y0) ^ 2)%R) y_source) in
  Ok (map sqrt s).

Section Tolerance.

Context {LensModel LensKwargs : Type}.

Variable model_image_position :
  PointSourceCached LensModel -> gmap string value -> LensKwargs -> option Q ->
  gmap string Q -> bool -> result (list Q * list Q).

(** [self._lens_model.ray_shooting(x_pos, y_pos, kwargs_lens)] *)
Variable lens_model_ray_shooting :
  option LensModel -> list Q -> list Q -> LensKwargs -> result (list R * list R).

(** The loop of [check_image_positions] over
    [enumerate(self.point_source_type_list)]; [Ok false] is the
    [return False] inside the loop. *)
Fixpoint check_image_positions_loop (self : PointSource LensModel) (kwargs_lens : LensKwargs)
         (tolerance : R) (x_image_list y_image_list : list (list Q))
         (models : list string) (i : nat) : result bool :=
  match models with
  | [] => Ok true
  | model :: models' =>
      if decide (model ∈ ["LENSED_POSITION"; "SOURCE_POSITION"]) then
        let* x_pos := getitem x_image_list i in
        let* y_pos := getitem y_image_list i in
        let* '(x_source, y_source) :=
          lens_model_ray_shooting (_lens_model self) x_pos y_pos kwargs_lens in
        let* dist := source_plane_distance x_source y_source in
        let* m := np_max dist in
        if Rgt_dec m tolerance then Ok false
        else check_image_positions_loop self kwargs_lens tolerance x_image_list y_image_list
                                        models' (S i)
      else check_image_positions_loop self kwargs_lens tolerance x_image_list y_image_list
                                      models' (S i)
  end.

Definition check_image_positions (self : PointSource LensModel) (h : heap) (kwargs_ps : ref)
           (kwargs_lens : LensKwargs) (tolerance : R) : result bool :=
  let* '(x_image_list, y_image_list) :=
    image_position model_image_position self h kwargs_ps kwargs_lens None false false in
  check_image_positions_loop self kwargs_lens tolerance x_image_list y_image_list
                             (point_source_type_list self) 0.

End Tolerance.

End PointSourceCheck.
(** * Properties of the Gaussian profile *)

Module GaussianSpec.

Import Gaussian.
Local Open Scope R_scope.

(** [succeeds P D m]: [m] does not divide by zero, its value satisfies
    [P] and each of its divisors satisfies [D]. *)
Definition succeeds {A : Type} (P : A -> Prop) (D : R -> Prop) (m : Checked A) : Prop :=
  exists v l, m = Some (v, l) /\ P v /\ Forall D l.

(** No division by zero, all divisors positive. *)
Definition no_zero_division {A : Type} (m : Checked A) : Prop :=
  succeeds (fun _ => True) (fun d => 0 < d) m.

Lemma succeeds_ret {A : Type} (P : A -> Prop) D (a : A) : P a -> succeeds P D (ret a).
Proof. intros Ha. exists a, []. repeat split; auto. Qed.

Lemma succeeds_bind {A B : Type} (P : A -> Prop) (Q : B -> Prop) D
      (m : Checked A) (f : A -> Checked B) :
  succeeds P D m -> (forall a, P a -> succeeds Q D (f a)) -> succeeds Q D (bind m f).
Proof.
  intros (a & l1 & -> & Ha & Hl1) Hf.
  destruct (Hf a Ha) as (b & l2 & Hb & HQ & Hl2).
  exists b, (l1 ++ l2). unfold bind. rewrite Hb.
  repeat split; auto. apply Forall_app; auto.
Qed.

Lemma succeeds_div (D : R -> Prop) (a b : R) :
  b <> 0 -> D b -> succeeds (fun v => v = a / b) D (div a b).
Proof.
  intros Hb HD. unfold div. destruct (Req_dec_T b 0) as [E | _]; [contradiction |].
  exists (a / b), [b]. repeat split; auto.
Qed.

Lemma succeeds_weaken {A : Type} (P Q : A -> Prop) D (m : Checked A) :
  succeeds P D m -> (forall a, P a -> Q a) -> succeeds Q D m.
Proof. intros (v & l & E & Hv & Hl) H. exists v, l. auto. Qed.

Lemma succeeds_div_pos (a b : R) :
  0 < b -> succeeds (fun v => v = a / b) (fun d => 0 < d) (div a b).
Proof. intros Hb. apply succeeds_div; [lra | exact Hb]. Qed.

Lemma succeeds_mapM {A B : Type} (Q : B -> Prop) D (f : A -> Checked B) (l : list A) :
  (forall a, In a l -> succeeds Q D (f a)) -> succeeds (Forall Q) D (mapM f l).
Proof.
  induction l as [| a l IH]; intros H; simpl.
  - apply succeeds_ret. constructor.
  - apply succeeds_bind with (P := Q). { apply H. now left. }
    intros b Hb. apply succeeds_bind with (P := Forall Q).
    { apply IH. intros a' Ha'. apply H. now right. }
    intros bs Hbs. apply succeeds_ret. constructor; auto.
Qed.

Lemma bind_Some_inv {A B : Type} (m : Checked A) (f : A -> Checked B) b l :
  bind m f = Some (b, l) ->
  exists a l1 l2, m = Some (a, l1) /\ f a = Some (b, l2) /\ l = l1 ++ l2.
Proof.
  unfold bind. destruct m as [[a l1] |]; [| discriminate].
  destruct (f a) as [[b' l2] |] eqn:E; [| discriminate].
  intros H. inversion H; subst. exists a, l1, l2. auto.
Qed.

Lemma div_Some_inv (a b v : R) l : div a b = Some (v, l) -> l = [b].
Proof.
  unfold div. destruct (Req_dec_T b 0); [discriminate |].
  intros H. now inversion H.
Qed.

Lemma ds_pos : 0 < ds.
Proof. unfold ds. lra. Qed.

Lemma py_max_ds (r : R) : ds <= py_max r ds.
Proof. unfold py_max. destruct (Rlt_dec r ds); lra. Qed.

Lemma floor_entry_ds (r : R) : ds <= floor_entry r.
Proof. unfold floor_entry. destruct (Rle_dec r ds); lra. Qed.

Lemma sqrt_pi_pos : 0 < sqrt PI.
Proof. apply sqrt_lt_R0, PI_RGT_0. Qed.

Lemma amp_scale_pos (s : R) : 0 < s -> 0 < sqrt PI * sqrt (s * s * 2).
Proof.
  intros Hs. apply Rmult_lt_0_compat; [apply sqrt_pi_pos |].
  apply sqrt_lt_R0. nra.
Qed.

Lemma amp2d_to_3d_ok (amp s : R) :
  0 < s -> succeeds (fun v => v = amp / (sqrt PI * sqrt (s * s * 2))) (fun d => 0 < d)
             (_amp2d_to_3d amp s s).
Proof. intros Hs. unfold _amp2d_to_3d. apply succeeds_div_pos, amp_scale_pos, Hs. Qed.

Lemma mass_2d_ok (R0 amp s : R) : 0 < s -> no_zero_division (mass_2d R0 amp s).
Proof.
  intros Hs. unfold no_zero_division, mass_2d.
  eapply succeeds_bind. { apply succeeds_div_pos, amp_scale_pos, Hs. }
  intros amp2d _.
  eapply succeeds_bind. { apply succeeds_div_pos. nra. }
  intros c ->.
  eapply succeeds_bind.
  { apply succeeds_div_pos. apply Rmult_lt_0_compat; [lra |].
    apply Rdiv_lt_0_compat; nra. }
  intros q _. now apply succeeds_ret.
Qed.

Lemma alpha_abs_ok (R0 amp s : R) : 0 < s -> 0 < R0 -> no_zero_division (alpha_abs R0 amp s).
Proof.
  intros Hs HR. unfold no_zero_division, alpha_abs.
  eapply succeeds_bind. { apply amp2d_to_3d_ok, Hs. }
  intros a3 _.
  eapply succeeds_bind. { apply mass_2d_ok, Hs. }
  intros m _.
  eapply succeeds_bind. { apply succeeds_div_pos, PI_RGT_0. }
  intros a _.
  eapply succeeds_weaken. { apply succeeds_div_pos, HR. }
  auto.
Qed.

Lemma d_alpha_dr_ok (R0 amp s : R) : 0 < s -> 0 < R0 -> no_zero_division (d_alpha_dr R0 amp s s).
Proof.
  intros Hs HR. unfold no_zero_division, d_alpha_dr.
  eapply succeeds_bind. { apply succeeds_div_pos. nra. }
  intros c _.
  eapply succeeds_bind. { apply amp2d_to_3d_ok, Hs. }
  intros a3 _.
  eapply succeeds_bind. { apply succeeds_div_pos, PI_RGT_0. }
  intros t _.
  eapply succeeds_bind. { apply succeeds_div_pos. nra. }
  intros q _. now apply succeeds_ret.
Qed.

(** After flooring, the deflection is a common factor times the centred
    offsets, and no divisor is zero. *)
Lemma derivatives_at_ok (x_ y_ R0 amp s : R) :
  0 < s -> 0 < R0 ->
  succeeds (fun v => exists q, v = (q * x_, q * y_)) (fun d => 0 < d)
           (derivatives_at x_ y_ R0 amp s).
Proof.
  intros Hs HR. unfold derivatives_at.
  eapply succeeds_bind. { apply alpha_abs_ok; eassumption. }
  intros alpha _.
  eapply succeeds_bind. { apply succeeds_div_pos, HR. }
  intros qx ->.
  eapply succeeds_bind. { apply succeeds_div_pos, HR. }
  intros qy ->.
  apply succeeds_ret. now exists (alpha / R0).
Qed.

Lemma hessian_at_ok (x_ y_ r amp s : R) :
  0 < s -> 0 < r -> no_zero_division (hessian_at x_ y_ r amp s).
Proof.
  intros Hs Hr. unfold no_zero_division, hessian_at.
  assert (Hr2 : 0 < r ^ 2) by nra.
  eapply succeeds_bind. { apply d_alpha_dr_ok; eassumption. }
  intros d0 _.
  eapply succeeds_bind. { apply alpha_abs_ok; eassumption. }
  intros alpha _.
  repeat (eapply succeeds_bind;
          [ apply succeeds_div_pos; assumption | cbv beta; intros ? _ ]).
  now apply succeeds_ret.
Qed.

Lemma hessian_at_divides_by_square (x_ y_ r amp s : R) v l :
  hessian_at x_ y_ r amp s = Some (v, l) -> In (r ^ 2) l.
Proof.
  unfold hessian_at. intros H.
  apply bind_Some_inv in H as (d0 & l1 & l2 & _ & H & ->).
  apply bind_Some_inv in H as (alpha & l3 & l4 & _ & H & ->).
  apply bind_Some_inv in H as (a1 & l5 & l6 & _ & H & ->).
  apply bind_Some_inv in H as (a2 & l7 & l8 & Hd & _ & ->).
  apply div_Some_inv in Hd. subst l7.
  apply in_or_app; right. apply in_or_app; right.
  apply in_or_app; right. apply in_or_app; left. now left.
Qed.

Lemma radius_at_center (cx cy : R) : sqrt ((cx - cx) ^ 2 + (cy - cy) ^ 2) = 0.
Proof. replace ((cx - cx) ^ 2 + (cy - cy) ^ 2) with 0 by ring. apply sqrt_0. Qed.

Lemma no_zero_division_value {A : Type} (m : Checked A) :
  no_zero_division m -> exists v, value m = Some v.
Proof. intros (v & l & -> & _). now exists v. Qed.

(** ** C5 *)



(** ** C6 *)

(** C6 as stated would make every divisor at least [ds].  At the centre
    of a profile with [amp = sigma = 1] the Hessian divides by [r^2] with
    [r = ds], and [ds^2 < ds]. *)
Lemma hessian_divisor_below_ds :
  ~ Forall (fun d => ds <= d) (divisors (hessian 0 0 1 1 0 0)).
Proof.
  intros HF. unfold hessian in HF.
  rewrite radius_at_center in HF.
  assert (E : py_max 0 ds = ds).
  { unfold py_max. destruct (Rlt_dec 0 ds) as [_ | n]; [reflexivity |].
    exfalso. apply n, ds_pos. }
  rewrite E in HF.
  destruct (hessian_at_ok (0 - 0) (0 - 0) ds 1 1) as (v & l & Hh & _ & _);
    [lra | apply ds_pos |].
  rewrite Hh in HF. simpl in HF.
  apply hessian_at_divides_by_square in Hh.
  rewrite List.Forall_forall in HF. specialize (HF _ Hh).
  unfold ds in HF. lra.
Qed.

(** C6 (amended).  For [sigma > 0], [derivatives] and [hessian] never
    divide by zero, on scalars and on arrays: the radius is replaced by
    [max(r, ds)] (array entries with [r <= ds] by [ds]), which is at least
    [ds], before any division, and every divisor used afterwards is
    strictly positive.  At [x = center_x], [y = center_y] both return a
    value, and the deflection there is exactly [(0, 0)]. *)
Theorem deflection_hessian_no_zero_division (x y amp sigma cx cy : R) :
  0 < sigma ->
  let r := sqrt ((x - cx) ^ 2 + (y - cy) ^ 2) in
  ds <= py_max r ds /\ ds <= floor_entry r /\
  no_zero_division (derivatives x y amp sigma cx cy) /\
  no_zero_division (hessian x y amp sigma cx cy) /\
  (forall xy, no_zero_division (derivatives_array xy amp sigma cx cy)) /\
  (forall xy, no_zero_division (hessian_array xy amp sigma cx cy)) /\
  value (derivatives cx cy amp sigma cx cy) = Some (0, 0) /\
  (exists h, value (hessian cx cy amp sigma cx cy) = Some h).
Proof.
  intros Hs r.
  assert (Hmax : forall t, 0 < py_max t ds).
  { intros t. pose proof (py_max_ds t). pose proof ds_pos. lra. }
  assert (Hfl : forall t, 0 < floor_entry t).
  { intros t. pose proof (floor_entry_ds t). pose proof ds_pos. lra. }
  split; [apply py_max_ds |]. split; [apply floor_entry_ds |].
  split.
  { unfold derivatives. eapply succeeds_weaken.
    - apply derivatives_at_ok; [exact Hs | apply Hmax].
    - auto. }
  split.
  { unfold hessian. apply hessian_at_ok; [exact Hs | apply Hmax]. }
  split.
  { intros xy. unfold derivatives_array. eapply succeeds_weaken.
    - apply succeeds_mapM with (Q := fun _ => True). intros p _.
      eapply succeeds_weaken.
      + apply derivatives_at_ok; [exact Hs | apply Hfl].
      + auto.
    - auto. }
  split.
  { intros xy. unfold hessian_array. eapply succeeds_weaken.
    - apply succeeds_mapM with (Q := fun _ => True). intros p _.
      apply hessian_at_ok; [exact Hs | apply Hfl].
    - auto. }
  split.
  { unfold derivatives.
    destruct (derivatives_at_ok (cx - cx) (cy - cy)
                (py_max (sqrt ((cx - cx) ^ 2 + (cy - cy) ^ 2)) ds) amp sigma Hs (Hmax _))
      as (v & l & -> & (q & ->) & _).
    simpl. do 2 f_equal; ring. }
  apply no_zero_division_value. unfold hessian.
  apply hessian_at_ok; [exact Hs | apply Hmax].
Qed.

Lemma deflection_hessian_no_zero_division_witness :
  0 < 1 /\ value (derivatives 0 0 1 1 0 0) = Some (0, 0).
Proof.
  split; [lra |].
  apply (deflection_hessian_no_zero_division 0 0 1 1 0 0). lra.
Defined.

(** ** C7 *)

(** C7.  For [amp > 0] and [sigma > 0] the potential at the centre is
    exactly 0: [_num_integral] returns 0 at [r = 0] without calling the
    quadrature, and [function] returns that integral times a prefactor
    whose computation does not divide by zero.  The same holds entry by
    entry on an array of points that all lie at the centre. *)
Theorem potential_zero_at_center (quad : (R -> R) -> R -> R -> R)
        (amp sigma cx cy : R) :
  0 < amp -> 0 < sigma ->
  (forall c, _num_integral quad 0 c = 0) /\
  (exists c pre, value (function quad cx cy amp sigma cx cy)
                 = Some (_num_integral quad 0 c * pre)) /\
  value (function quad cx cy amp sigma cx cy) = Some 0 /\
  (forall n, value (function_array quad (repeat (cx, cy) n) amp sigma cx cy)
             = Some (repeat 0 n)).
Proof.
  intros _ Hs.
  assert (Hint : forall c, _num_integral quad 0 c = 0).
  { intros c. unfold _num_integral.
    destruct (Req_dec_T 0 0) as [_ | n]; [reflexivity | now destruct n]. }
  assert (Hc : succeeds (fun c => 0 < c) (fun d => 0 < d) (div 1 (2 * sigma * sigma))).
  { eapply succeeds_weaken. { apply succeeds_div_pos. nra. }
    intros c ->. apply Rdiv_lt_0_compat; nra. }
  assert (Hpre : forall c, 0 < c ->
                 no_zero_division (potential_prefactor amp sigma sigma c)).
  { intros c Hcpos. unfold no_zero_division, potential_prefactor.
    eapply succeeds_bind. { apply amp2d_to_3d_ok, Hs. }
    intros a3 _.
    eapply succeeds_bind. { apply succeeds_div_pos, amp_scale_pos, Hs. }
    intros a2 _.
    eapply succeeds_bind. { apply succeeds_div_pos. lra. }
    intros t _. now apply succeeds_ret. }
  destruct Hc as (c & lc & Ec & Hcpos & _).
  destruct (Hpre c Hcpos) as (pre & lp & Ep & _ & _).
  assert (Hf : value (function quad cx cy amp sigma cx cy)
               = Some (_num_integral quad 0 c * pre)).
  { unfold function. rewrite radius_at_center, Ec. simpl. rewrite Ep. reflexivity. }
  split; [exact Hint |]. split; [now exists c, pre |].
  split. { rewrite Hf, Hint. f_equal. ring. }
  intros n. unfold function_array. rewrite Ec. cbn [bind]. rewrite Ep.
  cbn [bind ret value]. f_equal.
  induction n as [| n IH]; cbn [repeat map fst snd]; [reflexivity |].
  rewrite radius_at_center, Hint, IH. f_equal. ring.
Qed.

Lemma potential_zero_at_center_witness :
  0 < 1 /\ 0 < 1 /\ value (function (fun _ _ _ => 1) 0 0 1 1 0 0) = Some 0.
Proof.
  split; [lra |]. split; [lra |].
  apply (potential_zero_at_center (fun _ _ _ => 1) 1 1 0 0); lra.
Defined.

End GaussianSpec.

(** * The amplitude converters in binary64 (C5) *)

Module GaussianBinary64Spec.

Import PrimFloat.
Import GaussianBinary64.
Local Open Scope float_scope.



End GaussianBinary64Spec.

(** * Properties of the point-source class *)

Module PointSourceSpec.

Import PointSourceModel.
Local Open Scope string_scope.
Local Open Scope list_scope.

(** ** Basic facts about results and list access *)

Lemma getitem_Ok {A : Type} (l : list A) (i : nat) (a : A) :
  getitem l i = Ok a <-> l !! i = Some a.
Proof.
  unfold getitem. destruct (l !! i) as [b |]; split; intros H;
    try discriminate; congruence.
Qed.

Lemma getitem_lt {A : Type} (l : list A) (i : nat) :
  (i < length l)%nat -> exists a, getitem l i = Ok a /\ l !! i = Some a.
Proof.
  intros H. destruct (lookup_lt_is_Some_2 l i H) as [a Ha].
  exists a. split; [now apply getitem_Ok | exact Ha].
Qed.

Lemma rbind_Ok {A B : Type} (m : result A) (f : A -> result B) (b : B) :
  rbind m f = Ok b <-> exists a, m = Ok a /\ f a = Ok b.
Proof.
  destruct m as [a | e]; simpl; split.
  - intros H. now exists a.
  - intros (a' & E & H). now inversion E; subst.
  - discriminate.
  - intros (a' & E & _). discriminate.
Qed.

(** ** Construction (C3) *)

Section Construction.

Context {LensModel : Type}.

Variable LensedPositions_init :
  option LensModel -> bool -> bool -> option (list (list nat)) -> option (list nat) ->
  option Q -> result unit.
Variable SourcePositions_init : option LensModel -> bool -> option Q -> result unit.


(** The type a wrapper was built for. *)
Definition model_kind (m : PointSourceCached LensModel) : string :=
  match cached_model m with
  | Unlensed => "UNLENSED"
  | LensedPositions _ _ _ _ _ _ => "LENSED_POSITION"
  | SourcePositions _ _ _ => "SOURCE_POSITION"
  end.

Definition supported (t : string) : Prop := t ∈ _SUPPORTED_MODELS.

Global Instance supported_dec (t : string) : Decision (supported t).
Proof. unfold supported. apply _. Defined.

(** The optional per-source lists that [__init__] indexes are, when they
    are supplied, as long as [point_source_type_list] (as its docstring
    asks). *)
Definition lengths_agree (cfg : Config LensModel) : Prop :=
  let n := length (arg_point_source_type_list cfg) in
  (forall l, arg_fixed_magnification_list cfg = Some l -> length l = n) /\
  (forall l, arg_additional_images_list cfg = Some l -> length l = n) /\
  (forall l, arg_point_source_frame_list cfg = Some l -> length l = n) /\
  (forall l, arg_redshift_list cfg = Some l -> length l = n).


(** Case (2): a lensed position, an index list and no frame list. *)
Definition lacks_frame_list (cfg : Config LensModel) : Prop :=
  "LENSED_POSITION" ∈ arg_point_source_type_list cfg /\
  arg_index_lens_model_list cfg <> None /\
  arg_point_source_frame_list cfg = None.

Lemma default_list_length {A : Type} (l : option (list A)) (v : A) (n : nat) :
  (forall l', l = Some l' -> length l' = n) -> length (default_list l v n) = n.
Proof.
  intros H. destruct l as [l' |]; simpl; [now apply H | apply length_replicate].
Qed.

Lemma supported_cases (t : string) :
  supported t <-> t = "UNLENSED" \/ t = "LENSED_POSITION" \/ t = "SOURCE_POSITION".
Proof.
  unfold supported, _SUPPORTED_MODELS. rewrite !elem_of_cons, elem_of_nil. tauto.
Qed.





(** The first statement of [__init__]: the configuration error of case
    (2), or the frame list the loop then reads. *)
Definition frame_list_step (cfg : Config LensModel)
  : result (option (list (option (list nat)))) :=
  if decide ("LENSED_POSITION" ∈ arg_point_source_type_list cfg) then
    if bool_decide (arg_index_lens_model_list cfg ≠ None)
       && bool_decide (arg_point_source_frame_list cfg = None)
    then Raise ValueError
    else if bool_decide (arg_index_lens_model_list cfg = None)
         then Ok (Some (replicate (length (arg_point_source_type_list cfg)) None))
         else Ok (arg_point_source_frame_list cfg)
  else Ok (arg_point_source_frame_list cfg).



(** ** What an object that exists tells about its configuration *)

(** A wrapper that was built is of a supported type. *)
Lemma init_model_Ok_inv lens_model save_cache fixed additional index frames redshift i t m :
  init_model LensedPositions_init SourcePositions_init lens_model save_cache fixed additional
             index frames redshift i t = Ok m ->
  supported t /\ model_kind m = t /\ cached_save_cache m = save_cache.
Proof.
  unfold init_model. rewrite supported_cases.
  destruct (decide (t = "UNLENSED")) as [-> | N1].
  { intros H. inversion H; subst. auto. }
  destruct (decide (t = "LENSED_POSITION")) as [-> | N2].
  { intros H. apply rbind_Ok in H as (fm & _ & H). apply rbind_Ok in H as (ai & _ & H).
    apply rbind_Ok in H as (fr & _ & H). apply rbind_Ok in H as (rs & _ & H).
    apply rbind_Ok in H as (u & _ & H). inversion H; subst. auto. }
  destruct (decide (t = "SOURCE_POSITION")) as [-> | N3].
  { intros H. apply rbind_Ok in H as (fm & _ & H). apply rbind_Ok in H as (rs & _ & H).
    apply rbind_Ok in H as (u & _ & H). inversion H; subst. auto. }
  discriminate.
Qed.

Lemma init_loop_Ok_inv (build : nat -> string -> result (PointSourceCached LensModel))
      (save_cache : bool) (models : list string) :
  (forall i t m, build i t = Ok m ->
     supported t /\ model_kind m = t /\ cached_save_cache m = save_cache) ->
  forall (i : nat) (acc ms : list (PointSourceCached LensModel)),
  init_loop build models i acc = Ok ms ->
  Forall supported models /\
  exists ms', ms = acc ++ ms' /\ map model_kind ms' = models /\
              Forall (fun m => cached_save_cache m = save_cache) ms'.
Proof.
  intros Hb. induction models as [| t models IH]; intros i acc ms H; simpl in H.
  - inversion H; subst. split; [constructor |]. exists []. now rewrite app_nil_r.
  - apply rbind_Ok in H as (m & Hm & H). apply Hb in Hm as (Hs & Hk & Hc).
    apply IH in H as (HF & ms' & -> & Hks & Hcs).
    split; [now constructor |].
    exists (m :: ms'). rewrite <- app_assoc. simpl.
    split; [reflexivity |]. split; [now rewrite Hk, Hks | now constructor].
Qed.

(** If [__init__] returns, neither configuration error applies, and the
    object holds the declared types, all of them supported, with one
    wrapper of the declared type per source, and the flag lists with
    their defaults. *)
Lemma init_Ok_inv (cfg : Config LensModel) (self : PointSource LensModel) :
  __init__ LensedPositions_init SourcePositions_init cfg = Ok self ->
  let n := length (arg_point_source_type_list cfg) in
  ~ lacks_frame_list cfg /\
  Forall supported (arg_point_source_type_list cfg) /\
  point_source_type_list self = arg_point_source_type_list cfg /\
  map model_kind (_point_source_list self) = arg_point_source_type_list cfg /\
  Forall (fun m => cached_save_cache m = arg_save_cache cfg) (_point_source_list self) /\
  _fixed_magnification_list self = default_list (arg_fixed_magnification_list cfg) false n /\
  _flux_from_point_source_list self
  = default_list (arg_flux_from_point_source_list cfg) true n.
Proof.
  intros H n.
  assert (Hinit : __init__ LensedPositions_init SourcePositions_init cfg =
    let* point_source_frame_list := frame_list_step cfg in
    let* models :=
      init_loop (init_model LensedPositions_init SourcePositions_init
                   (arg_lens_model cfg) (arg_save_cache cfg)
                   (default_list (arg_fixed_magnification_list cfg) false n)
                   (default_list (arg_additional_images_list cfg) false n)
                   (arg_index_lens_model_list cfg) point_source_frame_list
                   (default_list (arg_redshift_list cfg) None n))
                (arg_point_source_type_list cfg) 0 [] in
    Ok {| _index_lens_model_list := arg_index_lens_model_list cfg;
          _point_source_frame_list := point_source_frame_list;
          _lens_model := arg_lens_model cfg;
          point_source_type_list := arg_point_source_type_list cfg;
          _point_source_list := models;
          _fixed_magnification_list :=
            default_list (arg_fixed_magnification_list cfg) false n;
          _flux_from_point_source_list :=
            default_list (arg_flux_from_point_source_list cfg) true n;
          _redshift_list := default_list (arg_redshift_list cfg) None n;
          _kwargs_lens_eqn_solver :=
            match arg_kwargs_lens_eqn_solver cfg with Some k => k | None => ∅ end;
          _magnification_limit := arg_magnification_limit cfg;
          _save_cache := arg_save_cache cfg |}) by reflexivity.
  rewrite Hinit in H. clear Hinit.
  apply rbind_Ok in H as (fr & Hfr & H).
  apply rbind_Ok in H as (ms & Hms & H). inversion H; subst self. clear H. simpl.
  apply (init_loop_Ok_inv _ (arg_save_cache cfg)) in Hms as (HF & ms' & -> & Hk & Hc);
    [| intros i t m Hm; exact (init_model_Ok_inv _ _ _ _ _ _ _ _ _ _ Hm)].
  split.
  - intros (Hin & Hidx & Hnone). unfold frame_list_step in Hfr.
    destruct (decide ("LENSED_POSITION" ∈ arg_point_source_type_list cfg)); [| contradiction].
    rewrite Hnone in Hfr.
    destruct (arg_index_lens_model_list cfg); [| congruence].
    repeat case_bool_decide; simpl in Hfr; congruence.
  - simpl. repeat split; assumption.
Qed.


End Construction.


(** Constructors of the wrapped models that raise nothing. *)
Definition lensed_returns (lens_model : option unit) (fixed additional : bool)
           (index : option (list (list nat))) (frames : option (list nat))
           (redshift : option Q) : result unit :=
  Ok tt.

Definition source_returns (lens_model : option unit) (fixed : bool) (redshift : option Q)
  : result unit :=
  Ok tt.





End PointSourceSpec.

(** * Positive fluxes (C8) *)

Module PositiveFluxSpec.

Import PrimFloat.
Import PositiveFlux.
Local Open Scope string_scope.
Local Open Scope list_scope.

(** ** The words of the statement *)

(** [x] is an element of a value: the number itself when the value is a
    float, an entry of the array when it is an array. *)
Inductive element_of (x : float) : value -> Prop :=
| element_scalar : element_of x (Scalar x)
| element_array (a : list float) : x ∈ a -> element_of x (Array a).

Definition negative (x : float) : Prop := (x <? 0)%float = true.

Definition not_a_number (x : float) : Prop := is_nan x = true.

(** Some dictionary of [kwargs_ps] holds, under ['point_amp'] or
    ['source_amp'], a value with an element that satisfies [P]. *)
Definition some_amplitude_element (P : float -> Prop)
           (kwargs_ps : list (gmap string value)) : Prop :=
  exists kwargs key v x,
    kwargs ∈ kwargs_ps /\
    (key = "point_amp" \/ key = "source_amp") /\
    kwargs !! key = Some v /\
    element_of x v /\
    P x.

(** The binary64 numbers next to 0.3 and 1.0, which is what [0.3] and
    [1.0] denote in Python. *)
Definition three_tenths : float := 0x1.3333333333333p-2%float.
Definition one : float := 1%float.

(** ** The comparison with zero *)

(** A binary64 number is not [>= 0] exactly when it is negative or a NaN
    (the negative zero is [>= 0]). *)
Lemma not_nonneg_cases (x : float) :
  (0 <=? x)%float = false <-> negative x \/ not_a_number x.
Proof.
  unfold negative, not_a_number, is_nan.
  rewrite negb_true_iff.
  rewrite FloatAxioms.leb_spec, FloatAxioms.ltb_spec, FloatAxioms.eqb_spec.
  change (FloatOps.Prim2SF 0%float) with (SpecFloat.S754_zero false).
  destruct (FloatOps.Prim2SF x) as [s | s | | s m e]; simpl.
  - split; [discriminate | intros [H | H]; discriminate].
  - destruct s; simpl; split; auto; intros [H | H]; try discriminate.
  - split; auto.
  - unfold SpecFloat.SFeqb, SpecFloat.SFltb, SpecFloat.SFleb. simpl.
    destruct s; simpl.
    + split; auto.
    + rewrite Z.compare_refl, Pos.compare_cont_refl. split; [discriminate |].
      intros [H | H]; discriminate.
Qed.

Lemma np_all_nonneg_false (a : list float) :
  np_all_nonneg a = false <-> exists x, x ∈ a /\ (negative x \/ not_a_number x).
Proof.
  unfold np_all_nonneg. induction a as [| y a IH]; simpl.
  - split; [discriminate |]. intros (x & Hx & _). now apply elem_of_nil in Hx.
  - rewrite andb_false_iff, IH, not_nonneg_cases. split.
    + intros [Hy | (x & Hin & Hx)].
      * exists y. split; [left | exact Hy].
      * exists x. split; [now right | exact Hx].
    + intros (x & Hin & Hx). apply elem_of_cons in Hin as [-> | Hin].
      * now left.
      * right. now exists x.
Qed.

(** What the code tests on a value, in terms of the value's elements. *)
Lemma value_not_nonneg (v : value) :
  np_all_nonneg (np_asarray v) = false <->
  exists x, element_of x v /\ (negative x \/ not_a_number x).
Proof.
  rewrite np_all_nonneg_false. destruct v as [y | a]; simpl; split.
  - intros (x & Hin & Hx). apply list_elem_of_singleton in Hin as ->.
    exists y. split; [constructor | exact Hx].
  - intros (x & Hel & Hx). inversion Hel; subst.
    exists y. split; [now apply list_elem_of_singleton | exact Hx].
  - intros (x & Hin & Hx). exists x. split; [now constructor | exact Hx].
  - intros (x & Hel & Hx). inversion Hel; subst. now exists x.
Qed.

Lemma check_entry_false (kwargs : gmap string value) :
  check_positive_flux_entry kwargs = false <->
  exists key v x,
    (key = "point_amp" \/ key = "source_amp") /\
    kwargs !! key = Some v /\
    element_of x v /\ (negative x \/ not_a_number x).
Proof.
  assert (Hval : forall key v,
             (key = "point_amp" \/ key = "source_amp") ->
             kwargs !! key = Some v ->
             np_all_nonneg (np_asarray v) = false ->
             exists key v x,
               (key = "point_amp" \/ key = "source_amp") /\
               kwargs !! key = Some v /\
               element_of x v /\ (negative x \/ not_a_number x)).
  { intros key v Hkey Hlk Hall. apply value_not_nonneg in Hall as (x & Hel & Hx).
    now exists key, v, x. }
  unfold check_positive_flux_entry.
  destruct (kwargs !! "point_amp") as [pa |] eqn:Ep;
    destruct (kwargs !! "source_amp") as [sa |] eqn:Es;
    cbv zeta;
    try destruct (np_all_nonneg (np_asarray pa)) eqn:Hpa;
    try destruct (np_all_nonneg (np_asarray sa)) eqn:Hsa;
    simpl; split; try discriminate; try reflexivity;
    try (intros _; apply (Hval "point_amp" pa); [now left | exact Ep | exact Hpa]);
    try (intros _; apply (Hval "source_amp" sa); [now right | exact Es | exact Hsa]);
    intros (key & v & x & [-> | ->] & Hk & Hel & Hx);
    assert (Hall : np_all_nonneg (np_asarray v) = false)
      by (apply value_not_nonneg; now exists x);
    congruence.
Qed.

Lemma check_positive_flux_false (kwargs_ps : list (gmap string value)) :
  check_positive_flux kwargs_ps = false <->
  some_amplitude_element (fun x => negative x \/ not_a_number x) kwargs_ps.
Proof.
  unfold some_amplitude_element. induction kwargs_ps as [| kwargs kwargs_ps IH]; simpl.
  - split; [discriminate |].
    intros (kw & key & v & x & Hin & _). now apply elem_of_nil in Hin.
  - destruct (check_positive_flux_entry kwargs) eqn:E.
    + rewrite IH. split.
      * intros (kw & key & v & x & Hin & H). exists kw, key, v, x.
        split; [now right | exact H].
      * intros (kw & key & v & x & Hin & Hkey & Hlk & Hel & Hx).
        apply elem_of_cons in Hin as [-> | Hin].
        -- assert (check_positive_flux_entry kwargs = false)
             by (apply check_entry_false; now exists key, v, x).
           congruence.
        -- now exists kw, key, v, x.
    + split; [| reflexivity]. intros _.
      apply check_entry_false in E as (key & v & x & Hkey & Hlk & Hel & Hx).
      exists kwargs, key, v, x. split; [left | auto].
Qed.

(** ** C8 *)

(** C8 (amended).  [check_positive_flux] returns [False] if and only if
    some entry of [kwargs_ps] holds, under ['point_amp'] or
    ['source_amp'], a value with an element that is negative or a NaN; in
    every other case it returns [True], in particular when no entry has
    either key.  It returns [False] on an entry with
    [point_amp = [1.0, -0.3]], also on one whose [source_amp] is the
    float [-1.0], and [True] on one with [point_amp = [1.0, 0.3]]. *)
Theorem check_positive_flux_spec (kwargs_ps : list (gmap string value)) :
  (check_positive_flux kwargs_ps = false <->
   some_amplitude_element (fun x => negative x \/ not_a_number x) kwargs_ps) /\
  (~ some_amplitude_element (fun x => negative x \/ not_a_number x) kwargs_ps ->
   check_positive_flux kwargs_ps = true) /\
  ((forall kwargs, kwargs ∈ kwargs_ps ->
      kwargs !! "point_amp" = None /\ kwargs !! "source_amp" = None) ->
   check_positive_flux kwargs_ps = true) /\
  check_positive_flux [ {[ "point_amp" := Array [one; (- three_tenths)%float] ]} ] = false /\
  check_positive_flux [ {[ "source_amp" := Scalar (- one)%float ]} ] = false /\
  check_positive_flux [ {[ "point_amp" := Array [one; three_tenths] ]} ] = true.
Proof.
  assert (Hpos : ~ some_amplitude_element (fun x => negative x \/ not_a_number x) kwargs_ps ->
                 check_positive_flux kwargs_ps = true).
  { intros Hn. destruct (check_positive_flux kwargs_ps) eqn:E; [reflexivity |].
    exfalso. apply Hn, check_positive_flux_false, E. }
  split; [apply check_positive_flux_false |]. split; [exact Hpos |].
  split; [| repeat split; reflexivity].
  intros Hnone. apply Hpos.
  intros (kw & key & v & x & Hin & [-> | ->] & Hlk & _);
    destruct (Hnone kw Hin); congruence.
Qed.

(** A list of one dictionary, which holds [point_amp] only. *)
Definition point_amp_only (point_amp : list float) : list (gmap string value) :=
  [ {[ "point_amp" := Array point_amp ]} ].

Lemma check_positive_flux_spec_witness :
  ~ some_amplitude_element (fun x => negative x \/ not_a_number x)
      (point_amp_only [one; three_tenths]) /\
  check_positive_flux (point_amp_only [one; three_tenths]) = true.
Proof.
  assert (Hn : ~ some_amplitude_element (fun x => negative x \/ not_a_number x)
                 (point_amp_only [one; three_tenths])).
  { intros H.
    apply (proj1 (check_positive_flux_spec (point_amp_only [one; three_tenths]))) in H.
    discriminate H. }
  split; [exact Hn |].
  exact (proj1 (proj2 (check_positive_flux_spec (point_amp_only [one; three_tenths]))) Hn).
Defined.

(** C8 as it was stated fails on a NaN.  For an entry with
    [point_amp = [nan]] the method returns [False], and no element of a
    ['point_amp'] or ['source_amp'] value is negative. *)
Lemma check_positive_flux_nan :
  check_positive_flux (point_amp_only [nan]) = false /\
  ~ some_amplitude_element negative (point_amp_only [nan]) /\
  ~ (check_positive_flux (point_amp_only [nan]) = false <->
     some_amplitude_element negative (point_amp_only [nan])).
Proof.
  assert (Hn : ~ some_amplitude_element negative (point_amp_only [nan])).
  { intros (kw & key & v & x & Hin & Hkey & Hlk & Hel & Hx).
    apply list_elem_of_singleton in Hin as ->.
    destruct Hkey as [-> | ->]; vm_compute in Hlk; [| discriminate Hlk].
    injection Hlk as <-. inversion Hel as [| a Hin Ha]; subst.
    apply list_elem_of_singleton in Hin as ->.
    discriminate Hx. }
  split; [reflexivity |]. split; [exact Hn |].
  intros [H _]. apply Hn, H. reflexivity.
Qed.

End PositiveFluxSpec.

(** * Linear-parameter bookkeeping (C4, C10, C1, C9) *)

Module LinearSpec.

Import PointSourceModel.
Import PointSourceSpec.
Local Open Scope string_scope.
Local Open Scope list_scope.

(** The number of linear parameters of one source. *)
Definition basis_count (flux fixed : bool) (n_images : nat) : nat :=
  if flux then if fixed then 1 else n_images else 0.

(** The sum of [basis_count] over the sources, in declaration order;
    [counts] are the numbers of images per source. *)
Fixpoint basis_total (flux fixed : list bool) (counts : list nat) : nat :=
  match flux, fixed, counts with
  | f :: flux', x :: fixed', c :: counts' =>
      basis_count f x c + basis_total flux' fixed' counts'
  | _, _, _ => 0
  end.

(** ** Writes into dictionaries *)

(** One assignment [d[key] = v] to the dictionary object [r]. *)
Definition write : Type := ref * string * value.

Definition target (w : write) : ref * string := (w.1.1, w.1.2).

Definition apply_write (d : gmap positive (gmap string value)) (w : write)
  : gmap positive (gmap string value) :=
  match d !! w.1.1 with
  | Some kw => <[w.1.1 := <[w.1.2 := w.2]> kw]> d
  | None => d
  end.

(** A sequence of assignments, carried out from left to right. *)
Definition apply_writes (ws : list write) (d : gmap positive (gmap string value))
  : gmap positive (gmap string value) :=
  foldl apply_write d ws.

(** [d[key]] of the dictionary object [r], when both exist. *)
Definition read (d : gmap positive (gmap string value)) (r : ref) (key : string)
  : option value :=
  match d !! r with
  | Some kw => kw !! key
  | None => None
  end.

Lemma dict_setitem_Ok (h h' : heap) (r : ref) (key : string) (v : value) :
  dict_setitem h r key v = Ok h' <->
  is_Some (dicts h !! r) /\ h' = Heap (apply_write (dicts h) (r, key, v)) (lists h).
Proof.
  unfold dict_setitem, apply_write. simpl.
  destruct (dicts h !! r) as [kw |]; split.
  - intros H. inversion H. split; [eauto | reflexivity].
  - intros [_ ->]. reflexivity.
  - discriminate.
  - intros [[x Hx] _]. discriminate.
Qed.

Lemma apply_write_is_Some d w r : is_Some (apply_write d w !! r) <-> is_Some (d !! r).
Proof.
  destruct w as [[r0 k0] v0]. unfold apply_write. simpl.
  destruct (d !! r0) as [kw |] eqn:E; [| reflexivity].
  destruct (decide (r0 = r)) as [-> | Hne].
  - rewrite lookup_insert_eq, E. split; eauto.
  - now rewrite lookup_insert_ne.
Qed.

Lemma apply_writes_is_Some ws d r : is_Some (apply_writes ws d !! r) <-> is_Some (d !! r).
Proof.
  revert d. induction ws as [| w ws IH]; intros d; simpl; [reflexivity |].
  unfold apply_writes in *. simpl. now rewrite IH, apply_write_is_Some.
Qed.

Lemma apply_write_other_ref d w r : w.1.1 <> r -> apply_write d w !! r = d !! r.
Proof.
  destruct w as [[r0 k0] v0]. simpl. intros Hne. unfold apply_write. simpl.
  destruct (d !! r0); [| reflexivity]. now rewrite lookup_insert_ne.
Qed.

Lemma apply_write_same_ref d w kw :
  d !! w.1.1 = Some kw -> apply_write d w !! w.1.1 = Some (<[w.1.2 := w.2]> kw).
Proof.
  destruct w as [[r0 k0] v0]. simpl. intros E. unfold apply_write. simpl.
  rewrite E. apply lookup_insert_eq.
Qed.

Lemma read_apply_write_ne d w r key :
  target w <> (r, key) -> read (apply_write d w) r key = read d r key.
Proof.
  intros Hne. unfold read. destruct (decide (w.1.1 = r)) as [Hr | Hr].
  - subst r. destruct (d !! w.1.1) as [kw |] eqn:E.
    + rewrite (apply_write_same_ref _ _ _ E). apply lookup_insert_ne.
      intros Hk. apply Hne. unfold target. now rewrite Hk.
    + destruct w as [[r0 k0] v0]. simpl in *. unfold apply_write. simpl.
      now rewrite E, E.
  - now rewrite apply_write_other_ref.
Qed.

Lemma read_apply_write_eq d w :
  is_Some (d !! w.1.1) -> read (apply_write d w) w.1.1 w.1.2 = Some w.2.
Proof.
  intros [kw E]. unfold read. rewrite (apply_write_same_ref _ _ _ E).
  apply lookup_insert_eq.
Qed.

(** Frame: a key of a dictionary that no assignment targets keeps its
    value. *)
Lemma read_apply_writes_frame ws d r key :
  (r, key) ∉ target <$> ws -> read (apply_writes ws d) r key = read d r key.
Proof.
  revert d. induction ws as [| w ws IH]; intros d Hn; [reflexivity |].
  rewrite fmap_cons in Hn. apply not_elem_of_cons in Hn as [Hne Hn].
  unfold apply_writes in *. simpl. rewrite IH by exact Hn.
  apply read_apply_write_ne. congruence.
Qed.

(** Frame: a dictionary that no assignment targets is unchanged. *)
Lemma apply_writes_other_ref ws d r :
  r ∉ ((fun w : write => w.1.1) <$> ws) -> apply_writes ws d !! r = d !! r.
Proof.
  revert d. induction ws as [| w ws IH]; intros d Hn; [reflexivity |].
  rewrite fmap_cons in Hn. apply not_elem_of_cons in Hn as [Hne Hn].
  unfold apply_writes in *. simpl. rewrite IH by exact Hn.
  apply apply_write_other_ref. congruence.
Qed.

(** When no two assignments have the same target, each assigned value is
    there at the end. *)
Lemma read_apply_writes_NoDup ws d w :
  NoDup (target <$> ws) -> w ∈ ws -> is_Some (d !! w.1.1) ->
  read (apply_writes ws d) w.1.1 w.1.2 = Some w.2.
Proof.
  revert d. induction ws as [| w0 ws IH]; intros d Hnd Hin Hv.
  - now apply elem_of_nil in Hin.
  - rewrite fmap_cons in Hnd. apply NoDup_cons in Hnd as [Hfresh Hnd].
    unfold apply_writes in *. simpl.
    apply elem_of_cons in Hin as [-> | Hin].
    + change (foldl apply_write (apply_write d w0) ws)
        with (apply_writes ws (apply_write d w0)).
      rewrite read_apply_writes_frame by exact Hfresh.
      now apply read_apply_write_eq.
    + apply IH; [exact Hnd | exact Hin |]. now apply apply_write_is_Some.
Qed.

(** With one assignment per dictionary, the dictionary at the end is the
    old one with the one key set. *)
Lemma apply_writes_single ws d w kw :
  NoDup (((fun w : write => w.1.1) <$> ws)) -> w ∈ ws -> d !! w.1.1 = Some kw ->
  apply_writes ws d !! w.1.1 = Some (<[w.1.2 := w.2]> kw).
Proof.
  revert d. induction ws as [| w0 ws IH]; intros d Hnd Hin Hv.
  - now apply elem_of_nil in Hin.
  - rewrite fmap_cons in Hnd. apply NoDup_cons in Hnd as [Hfresh Hnd].
    unfold apply_writes in *. simpl.
    apply elem_of_cons in Hin as [-> | Hin].
    + change (foldl apply_write (apply_write d w0) ws)
        with (apply_writes ws (apply_write d w0)).
      rewrite apply_writes_other_ref by exact Hfresh.
      now apply apply_write_same_ref.
    + apply IH; [exact Hnd | exact Hin |].
      rewrite apply_write_other_ref; [exact Hv |].
      intros E. apply Hfresh. rewrite E.
      apply (list_elem_of_fmap_2 (fun w : write => w.1.1)). exact Hin.
Qed.

(** The assignments of [update_linear], in the order of the sources: a
    flux-enabled source with fixed magnification gets [source_amp =
    param[i]], any other flux-enabled source [point_amp = param[i : i + c]]
    with [c] its number of images; [i] then advances by what was used. *)
Fixpoint linear_writes (param : list Q) (flux fixed : list bool) (entries : list ref)
         (counts : list nat) (i : nat) : list write :=
  match flux, fixed, entries, counts with
  | f :: flux', x :: fixed', r :: entries', c :: counts' =>
      if f then
        if x then
          match param !! i with
          | Some p => (r, "source_amp", Scalar p)
                        :: linear_writes param flux' fixed' entries' counts' (i + 1)
          | None => []
          end
        else (r, "point_amp", Array (take c (drop i param)))
               :: linear_writes param flux' fixed' entries' counts' (i + c)
      else linear_writes param flux' fixed' entries' counts' i
  | _, _, _, _ => []
  end.

(** The values that [linear_param_from_kwargs] collects from what
    [update_linear] assigned. *)
Definition written_values (w : write) : list value :=
  match w.2 with
  | Scalar p => [Scalar p]
  | Array a => map Scalar a
  end.

(** Every assignment of [update_linear] goes to the dictionary of a
    flux-enabled source, under the key of its magnification mode. *)
Lemma linear_writes_sources param flux fixed entries counts :
  forall i w, w ∈ linear_writes param flux fixed entries counts i ->
  exists k x, entries !! k = Some w.1.1 /\ flux !! k = Some true /\
              fixed !! k = Some x /\
              w.1.2 = (if x : bool then "source_amp" else "point_amp").
Proof.
  revert fixed entries counts.
  induction flux as [| f flux IH]; intros [| x fixed] [| r entries] [| c counts] i w Hw;
    simpl in Hw; try (now apply elem_of_nil in Hw).
  assert (Hrec : forall i', w ∈ linear_writes param flux fixed entries counts i' ->
            exists k x', (r :: entries) !! k = Some w.1.1 /\ (f :: flux) !! k = Some true /\
                         (x :: fixed) !! k = Some x' /\
                         w.1.2 = (if x' : bool then "source_amp" else "point_amp")).
  { intros i' H. destruct (IH _ _ _ _ _ H) as (k & x' & ? & ? & ? & ?).
    now exists (S k), x'. }
  destruct f; [| now apply Hrec in Hw].
  destruct x.
  - destruct (param !! i) as [p |]; [| now apply elem_of_nil in Hw].
    apply elem_of_cons in Hw as [-> | Hw]; [| now apply Hrec in Hw].
    now exists 0%nat, true.
  - apply elem_of_cons in Hw as [-> | Hw]; [| now apply Hrec in Hw].
    now exists 0%nat, false.
Qed.

(** The dictionaries assigned to are among the entries, in order. *)
Lemma linear_writes_sublist param flux fixed entries counts :
  forall i, ((fun w : write => w.1.1) <$> linear_writes param flux fixed entries counts i)
              `sublist_of` take (length flux) entries.
Proof.
  revert fixed entries counts.
  induction flux as [| f flux IH]; intros [| x fixed] [| r entries] [| c counts] i;
    simpl; try apply sublist_nil_l.
  destruct f; [| apply sublist_cons, IH].
  destruct x.
  - destruct (param !! i); [| apply sublist_nil_l].
    rewrite fmap_cons. simpl. apply sublist_skip, IH.
  - rewrite fmap_cons. simpl. apply sublist_skip, IH.
Qed.

Lemma linear_writes_NoDup param flux fixed entries counts i :
  NoDup (take (length flux) entries) ->
  NoDup ((fun w : write => w.1.1) <$> linear_writes param flux fixed entries counts i) /\
  NoDup (target <$> linear_writes param flux fixed entries counts i).
Proof.
  intros Hnd.
  assert (H : NoDup ((fun w : write => w.1.1)
                       <$> linear_writes param flux fixed entries counts i)).
  { eapply sublist_NoDup; [exact Hnd | apply linear_writes_sublist]. }
  split; [exact H |].
  apply (NoDup_fmap_1 fst). rewrite <- list_fmap_compose. exact H.
Qed.

Section Methods.

Context {LensModel LensKwargs : Type}.

Variable model_image_position :
  PointSourceCached LensModel -> gmap string value -> LensKwargs -> option Q ->
  gmap string Q -> bool -> result (list Q * list Q).

Variable self : PointSource LensModel.

(** The object's per-source lists have one entry per declared source, as
    [__init__] leaves them when the optional lists are supplied with the
    documented length. *)
Definition consistent : Prop :=
  length (_flux_from_point_source_list self) = length (point_source_type_list self) /\
  length (_fixed_magnification_list self) = length (point_source_type_list self) /\
  length (_point_source_list self) = length (point_source_type_list self).

Abbreviation flux_list := (_flux_from_point_source_list self).
Abbreviation fixed_list := (_fixed_magnification_list self).

(** *** [image_position] with its default arguments *)

Lemma image_position_loop_length h entries kwargs_lens orig addl models :
  forall i xl yl xs ys,
  image_position_loop model_image_position self h entries kwargs_lens None orig addl
                      models i xl yl = Ok (xs, ys) ->
  length xs = (length xl + length models)%nat /\
  (forall j, (j < length models)%nat ->
     exists r, entries !! (i + j)%nat = Some r /\ is_Some (dicts h !! r)).
Proof.
  induction models as [| m models IH]; intros i xl yl xs ys H; simpl in H.
  - inversion H; subst. split; [simpl; lia |]. intros j Hj. simpl in Hj. lia.
  - apply rbind_Ok in H as (r & Hr & H). apply getitem_Ok in Hr.
    apply rbind_Ok in H as (kw & Hkw & H).
    apply rbind_Ok in H as ([x y] & _ & H).
    apply rbind_Ok in H as ([x' y'] & _ & H).
    apply IH in H as [Hlen Hent]. rewrite length_app in Hlen. simpl in Hlen.
    split; [simpl; lia |].
    intros [| j] Hj.
    + exists r. rewrite Nat.add_0_r. split; [exact Hr |].
      unfold load_dict in Hkw. destruct (dicts h !! r); [eauto | discriminate].
    + destruct (Hent j) as (r' & Hr' & Hv); [simpl in Hj; lia |].
      exists r'. split; [| exact Hv].
      now replace (i + S j)%nat with (S i + j)%nat by lia.
Qed.

(** When [image_position] returns, it returns one array per source, the
    list [kwargs_ps] exists and holds a dictionary for every source. *)
Lemma image_position_returns h kwargs_ps kwargs_lens xs ys :
  image_position model_image_position self h kwargs_ps kwargs_lens None false false
  = Ok (xs, ys) ->
  exists entries, lists h !! kwargs_ps = Some entries /\
    length xs = length (_point_source_list self) /\
    (forall j, (j < length (_point_source_list self))%nat ->
       exists r, entries !! j = Some r /\ is_Some (dicts h !! r)).
Proof.
  unfold image_position. intros H.
  apply rbind_Ok in H as (entries & He & H).
  unfold load_list in He. destruct (lists h !! kwargs_ps) as [l |] eqn:El; [| discriminate].
  inversion He; subst l.
  apply image_position_loop_length in H as [Hlen Hent].
  exists entries. split; [reflexivity |]. split; [exact Hlen |]. exact Hent.
Qed.

(** *** [num_basis] *)

Lemma num_basis_loop_spec (ra_pos_list : list (list Q)) (models : list string) :
  forall i n,
  (i + length models)%nat = length flux_list ->
  (i + length models)%nat = length fixed_list ->
  (i + length models)%nat = length ra_pos_list ->
  num_basis_loop self ra_pos_list models i n
  = Ok (n + basis_total (drop i flux_list) (drop i fixed_list)
                        (map length (drop i ra_pos_list)))%nat.
Proof.
  induction models as [| m models IH]; intros i n Hf Hx Hr; simpl in *.
  - rewrite !drop_ge by lia. simpl. now rewrite Nat.add_0_r.
  - destruct (getitem_lt flux_list i) as (f & Ef & Lf); [lia |].
    destruct (getitem_lt fixed_list i) as (x & Ex & Lx); [lia |].
    destruct (getitem_lt ra_pos_list i) as (ra & Er & Lr); [lia |].
    rewrite (drop_S _ _ _ Lf), (drop_S _ _ _ Lx), (drop_S _ _ _ Lr). simpl.
    rewrite Ef. simpl. destruct f; simpl.
    + rewrite Ex. simpl. destruct x; simpl.
      * rewrite IH by lia. f_equal. lia.
      * rewrite Er. simpl. rewrite IH by lia. f_equal. lia.
    + rewrite IH by lia. reflexivity.
Qed.

(** C4.  When [image_position] returns the positions [xs] (one array per
    source), [num_basis] returns the sum over the declared sources, in
    declaration order, of: 0 if the source's [flux_from_point_source] flag
    is [False]; else 1 if its [fixed_magnification] flag is [True]; else
    the number of image positions returned for that source. *)
Theorem num_basis_spec (h : heap) (kwargs_ps : ref) (kwargs_lens : LensKwargs)
        (xs ys : list (list Q)) :
  consistent ->
  image_position model_image_position self h kwargs_ps kwargs_lens None false false
  = Ok (xs, ys) ->
  num_basis model_image_position self h kwargs_ps kwargs_lens
  = Ok (basis_total flux_list fixed_list (map length xs)).
Proof.
  intros (Hf & Hx & Hm) Hip. unfold num_basis. rewrite Hip. simpl.
  apply image_position_returns in Hip as (entries & _ & Hlen & _).
  rewrite num_basis_loop_spec by (simpl; lia).
  now rewrite !drop_0.
Qed.

(** *** [update_linear] *)

Lemma update_linear_loop_index param entries (ra : list (list Q))
      (models : list (PointSourceCached LensModel)) :
  forall k i h j h',
  (k + length models)%nat = length flux_list ->
  (k + length models)%nat = length fixed_list ->
  (k + length models)%nat = length ra ->
  update_linear_loop self param entries ra models k i h = Ok (j, h') ->
  j = (i + basis_total (drop k flux_list) (drop k fixed_list)
                       (map length (drop k ra)))%nat.
Proof.
  induction models as [| m models IH]; intros k i h j h' Hf Hx Hr H; simpl in *.
  - inversion H; subst. rewrite !drop_ge by lia. simpl. lia.
  - destruct (getitem_lt flux_list k) as (f & Ef & Lf); [lia |].
    destruct (getitem_lt fixed_list k) as (x & Ex & Lx); [lia |].
    destruct (getitem_lt ra k) as (c & Ec & Lc); [lia |].
    rewrite (drop_S _ _ _ Lf), (drop_S _ _ _ Lx), (drop_S _ _ _ Lc). simpl.
    rewrite Ef in H. simpl in H. destruct f; simpl in *.
    + apply rbind_Ok in H as (r & _ & H). rewrite Ex in H. simpl in H.
      destruct x; simpl in *.
      * apply rbind_Ok in H as (p & _ & H). apply rbind_Ok in H as (h1 & _ & H).
        apply IH in H; lia.
      * rewrite Ec in H. simpl in H. apply rbind_Ok in H as (h1 & _ & H).
        apply IH in H; lia.
    + apply IH in H; lia.
Qed.

Lemma update_linear_loop_spec param entries (ra : list (list Q))
      (models : list (PointSourceCached LensModel)) :
  forall k i h,
  (k + length models)%nat = length flux_list ->
  (k + length models)%nat = length fixed_list ->
  (k + length models)%nat = length ra ->
  (forall j, (j < length models)%nat ->
     exists r, entries !! (k + j)%nat = Some r /\ is_Some (dicts h !! r)) ->
  (i + basis_total (drop k flux_list) (drop k fixed_list) (map length (drop k ra))
   <= length param)%nat ->
  update_linear_loop self param entries ra models k i h
  = Ok ((i + basis_total (drop k flux_list) (drop k fixed_list)
                         (map length (drop k ra)))%nat,
        Heap (apply_writes
                (linear_writes param (drop k flux_list) (drop k fixed_list)
                               (drop k entries) (map length (drop k ra)) i)
                (dicts h))
             (lists h)).
Proof.
  induction models as [| m models IH]; intros k i h Hf Hx Hr Hent Hp; simpl in *.
  - rewrite (drop_ge flux_list) by lia. simpl. rewrite Nat.add_0_r.
    now destruct h.
  - destruct (getitem_lt flux_list k) as (f & Ef & Lf); [lia |].
    destruct (getitem_lt fixed_list k) as (x & Ex & Lx); [lia |].
    destruct (getitem_lt ra k) as (c & Ec & Lc); [lia |].
    destruct (Hent 0%nat) as (r & Lr & Hv); [lia |].
    rewrite Nat.add_0_r in Lr.
    assert (Hent' : forall d' : gmap positive (gmap string value),
              (forall r', is_Some (d' !! r') <-> is_Some (dicts h !! r')) ->
              forall j, (j < length models)%nat ->
              exists r', entries !! (S k + j)%nat = Some r' /\ is_Some (d' !! r')).
    { intros d' Hd' j Hj. destruct (Hent (S j)) as (r' & Hr' & Hv'); [lia |].
      exists r'. split; [now replace (S k + j)%nat with (k + S j)%nat by lia |].
      now apply Hd'. }
    rewrite (drop_S _ _ _ Lf), (drop_S _ _ _ Lx), (drop_S _ _ _ Lc),
      (drop_S _ _ _ Lr) in *.
    simpl in *. rewrite Ef. simpl. destruct f; simpl in *.
    + assert (Er : getitem entries k = Ok r) by now apply getitem_Ok.
      rewrite Er. simpl. rewrite Ex. simpl. destruct x; simpl in *.
      * destruct (getitem_lt param i) as (p & Ep & Lp); [lia |].
        rewrite Ep, Lp. simpl.
        rewrite (proj2 (dict_setitem_Ok h _ r "source_amp" (Scalar p))
                       (conj Hv eq_refl)).
        simpl. rewrite IH; simpl; try lia.
        -- f_equal. f_equal. lia.
        -- apply Hent'. intros r'. apply apply_write_is_Some.
      * rewrite Ec. simpl.
        rewrite (proj2 (dict_setitem_Ok h _ r "point_amp"
                          (Array (take (length c) (drop i param))))
                       (conj Hv eq_refl)).
        simpl. rewrite IH; simpl; try lia.
        -- f_equal. f_equal. lia.
        -- apply Hent'. intros r'. apply apply_write_is_Some.
    + rewrite IH; simpl; try lia; [reflexivity |].
      apply Hent'. reflexivity.
Qed.

(** *** [linear_param_from_kwargs] after [update_linear] *)

Lemma linear_param_loop_spec (h' : heap) param entries (ra : list (list Q))
      (models : list (PointSourceCached LensModel)) :
  forall k i acc,
  (k + length models)%nat = length flux_list ->
  (k + length models)%nat = length fixed_list ->
  (k + length models)%nat = length ra ->
  (forall j, (j < length models)%nat -> is_Some (entries !! (k + j)%nat)) ->
  (i + basis_total (drop k flux_list) (drop k fixed_list) (map length (drop k ra))
   <= length param)%nat ->
  (forall w, w ∈ linear_writes param (drop k flux_list) (drop k fixed_list)
                               (drop k entries) (map length (drop k ra)) i ->
             read (dicts h') w.1.1 w.1.2 = Some w.2) ->
  linear_param_loop self h' entries models k acc
  = Ok (acc ++ map Scalar
                 (take (basis_total (drop k flux_list) (drop k fixed_list)
                                    (map length (drop k ra)))
                       (drop i param))).
Proof.
  induction models as [| m models IH]; intros k i acc Hf Hx Hr Hent Hp Hw; simpl in *.
  - rewrite (drop_ge flux_list) by lia. simpl. now rewrite app_nil_r.
  - destruct (getitem_lt flux_list k) as (f & Ef & Lf); [lia |].
    destruct (getitem_lt fixed_list k) as (x & Ex & Lx); [lia |].
    destruct (getitem_lt ra k) as (c & Ec & Lc); [lia |].
    destruct (Hent 0%nat) as (r & Lr); [lia |].
    rewrite Nat.add_0_r in Lr.
    assert (Hent' : forall j, (j < length models)%nat -> is_Some (entries !! (S k + j)%nat)).
    { intros j Hj. replace (S k + j)%nat with (k + S j)%nat by lia. apply Hent. lia. }
    rewrite (drop_S _ _ _ Lf), (drop_S _ _ _ Lx), (drop_S _ _ _ Lc),
      (drop_S _ _ _ Lr) in *.
    simpl in *. rewrite Ef. simpl. destruct f; simpl in *.
    + assert (Er : getitem entries k = Ok r) by now apply getitem_Ok.
      rewrite Er. simpl. destruct x; simpl in *.
      * destruct (getitem_lt param i) as (p & Ep & Lp); [lia |].
        rewrite Lp in Hw.
        pose proof (Hw _ (list_elem_of_here _ _)) as Hread. simpl in Hread.
        unfold read in Hread. unfold load_dict.
        destruct (dicts h' !! r) as [kw |]; [| discriminate]. simpl.
        rewrite Ex. simpl. unfold dict_getitem. rewrite Hread. simpl.
        rewrite (IH (S k) (i + 1)%nat); try assumption; try lia.
        -- rewrite (drop_S _ _ _ Lp). simpl. rewrite <- app_assoc. simpl.
           now replace (i + 1)%nat with (S i) by lia.
        -- intros w Hin. apply Hw. now right.
      * pose proof (Hw _ (list_elem_of_here _ _)) as Hread. simpl in Hread.
        unfold read in Hread. unfold load_dict.
        destruct (dicts h' !! r) as [kw |]; [| discriminate]. simpl.
        rewrite Ex. simpl. unfold dict_getitem. rewrite Hread. simpl.
        rewrite (IH (S k) (i + length c)%nat); try assumption; try lia.
        -- rewrite <- app_assoc, <- map_app. do 3 f_equal.
           rewrite <- take_take_drop. f_equal. now rewrite drop_drop.
        -- intros w Hin. apply Hw. now right.
    + apply (IH (S k) i); try assumption; lia.
Qed.

(** What [update_linear] does when [image_position] has returned [xs]
    and [param] is long enough: it returns its argument [kwargs_ps], the
    index advanced by the number of parameters, and the heap in which the
    assignments [linear_writes] have been carried out. *)
Lemma update_linear_returns (h : heap) (kwargs_ps : ref) (kwargs_lens : LensKwargs)
      (param : list Q) (i : nat) (xs ys : list (list Q)) (entries : list ref) :
  consistent ->
  image_position model_image_position self h kwargs_ps kwargs_lens None false false
  = Ok (xs, ys) ->
  lists h !! kwargs_ps = Some entries ->
  (i + basis_total flux_list fixed_list (map length xs) <= length param)%nat ->
  update_linear model_image_position self param i kwargs_ps kwargs_lens h
  = Ok (kwargs_ps, (i + basis_total flux_list fixed_list (map length xs))%nat,
        Heap (apply_writes (linear_writes param flux_list fixed_list entries
                                          (map length xs) i) (dicts h))
             (lists h)).
Proof.
  intros (Hf & Hx & Hm) Hip Hl Hp. unfold update_linear. rewrite Hip. simpl.
  apply image_position_returns in Hip as (entries' & Hl' & Hlen & Hent).
  rewrite Hl in Hl'. inversion Hl'; subst entries'.
  unfold load_list. rewrite Hl. simpl.
  rewrite update_linear_loop_spec; simpl; rewrite ?drop_0; try lia; try assumption.
  reflexivity.
Qed.

Lemma update_linear_inv (h h' : heap) (kwargs_ps r : ref) (kwargs_lens : LensKwargs)
      (param : list Q) (i j : nat) (xs ys : list (list Q)) :
  consistent ->
  image_position model_image_position self h kwargs_ps kwargs_lens None false false
  = Ok (xs, ys) ->
  update_linear model_image_position self param i kwargs_ps kwargs_lens h = Ok (r, j, h') ->
  r = kwargs_ps /\ j = (i + basis_total flux_list fixed_list (map length xs))%nat.
Proof.
  intros (Hf & Hx & Hm) Hip H. unfold update_linear in H. rewrite Hip in H. simpl in H.
  apply image_position_returns in Hip as (entries' & Hl' & Hlen & Hent).
  apply rbind_Ok in H as (entries & _ & H).
  apply rbind_Ok in H as ([j' h1] & Hloop & H). inversion H; subst.
  split; [reflexivity |].
  apply update_linear_loop_index in Hloop; simpl; try lia.
  now rewrite !drop_0 in Hloop.
Qed.

(** C10 (amended).  [update_linear] works in place: it returns the very
    list object [kwargs_ps] it was given and creates no object; the list
    object itself is unchanged.  Every assignment it makes goes to the
    dictionary of a flux-enabled source, under [source_amp] when the
    magnification of the source is fixed and under [point_amp] otherwise;
    every other key of every dictionary, and every dictionary that is not
    the dictionary of a flux-enabled source, is left as it was.  When the
    entries of [kwargs_ps] are distinct objects, each flux-enabled entry
    is afterwards its old dictionary with the one key set to the new
    amplitude, and each flux-disabled entry is untouched. *)
Theorem update_linear_in_place (h : heap) (kwargs_ps : ref) (kwargs_lens : LensKwargs)
        (param : list Q) (i : nat) (xs ys : list (list Q)) (entries : list ref) :
  consistent ->
  image_position model_image_position self h kwargs_ps kwargs_lens None false false
  = Ok (xs, ys) ->
  lists h !! kwargs_ps = Some entries ->
  (i + basis_total flux_list fixed_list (map length xs) <= length param)%nat ->
  let ws := linear_writes param flux_list fixed_list entries (map length xs) i in
  exists h',
    update_linear model_image_position self param i kwargs_ps kwargs_lens h
    = Ok (kwargs_ps, (i + basis_total flux_list fixed_list (map length xs))%nat, h') /\
    lists h' = lists h /\
    (forall r, is_Some (dicts h' !! r) <-> is_Some (dicts h !! r)) /\
    (forall w, w ∈ ws ->
       exists k x, entries !! k = Some w.1.1 /\ flux_list !! k = Some true /\
                   fixed_list !! k = Some x /\
                   w.1.2 = (if x : bool then "source_amp" else "point_amp")) /\
    (forall r key, (r, key) ∉ target <$> ws ->
       read (dicts h') r key = read (dicts h) r key) /\
    (forall r, r ∉ (fun w : write => w.1.1) <$> ws -> dicts h' !! r = dicts h !! r) /\
    (NoDup (take (length flux_list) entries) ->
       (forall w, w ∈ ws ->
          exists kw, dicts h !! w.1.1 = Some kw /\
                     dicts h' !! w.1.1 = Some (<[w.1.2 := w.2]> kw)) /\
       (forall k r, entries !! k = Some r -> flux_list !! k = Some false ->
          dicts h' !! r = dicts h !! r)).
Proof.
  intros Hc Hip Hl Hp ws.
  eexists. split; [exact (update_linear_returns _ _ _ _ _ xs ys _ Hc Hip Hl Hp) |]. simpl.
  fold ws.
  assert (Hsrc : forall w, w ∈ ws ->
       exists k x, entries !! k = Some w.1.1 /\ flux_list !! k = Some true /\
                   fixed_list !! k = Some x /\
                   w.1.2 = (if x : bool then "source_amp" else "point_amp")).
  { intros w Hw. eapply linear_writes_sources. exact Hw. }
  split; [reflexivity |].
  split; [intros r; apply apply_writes_is_Some |].
  split; [exact Hsrc |].
  split; [intros r key; apply read_apply_writes_frame |].
  split; [intros r; apply apply_writes_other_ref |].
  intros Hnd.
  destruct (linear_writes_NoDup param flux_list fixed_list entries (map length xs) i Hnd)
    as [Hrefs _].
  fold ws in Hrefs.
  apply image_position_returns in Hip as (entries' & Hl' & Hlen & Hent).
  rewrite Hl in Hl'. inversion Hl'; subst entries'.
  destruct Hc as (Hf & Hx & Hm).
  split.
  - intros w Hw. destruct (Hsrc w Hw) as (k & x & Hk & Hfl & _).
    apply lookup_lt_Some in Hfl as Hlt.
    destruct (Hent k) as (r & Hr & [kw Hkw]); [lia |].
    rewrite Hk in Hr. inversion Hr; subst r.
    exists kw. split; [exact Hkw |]. now apply apply_writes_single.
  - intros k r Hk Hfl. apply apply_writes_other_ref.
    intros Hin. apply list_elem_of_fmap in Hin as (w & -> & Hw).
    destruct (Hsrc w Hw) as (k' & x & Hk' & Hfl' & _).
    apply lookup_lt_Some in Hfl as Hlt. apply lookup_lt_Some in Hfl' as Hlt'.
    assert (k = k').
    { eapply NoDup_lookup; [exact Hnd | |];
        rewrite lookup_take_lt by assumption; eassumption. }
    subst k'. congruence.
Qed.

(** C1 (amended).  When [update_linear(param, i, kwargs_ps, kwargs_lens)]
    returns [(kwargs_ps', j)], with [param] of length at least [j], and
    no two of its assignments went to the same key of the same dictionary
    object (as is the case when the entries of [kwargs_ps] are distinct
    objects), then [linear_param_from_kwargs(kwargs_ps')] returns the
    slice [param[i : j]], element for element, and [j - i] is the sum over
    the flux-enabled sources of 1 for a fixed magnification and of the
    number of images otherwise. *)
Theorem linear_round_trip (h h' : heap) (kwargs_ps r : ref) (kwargs_lens : LensKwargs)
        (param : list Q) (i j : nat) (xs ys : list (list Q)) (entries : list ref) :
  consistent ->
  image_position model_image_position self h kwargs_ps kwargs_lens None false false
  = Ok (xs, ys) ->
  lists h !! kwargs_ps = Some entries ->
  update_linear model_image_position self param i kwargs_ps kwargs_lens h = Ok (r, j, h') ->
  (j <= length param)%nat ->
  NoDup (target <$> linear_writes param flux_list fixed_list entries (map length xs) i) ->
  linear_param_from_kwargs self h' r = Ok (map Scalar (take (j - i) (drop i param))) /\
  (j - i)%nat = basis_total flux_list fixed_list (map length xs) /\
  (i <= j)%nat.
Proof.
  intros Hc Hip Hl Hup Hj Hnd.
  destruct (update_linear_inv _ _ _ _ _ _ _ _ _ _ Hc Hip Hup) as [-> ->].
  rewrite (update_linear_returns _ _ _ _ _ _ _ _ Hc Hip Hl Hj) in Hup.
  inversion Hup; subst h'. clear Hup.
  split; [| split; lia].
  replace (i + basis_total flux_list fixed_list (map length xs) - i)%nat
    with (basis_total flux_list fixed_list (map length xs)) by lia.
  apply image_position_returns in Hip as (entries' & Hl' & Hlen & Hent).
  rewrite Hl in Hl'. inversion Hl'; subst entries'.
  destruct Hc as (Hf & Hx & Hm).
  unfold linear_param_from_kwargs, load_list. simpl. rewrite Hl. simpl.
  rewrite (linear_param_loop_spec _ param entries xs _ 0 i []); simpl;
    rewrite ?drop_0; try lia; try reflexivity.
  - intros k Hk. destruct (Hent k Hk) as (r & -> & _). eauto.
  - intros w Hw. apply read_apply_writes_NoDup; [exact Hnd | exact Hw |].
    destruct (linear_writes_sources _ _ _ _ _ _ _ Hw) as (k & x & Hk & Hfl & _).
    apply lookup_lt_Some in Hfl.
    destruct (Hent k) as (r & Hr & Hv); [lia |]. congruence.
Qed.

End Methods.

(** *** Distinct dictionaries *)

(** When the entries are distinct objects, no two assignments of
    [update_linear] have the same target. *)
Lemma distinct_entries_distinct_targets param flux fixed entries counts i :
  NoDup (take (length flux) entries) ->
  NoDup (target <$> linear_writes param flux fixed entries counts i).
Proof. intros H. now apply linear_writes_NoDup. Qed.

(** *** Objects built by [__init__] *)

(** An object that [__init__] returns, from optional lists of the
    documented length, has one flag, one wrapper and one supported type
    per source. *)
Lemma init_consistent {LensModel : Type}
      (LensedPositions_init :
         option LensModel -> bool -> bool -> option (list (list nat)) -> option (list nat) ->
         option Q -> result unit)
      (SourcePositions_init : option LensModel -> bool -> option Q -> result unit)
      (cfg : Config LensModel) (self : PointSource LensModel) :
  lengths_agree cfg ->
  (forall l, arg_flux_from_point_source_list cfg = Some l ->
             length l = length (arg_point_source_type_list cfg)) ->
  __init__ LensedPositions_init SourcePositions_init cfg = Ok self ->
  consistent self /\ Forall supported (point_source_type_list self).
Proof.
  intros Hwf Hflux Hinit.
  apply init_Ok_inv in Hinit as (_ & HF & Ht & Hk & _ & Hfx & Hfl).
  destruct Hwf as (Hfm & _).
  split; [| now rewrite Ht].
  unfold consistent. rewrite Ht, Hfx, Hfl.
  split; [now apply default_list_length |].
  split; [now apply default_list_length |].
  pose proof (f_equal length Hk) as Hlen. rewrite length_map in Hlen. exact Hlen.
Qed.

(** ** Two unlensed sources *)

(** Two unlensed sources with the given flux flags, every other optional
    argument left out. *)
Definition pair_config (flux : list bool) : Config unit :=
  {| arg_point_source_type_list := ["UNLENSED"; "UNLENSED"];
     arg_lens_model := None;
     arg_fixed_magnification_list := None;
     arg_additional_images_list := None;
     arg_flux_from_point_source_list := Some flux;
     arg_magnification_limit := None;
     arg_save_cache := false;
     arg_kwargs_lens_eqn_solver := None;
     arg_index_lens_model_list := None;
     arg_point_source_frame_list := None;
     arg_redshift_list := None |}.

(** The object [__init__] builds from [pair_config]. *)
Definition unlensed_pair (flux : list bool) : PointSource unit :=
  {| _index_lens_model_list := None;
     _point_source_frame_list := None;
     _lens_model := None;
     point_source_type_list := ["UNLENSED"; "UNLENSED"];
     _point_source_list :=
       [ {| cached_model := Unlensed; cached_save_cache := false |};
         {| cached_model := Unlensed; cached_save_cache := false |} ];
     _fixed_magnification_list := [false; false];
     _flux_from_point_source_list := flux;
     _redshift_list := [None; None];
     _kwargs_lens_eqn_solver := ∅;
     _magnification_limit := None;
     _save_cache := false |}.

Lemma unlensed_pair_init (flux : list bool) :
  __init__ lensed_returns source_returns (pair_config flux) = Ok (unlensed_pair flux).
Proof. reflexivity. Qed.

(** Wrapped models that report one image, at the origin, for every
    source. *)
Definition one_image (m : PointSourceCached unit) (kwargs : gmap string value)
           (kwargs_lens : unit) (magnification_limit : option Q)
           (solver : gmap string Q) (additional_images : bool)
  : result (list Q * list Q) :=
  Ok ([0%Q], [0%Q]).

(** [kwargs_ps = [d, d]]: one empty dictionary, held twice. *)
Definition shared_heap : heap :=
  Heap {[ 1%positive := ∅ ]} {[ 1%positive := [1%positive; 1%positive] ]}.

(** [kwargs_ps = [d1, d2]]: two empty dictionaries. *)
Definition distinct_heap : heap :=
  Heap {[ 1%positive := ∅; 2%positive := ∅ ]}
       {[ 1%positive := [1%positive; 2%positive] ]}.

Lemma unlensed_pair_consistent : consistent (unlensed_pair [true; true]).
Proof. repeat split. Qed.

Lemma num_basis_spec_witness :
  consistent (unlensed_pair [true; true]) /\
  num_basis one_image (unlensed_pair [true; true]) distinct_heap 1%positive tt = Ok 2%nat.
Proof.
  split; [exact unlensed_pair_consistent |].
  exact (num_basis_spec one_image (unlensed_pair [true; true]) distinct_heap 1%positive tt
           [[0%Q]; [0%Q]] [[0%Q]; [0%Q]] unlensed_pair_consistent eq_refl).
Defined.

(** C10 as stated fails when a dictionary is shared: with
    [kwargs_ps = [d, d]], the first source flux-enabled and the second
    not, the call writes [point_amp] into [d], which is also the entry of
    the flux-disabled source. *)
Lemma update_linear_modifies_shared_entry :
  exists h',
    update_linear one_image (unlensed_pair [true; false]) [5%Q] 0 1%positive tt shared_heap
    = Ok (1%positive, 1%nat, h') /\
    lists shared_heap !! 1%positive = Some [1%positive; 1%positive] /\
    _flux_from_point_source_list (unlensed_pair [true; false]) !! 1%nat = Some false /\
    dicts shared_heap !! 1%positive = Some ∅ /\
    dicts h' !! 1%positive = Some {[ "point_amp" := Array [5%Q] ]}.
Proof.
  eexists. split; [vm_compute; reflexivity |].
  repeat split; vm_compute; reflexivity.
Qed.

Lemma update_linear_in_place_witness :
  consistent (unlensed_pair [true; true]) /\
  exists h',
    update_linear one_image (unlensed_pair [true; true]) [5%Q; 7%Q] 0 1%positive tt
                  distinct_heap
    = Ok (1%positive, 2%nat, h') /\
    lists h' = lists distinct_heap.
Proof.
  split; [exact unlensed_pair_consistent |].
  destruct (update_linear_in_place one_image (unlensed_pair [true; true]) distinct_heap
              1%positive tt [5%Q; 7%Q] 0 [[0%Q]; [0%Q]] [[0%Q]; [0%Q]]
              [1%positive; 2%positive] unlensed_pair_consistent eq_refl eq_refl)
    as (h' & H1 & H2 & _).
  { simpl. lia. }
  exists h'. split; [exact H1 | exact H2].
Defined.

(** C1 as stated fails when a dictionary is shared: with
    [kwargs_ps = [d, d]] and [param = [1, 2]], [update_linear] returns
    with [j = 2], and [linear_param_from_kwargs] then returns [[2, 2]],
    not [param[0 : 2]]. *)
Lemma round_trip_fails_on_shared_entry :
  exists h',
    update_linear one_image (unlensed_pair [true; true]) [1%Q; 2%Q] 0 1%positive tt
                  shared_heap
    = Ok (1%positive, 2%nat, h') /\
    (2 <= length [1%Q; 2%Q])%nat /\
    linear_param_from_kwargs (unlensed_pair [true; true]) h' 1%positive
    = Ok [Scalar 2%Q; Scalar 2%Q] /\
    [Scalar 2%Q; Scalar 2%Q] <> map Scalar (take (2 - 0) (drop 0 [1%Q; 2%Q])).
Proof.
  eexists. split; [vm_compute; reflexivity |].
  split; [simpl; lia |].
  split; [vm_compute; reflexivity |].
  simpl. intros H. discriminate H.
Qed.

Lemma linear_round_trip_witness :
  consistent (unlensed_pair [true; true]) /\
  linear_param_from_kwargs
    (unlensed_pair [true; true])
    (Heap (apply_writes
             (linear_writes [5%Q; 7%Q] [true; true] [false; false]
                            [1%positive; 2%positive] [1%nat; 1%nat] 0)
             (dicts distinct_heap))
          (lists distinct_heap))
    1%positive
  = Ok [Scalar 5%Q; Scalar 7%Q].
Proof.
  split; [exact unlensed_pair_consistent |].
  refine (proj1 (linear_round_trip one_image (unlensed_pair [true; true]) distinct_heap _
                   1%positive 1%positive tt [5%Q; 7%Q] 0 2 [[0%Q]; [0%Q]] [[0%Q]; [0%Q]]
                   [1%positive; 2%positive] unlensed_pair_consistent eq_refl eq_refl
                   _ _ _)).
  - exact (update_linear_returns one_image (unlensed_pair [true; true]) distinct_heap
             1%positive tt [5%Q; 7%Q] 0 [[0%Q]; [0%Q]] [[0%Q]; [0%Q]]
             [1%positive; 2%positive] unlensed_pair_consistent eq_refl eq_refl
             (le_n 2)).
  - simpl. lia.
  - apply distinct_entries_distinct_targets. simpl.
    apply NoDup_cons. split; [| apply NoDup_singleton].
    rewrite list_elem_of_singleton. discriminate.
Defined.

End LinearSpec.

(** * [set_amplitudes] (C9) *)

Module AmplitudeSpec.

Import PointSourceModel.
Import PointSourceSpec.
Import LinearSpec.
Local Open Scope string_scope.
Local Open Scope list_scope.

(** ** The deep copy of a list of distinct dictionaries *)

Lemma deepcopy_items_distinct (items : list ref) :
  forall (memo : gmap positive positive) (d : gmap positive (gmap string value)),
  NoDup items ->
  (forall r, r ∈ items -> memo !! r = None) ->
  (forall r, r ∈ items -> is_Some (d !! r)) ->
  exists items' memo' d',
    deepcopy_items items memo d = Ok (items', memo', d') /\
    d ⊆ d' /\
    length items' = length items /\
    NoDup items' /\
    (forall r', r' ∈ items' -> d !! r' = None) /\
    (forall j r r', items !! j = Some r -> items' !! j = Some r' -> d' !! r' = d !! r).
Proof.
  induction items as [| r items IH]; intros memo d Hnd Hmemo Hvalid.
  - exists [], memo, d. simpl.
    split; [reflexivity |]. split; [reflexivity |]. split; [reflexivity |].
    split; [constructor |].
    split; [intros r' H; now apply elem_of_nil in H |].
    intros j r r' H. discriminate H.
  - apply NoDup_cons in Hnd as [Hr Hnd].
    destruct (Hvalid r) as [kw Hkw]; [left |].
    set (r0 := fresh (dom d)).
    assert (Hfresh : d !! r0 = None).
    { apply not_elem_of_dom. apply is_fresh. }
    destruct (IH (<[r := r0]> memo) (<[r0 := kw]> d) Hnd)
      as (items' & memo' & d' & Hcopy & Hsub & Hlen & Hnd' & Hnew & Hidx).
    { intros x Hx. rewrite lookup_insert_ne; [apply Hmemo; now right |].
      intros ->. contradiction. }
    { intros x Hx. rewrite lookup_insert_ne; [apply Hvalid; now right |].
      intros ->. destruct (Hvalid x) as [? E]; [now right |]. congruence. }
    assert (Hd0 : d ⊆ <[r0 := kw]> d) by now apply insert_subseteq.
    assert (Hr0 : d' !! r0 = Some kw).
    { eapply lookup_weaken; [| exact Hsub]. apply lookup_insert_eq. }
    exists (r0 :: items'), memo', d'. simpl.
    rewrite (Hmemo r) by left. rewrite Hkw. fold r0. rewrite Hcopy. simpl.
    split; [reflexivity |].
    split; [now transitivity (<[r0 := kw]> d) |].
    split; [now rewrite Hlen |].
    split.
    { apply NoDup_cons. split; [| exact Hnd'].
      intros Hin. apply Hnew in Hin. rewrite lookup_insert_eq in Hin. discriminate. }
    split.
    { intros r' Hin. apply elem_of_cons in Hin as [-> | Hin]; [exact Hfresh |].
      apply Hnew in Hin. apply lookup_insert_None in Hin. tauto. }
    intros [| j] x x' Hx Hx'; simpl in Hx, Hx'.
    + inversion Hx; inversion Hx'; subst. now rewrite Hr0.
    + rewrite (Hidx j x x' Hx Hx'). apply lookup_insert_ne.
      intros E. destruct (Hvalid x) as [? E']; [| congruence].
      right. eapply list_elem_of_lookup_2. exact Hx.
Qed.

(** [deepcopy] of a list of distinct dictionaries: a new list object that
    holds new, pairwise distinct dictionaries with the old contents; all
    that existed is unchanged. *)
Lemma deepcopy_distinct (h : heap) (l : ref) (items : list ref) :
  lists h !! l = Some items ->
  NoDup items ->
  Forall (fun r => is_Some (dicts h !! r)) items ->
  exists l' items' d',
    deepcopy h l = Ok (l', Heap d' (<[l' := items']> (lists h))) /\
    lists h !! l' = None /\
    dicts h ⊆ d' /\
    length items' = length items /\
    NoDup items' /\
    (forall r', r' ∈ items' -> dicts h !! r' = None) /\
    (forall j r r', items !! j = Some r -> items' !! j = Some r' ->
       d' !! r' = dicts h !! r).
Proof.
  intros Hl Hnd Hv. rewrite Forall_forall in Hv.
  destruct (deepcopy_items_distinct items ∅ (dicts h) Hnd)
    as (items' & memo' & d' & Hcopy & Hrest); [intros; apply lookup_empty | exact Hv |].
  exists (fresh (dom (lists h))), items', d'.
  unfold deepcopy, load_list. rewrite Hl. simpl. rewrite Hcopy. simpl.
  split; [reflexivity |].
  split; [apply not_elem_of_dom, is_fresh | exact Hrest].
Qed.

(** ** The assignments of [set_amplitudes] *)

(** The key under which [set_amplitudes] stores the amplitude of a source
    of a supported type: [point_amp] for an unlensed source or a
    magnification that is not fixed, [source_amp] for a lensed or source
    position with fixed magnification. *)
Definition amp_key (t : string) (fixed : bool) : string :=
  if decide (t = "UNLENSED") then "point_amp"
  else if fixed then "source_amp" else "point_amp".

(** The assignments of the loop of [set_amplitudes], in the order of the
    sources; [entries] are the dictionaries of the copy. *)
Fixpoint amplitude_writes (types : list string) (flux fixed : list bool)
         (amp_list : list value) (entries : list ref) : list write :=
  match types, flux, fixed, amp_list, entries with
  | t :: types', f :: flux', x :: fixed', a :: amp_list', r :: entries' =>
      let rest := amplitude_writes types' flux' fixed' amp_list' entries' in
      if f then
        if decide (t = "UNLENSED") then (r, "point_amp", a) :: rest
        else if decide (t ∈ ["LENSED_POSITION"; "SOURCE_POSITION"])
             then (r, if x : bool then "source_amp" else "point_amp", a) :: rest
             else rest
      else rest
  | _, _, _, _, _ => []
  end.

Lemma amplitude_writes_sublist types flux fixed amp_list entries :
  ((fun w : write => w.1.1) <$> amplitude_writes types flux fixed amp_list entries)
    `sublist_of` entries.
Proof.
  revert flux fixed amp_list entries.
  induction types as [| t types IH];
    intros [| f flux] [| x fixed] [| a amp_list] [| r entries];
    simpl; try apply sublist_nil_l.
  destruct f; [| apply sublist_cons, IH].
  destruct (decide (t = "UNLENSED")).
  - rewrite fmap_cons. simpl. apply sublist_skip, IH.
  - destruct (decide (t ∈ ["LENSED_POSITION"; "SOURCE_POSITION"])).
    + rewrite fmap_cons. simpl. apply sublist_skip, IH.
    + apply sublist_cons, IH.
Qed.

Lemma amplitude_writes_refs types flux fixed amp_list entries r :
  r ∉ entries ->
  r ∉ (fun w : write => w.1.1) <$> amplitude_writes types flux fixed amp_list entries.
Proof.
  intros Hn Hin. apply Hn.
  eapply elem_of_sublist; [exact Hin | apply amplitude_writes_sublist].
Qed.

(** With distinct entries, the dictionary of each source is, after the
    assignments, its old contents with the amplitude key set when the
    flux of the source is enabled, and its old contents otherwise. *)
Lemma apply_amplitude_writes types :
  forall flux fixed amp_list entries (d : gmap positive (gmap string value)),
  Forall supported types ->
  NoDup entries ->
  forall i t f x a r kw,
  types !! i = Some t -> flux !! i = Some f -> fixed !! i = Some x ->
  amp_list !! i = Some a -> entries !! i = Some r -> d !! r = Some kw ->
  apply_writes (amplitude_writes types flux fixed amp_list entries) d !! r
  = Some (if f : bool then <[amp_key t x := a]> kw else kw).
Proof.
  induction types as [| t0 types IH];
    intros [| f0 flux] [| x0 fixed] [| a0 amp_list] [| r0 entries] d Hs Hnd
           i t f x a r kw Ht Hf Hx Ha Hr Hd;
    try discriminate.
  apply Forall_cons in Hs as [Hs0 Hs]. apply NoDup_cons in Hnd as [Hr0 Hnd].
  apply supported_cases in Hs0.
  destruct i as [| i]; simpl in Ht, Hf, Hx, Ha, Hr.
  - inversion Ht; inversion Hf; inversion Hx; inversion Ha; inversion Hr; subst.
    clear Ht Hf Hx Ha Hr. simpl. unfold amp_key.
    pose proof (amplitude_writes_refs types flux fixed amp_list entries r Hr0) as Hfr.
    destruct f.
    + destruct (decide (t = "UNLENSED")) as [Hu | Hu].
      * unfold apply_writes. simpl.
        change (foldl apply_write ?d0 ?ws) with (apply_writes ws d0).
        rewrite apply_writes_other_ref by exact Hfr.
        now apply (apply_write_same_ref d (r, "point_amp", a)).
      * destruct (decide (t ∈ ["LENSED_POSITION"; "SOURCE_POSITION"])) as [Hl | Hl].
        -- unfold apply_writes. simpl.
           change (foldl apply_write ?d0 ?ws) with (apply_writes ws d0).
           rewrite apply_writes_other_ref by exact Hfr.
           now apply (apply_write_same_ref
                        d (r, if x then "source_amp" else "point_amp", a)).
        -- exfalso. apply Hl. rewrite !elem_of_cons. tauto.
    + now rewrite apply_writes_other_ref.
  - assert (Hne : r0 <> r).
    { intros ->. apply Hr0. eapply list_elem_of_lookup_2. exact Hr. }
    assert (Hrec : forall d0 : gmap positive (gmap string value), d0 !! r = Some kw ->
              apply_writes (amplitude_writes types flux fixed amp_list entries) d0 !! r
              = Some (if f then <[amp_key t x := a]> kw else kw)).
    { intros d0 Hd0. now apply (IH flux fixed amp_list entries d0 Hs Hnd i t f x a r kw). }
    simpl. destruct f0; [| now apply Hrec].
    destruct (decide (t0 = "UNLENSED")).
    + unfold apply_writes. simpl.
      change (foldl apply_write ?d0 ?ws) with (apply_writes ws d0).
      apply Hrec. now rewrite apply_write_other_ref.
    + destruct (decide (t0 ∈ ["LENSED_POSITION"; "SOURCE_POSITION"])).
      * unfold apply_writes. simpl.
        change (foldl apply_write ?d0 ?ws) with (apply_writes ws d0).
        apply Hrec. now rewrite apply_write_other_ref.
      * now apply Hrec.
Qed.

Section Methods.

Context {LensModel : Type}.

Variable self : PointSource LensModel.

Abbreviation flux_list := (_flux_from_point_source_list self).
Abbreviation fixed_list := (_fixed_magnification_list self).

Lemma set_amplitudes_loop_spec (amp_list : list value) (entries : list ref)
      (models : list string) :
  forall i h,
  (i + length models)%nat = length flux_list ->
  (i + length models)%nat = length fixed_list ->
  (i + length models)%nat = length amp_list ->
  (forall j, (j < length models)%nat ->
     exists r, entries !! (i + j)%nat = Some r /\ is_Some (dicts h !! r)) ->
  set_amplitudes_loop self amp_list entries models i h
  = Ok (Heap (apply_writes
                (amplitude_writes models (drop i flux_list) (drop i fixed_list)
                                  (drop i amp_list) (drop i entries))
                (dicts h))
             (lists h)).
Proof.
  induction models as [| t models IH]; intros i h Hf Hx Ha Hent; simpl in *.
  - now destruct h.
  - destruct (getitem_lt flux_list i) as (f & Ef & Lf); [lia |].
    destruct (getitem_lt fixed_list i) as (x & Ex & Lx); [lia |].
    destruct (getitem_lt amp_list i) as (a & Ea & La); [lia |].
    destruct (Hent 0%nat) as (r & Lr & Hv); [lia |].
    rewrite Nat.add_0_r in Lr.
    assert (Er : getitem entries i = Ok r) by now apply getitem_Ok.
    assert (Hent' : forall d' : gmap positive (gmap string value),
              (forall r', is_Some (d' !! r') <-> is_Some (dicts h !! r')) ->
              forall j, (j < length models)%nat ->
              exists r', entries !! (S i + j)%nat = Some r' /\ is_Some (d' !! r')).
    { intros d' Hd' j Hj. destruct (Hent (S j)) as (r' & Hr' & Hv'); [lia |].
      exists r'. split; [now replace (S i + j)%nat with (i + S j)%nat by lia |].
      now apply Hd'. }
    rewrite (drop_S _ _ _ Lf), (drop_S _ _ _ Lx), (drop_S _ _ _ La), (drop_S _ _ _ Lr).
    simpl. rewrite Ef. simpl. destruct f; simpl.
    + rewrite Ea. simpl. destruct (decide (t = "UNLENSED")).
      * rewrite Er. simpl.
        rewrite (proj2 (dict_setitem_Ok h _ r "point_amp" a) (conj Hv eq_refl)).
        simpl. rewrite IH; simpl; try lia; [reflexivity |].
        apply Hent'. intros r'. apply apply_write_is_Some.
      * destruct (decide (t ∈ ["LENSED_POSITION"; "SOURCE_POSITION"])).
        -- rewrite Ex. simpl. rewrite Er. simpl.
           rewrite (proj2 (dict_setitem_Ok h _ r (if x then "source_amp" else "point_amp") a)
                          (conj Hv eq_refl)).
           simpl. rewrite IH; simpl; try lia; [reflexivity |].
           apply Hent'. intros r'. apply apply_write_is_Some.
        -- rewrite IH; simpl; try lia; [reflexivity |].
           apply Hent'. reflexivity.
    + rewrite IH; simpl; try lia; [reflexivity |].
      apply Hent'. reflexivity.
Qed.

(** C9 (amended).  With one amplitude and one dictionary per declared
    source, the dictionaries being distinct objects, [set_amplitudes]
    returns a deep copy and leaves its input unmodified: the returned
    list is a new list object that holds, position by position, a new
    dictionary object; every list and dictionary that existed before the
    call, [kwargs_ps] and its entries among them, is unchanged.  The copy
    of the entry of source [i] is the entry itself with [amp_list[i]]
    stored under [point_amp] when the source is unlensed or its
    magnification is not fixed, and under [source_amp] when it is a
    lensed or source position with fixed magnification, if the flux of
    the source is enabled; it equals the entry if the flux is disabled. *)
Theorem set_amplitudes_deep_copy (h : heap) (kwargs_ps : ref) (amp_list : list value)
        (entries : list ref) :
  consistent self ->
  Forall supported (point_source_type_list self) ->
  lists h !! kwargs_ps = Some entries ->
  length entries = length (point_source_type_list self) ->
  length amp_list = length (point_source_type_list self) ->
  Forall (fun r => is_Some (dicts h !! r)) entries ->
  NoDup entries ->
  exists kwargs_list h' entries',
    set_amplitudes self amp_list kwargs_ps h = Ok (kwargs_list, h') /\
    lists h !! kwargs_list = None /\
    lists h' = <[kwargs_list := entries']> (lists h) /\
    lists h' !! kwargs_ps = Some entries /\
    dicts h ⊆ dicts h' /\
    length entries' = length entries /\
    NoDup entries' /\
    (forall i r r' t f x a,
       entries !! i = Some r -> entries' !! i = Some r' ->
       point_source_type_list self !! i = Some t ->
       flux_list !! i = Some f -> fixed_list !! i = Some x -> amp_list !! i = Some a ->
       dicts h !! r' = None /\
       exists kw, dicts h !! r = Some kw /\
                  dicts h' !! r' = Some (if f : bool then <[amp_key t x := a]> kw else kw)).
Proof.
  intros (Hf & Hx & Hm) Hs Hl Hlen Hamp Hv Hnd.
  destruct (deepcopy_distinct h kwargs_ps entries Hl Hnd Hv)
    as (l' & entries' & d' & Hcopy & Hnew & Hsub & Hlen' & Hnd' & Hfresh & Hidx).
  rewrite Forall_forall in Hv.
  assert (Hent : forall j, (j < length (point_source_type_list self))%nat ->
            exists r', entries' !! (0 + j)%nat = Some r' /\ is_Some (d' !! r')).
  { intros j Hj. simpl.
    destruct (lookup_lt_is_Some_2 entries' j) as [r' Hr']; [lia |].
    destruct (lookup_lt_is_Some_2 entries j) as [r Hr]; [lia |].
    exists r'. split; [exact Hr' |]. rewrite (Hidx j r r' Hr Hr').
    apply Hv. eapply list_elem_of_lookup_2. exact Hr. }
  set (ws := amplitude_writes (point_source_type_list self) flux_list fixed_list
                              amp_list entries').
  exists l', (Heap (apply_writes ws d') (<[l' := entries']> (lists h))), entries'.
  split.
  { unfold set_amplitudes. rewrite Hcopy. simpl. unfold load_list. simpl.
    rewrite lookup_insert_eq. simpl.
    rewrite set_amplitudes_loop_spec; simpl; rewrite ?drop_0; try lia;
      [reflexivity | exact Hent]. }
  simpl. split; [exact Hnew |]. split; [reflexivity |].
  split.
  { rewrite lookup_insert_ne; [exact Hl |]. intros ->. congruence. }
  split.
  { apply map_subseteq_spec. intros r kw Hr.
    rewrite apply_writes_other_ref.
    - eapply lookup_weaken; [exact Hr | exact Hsub].
    - apply amplitude_writes_refs. intros Hin. apply Hfresh in Hin. congruence. }
  split; [exact Hlen' |]. split; [exact Hnd' |].
  intros i r r' t f x a Hr Hr' Ht Hfl Hfx Ha.
  split; [apply Hfresh; eapply list_elem_of_lookup_2; exact Hr' |].
  destruct (Hv r) as [kw Hkw]; [eapply list_elem_of_lookup_2; exact Hr |].
  exists kw. split; [exact Hkw |].
  apply (apply_amplitude_writes _ _ _ _ _ _ Hs Hnd' i t f x a r' kw);
    try assumption.
  now rewrite (Hidx i r r' Hr Hr').
Qed.

End Methods.

(** C9 as stated fails when a dictionary is shared: the deep copy of
    [kwargs_ps = [d, d]] holds one new dictionary twice, so that the
    amplitude of the second source overwrites that of the first, and
    entry 0 of the result holds [amp_list[1]]. *)
Lemma set_amplitudes_shared_entry :
  exists h',
    set_amplitudes (unlensed_pair [true; true]) [Scalar 1%Q; Scalar 2%Q] 1%positive
                   shared_heap
    = Ok (2%positive, h') /\
    lists h' !! 2%positive = Some [2%positive; 2%positive] /\
    dicts h' !! 2%positive = Some {[ "point_amp" := Scalar 2%Q ]} /\
    [Scalar 1%Q; Scalar 2%Q] !! 0%nat = Some (Scalar 1%Q) /\
    Scalar 2%Q <> Scalar 1%Q.
Proof.
  eexists. split; [vm_compute; reflexivity |].
  split; [vm_compute; reflexivity |].
  split; [vm_compute; reflexivity |].
  split; [reflexivity | discriminate].
Qed.

Lemma set_amplitudes_deep_copy_witness :
  consistent (unlensed_pair [true; true]) /\
  NoDup [1%positive; 2%positive] /\
  exists kwargs_list h',
    set_amplitudes (unlensed_pair [true; true]) [Scalar 1%Q; Scalar 2%Q] 1%positive
                   distinct_heap
    = Ok (kwargs_list, h') /\
    lists h' !! 1%positive = Some [1%positive; 2%positive] /\
    dicts distinct_heap ⊆ dicts h'.
Proof.
  assert (Hnd : NoDup [1%positive; 2%positive]).
  { apply NoDup_cons. split; [| apply NoDup_singleton].
    rewrite list_elem_of_singleton. discriminate. }
  split; [exact unlensed_pair_consistent |]. split; [exact Hnd |].
  destruct (set_amplitudes_deep_copy (unlensed_pair [true; true]) distinct_heap 1%positive
              [Scalar 1%Q; Scalar 2%Q] [1%positive; 2%positive]
              unlensed_pair_consistent)
    as (l' & h' & entries' & H1 & _ & _ & H4 & H5 & _); try reflexivity; try exact Hnd.
  - repeat constructor; apply supported_cases; auto.
  - repeat constructor; eexists; reflexivity.
  - exists l', h'. auto.
Defined.

End AmplitudeSpec.

(** * Matching solved positions to the original ones (C2) *)

Module MatcherSpec.

Import PointSourceModel.
Import PointSourceSpec.
Local Open Scope list_scope.

(** ** The assignment, as the specification words it *)

(** Squared Euclidean distance of two points. *)
Definition dist2 (o p : Q * Q) : Q :=
  Qplus (Qpower (Qminus o.1 p.1) 2) (Qpower (Qminus o.2 p.2) 2).

(** The solved point with index [j]. *)
Definition point (x_solved y_solved : list Q) (j : nat) : Q * Q :=
  (default 0%Q (x_solved !! j), default 0%Q (y_solved !! j)).

(** The coordinates with the given indices, in that order. *)
Definition pick (l : list Q) (idx : list nat) : list Q :=
  (fun j => default 0%Q (l !! j)) <$> idx.

(** [greedy_match pt originals pool chosen rest]: going through the
    original points in order, each is assigned the closest solved point
    that is still in the pool (the first of them, in the order of the
    pool, when several are closest), which is then removed from the pool;
    [chosen] are the indices assigned, in order, and [rest] is what is
    left of the pool, in its order.  [pt j] is the solved point with
    index [j]. *)
Inductive greedy_match (pt : nat -> Q * Q)
  : list (Q * Q) -> list nat -> list nat -> list nat -> Prop :=
| greedy_done (pool : list nat) : greedy_match pt [] pool [] pool
| greedy_step (o : Q * Q) (os : list (Q * Q)) (pre : list nat) (j : nat)
              (post chosen rest : list nat) :
    (forall j', j' ∈ pre ++ j :: post -> (dist2 o (pt j) <= dist2 o (pt j'))%Q) ->
    (forall j', j' ∈ pre -> (dist2 o (pt j) < dist2 o (pt j'))%Q) ->
    greedy_match pt os (pre ++ post) chosen rest ->
    greedy_match pt (o :: os) (pre ++ j :: post) (j :: chosen) rest.

(** Each original gets one index, no index is lost or used twice, and the
    leftover keeps the order of the pool. *)
Lemma greedy_match_facts pt os pool chosen rest :
  greedy_match pt os pool chosen rest ->
  length chosen = length os /\ chosen ++ rest ≡ₚ pool /\ rest `sublist_of` pool.
Proof.
  induction 1 as [pool | o os pre j post chosen rest _ _ _ (IH1 & IH2 & IH3)].
  - split; [reflexivity |]. split; reflexivity.
  - split; [simpl; now rewrite IH1 |]. split.
    + simpl. rewrite IH2. apply Permutation_middle.
    + etransitivity; [exact IH3 |]. apply sublist_app; [reflexivity |].
      apply sublist_cons. reflexivity.
Qed.

(** ** [np.argmin] *)

Lemma Qlt_bool_true (a b : Q) : Qlt_bool a b = true <-> (a < b)%Q.
Proof.
  unfold Qlt_bool. rewrite negb_true_iff. split.
  - intros H. apply Qnot_le_lt. intros Hle. apply Qle_bool_iff in Hle. congruence.
  - intros H. destruct (Qle_bool b a) eqn:E; [| reflexivity].
    apply Qle_bool_iff in E. exfalso. exact (Qlt_not_le _ _ H E).
Qed.

Lemma Qlt_bool_false (a b : Q) : Qlt_bool a b = false <-> (b <= a)%Q.
Proof.
  unfold Qlt_bool. rewrite negb_false_iff. apply Qle_bool_iff.
Qed.

(** [is_first_min l p v]: [v] is the entry of [l] at [p], no entry is
    smaller and every earlier entry is larger. *)
Definition is_first_min (l : list Q) (p : nat) (v : Q) : Prop :=
  l !! p = Some v /\
  (forall q vq, l !! q = Some vq -> (v <= vq)%Q) /\
  (forall q vq, l !! q = Some vq -> (q < p)%nat -> (v < vq)%Q).

Lemma argmin_from_spec (l : list Q) :
  forall (pre : list Q) (bi : nat) (b : Q),
  is_first_min pre bi b ->
  exists v, is_first_min (pre ++ l) (argmin_from bi b (length pre) l) v.
Proof.
  induction l as [| v l IH]; intros pre bi b (Hb & Hmin & Hfirst); simpl.
  - exists b. rewrite app_nil_r. now repeat split.
  - apply lookup_lt_Some in Hb as Hlt.
    assert (Hlen : S (length pre) = length (pre ++ [v])).
    { rewrite length_app. simpl. lia. }
    rewrite (cons_middle v pre l), app_assoc, Hlen.
    destruct (Qlt_bool v b) eqn:E.
    + apply Qlt_bool_true in E. apply IH. split; [| split].
      * rewrite lookup_app_r by lia. now rewrite Nat.sub_diag.
      * intros q vq Hq. apply lookup_app_Some in Hq as [Hq | [_ Hq]].
        -- apply Qlt_le_weak. eapply Qlt_le_trans; [exact E | exact (Hmin q vq Hq)].
        -- apply list_lookup_singleton_Some in Hq as [_ <-]. apply Qle_refl.
      * intros q vq Hq Hlt'. apply lookup_app_Some in Hq as [Hq | [Hge _]]; [| lia].
        eapply Qlt_le_trans; [exact E | exact (Hmin q vq Hq)].
    + apply Qlt_bool_false in E. apply IH. split; [| split].
      * now rewrite lookup_app_l by lia.
      * intros q vq Hq. apply lookup_app_Some in Hq as [Hq | [_ Hq]].
        -- exact (Hmin q vq Hq).
        -- now apply list_lookup_singleton_Some in Hq as [_ <-].
      * intros q vq Hq Hlt'. apply lookup_app_Some in Hq as [Hq | [Hge _]]; [| lia].
        exact (Hfirst q vq Hq Hlt').
Qed.

Lemma np_argmin_spec (l : list Q) :
  l <> [] -> exists p v, np_argmin l = Ok p /\ is_first_min l p v.
Proof.
  destruct l as [| v l]; [congruence |]. intros _. simpl.
  destruct (argmin_from_spec l [v] 0 v) as (w & Hw).
  - split; [reflexivity |]. split.
    + intros [| q] vq Hq; simpl in Hq; [| discriminate].
      inversion Hq; subst. apply Qle_refl.
    + intros q vq _ Hq. lia.
  - simpl in Hw. eauto.
Qed.

(** ** The loop *)

Lemma r2_pick (x y : Q) (x_solved y_solved : list Q) (pool : list nat) :
  r2 x y (pick x_solved pool) (pick y_solved pool)
  = Ok ((fun j => dist2 (x, y) (point x_solved y_solved j)) <$> pool).
Proof.
  unfold r2, np_add, pick.
  rewrite ?length_map, ?length_fmap.
  destruct (decide (length pool = length pool)) as [_ | H]; [| congruence].
  f_equal. induction pool as [| j pool IH]; [reflexivity |].
  rewrite !fmap_cons. cbn [map zip_with]. apply (f_equal2 cons); [reflexivity | exact IH].
Qed.

Lemma sort_loop_spec (x_solved y_solved y_o : list Q) (xo_rest : list Q) :
  forall (i : nat) (xn yn : list Q) (pool : list nat),
  (i + length xo_rest)%nat = length y_o ->
  (length xo_rest <= length pool)%nat ->
  exists chosen rest,
    greedy_match (point x_solved y_solved) (zip xo_rest (drop i y_o)) pool chosen rest /\
    sort_loop xo_rest y_o i xn yn (pick x_solved pool) (pick y_solved pool)
    = Ok (xn ++ pick x_solved chosen, yn ++ pick y_solved chosen,
          pick x_solved rest, pick y_solved rest).
Proof.
  induction xo_rest as [| x xo_rest IH]; intros i xn yn pool Hy Hpool; simpl in *.
  - exists [], pool. split; [constructor |]. simpl. now rewrite !app_nil_r.
  - destruct (getitem_lt y_o i) as (y & Ey & Ly); [lia |].
    rewrite Ey. simpl. rewrite r2_pick. simpl.
    destruct (np_argmin_spec ((fun j => dist2 (x, y) (point x_solved y_solved j)) <$> pool))
      as (p & v & Earg & Hp & Hmin & Hfirst).
    { destruct pool; [simpl in Hpool; lia | discriminate]. }
    rewrite Earg. simpl.
    rewrite list_lookup_fmap in Hp.
    destruct (pool !! p) as [j |] eqn:Ej; [| discriminate].
    simpl in Hp. inversion Hp; subst v. clear Hp.
    apply lookup_lt_Some in Ej as Hlt.
    assert (Ex : getitem (pick x_solved pool) p = Ok (default 0%Q (x_solved !! j))).
    { apply getitem_Ok. unfold pick. now rewrite list_lookup_fmap, Ej. }
    assert (Ey' : getitem (pick y_solved pool) p = Ok (default 0%Q (y_solved !! j))).
    { apply getitem_Ok. unfold pick. now rewrite list_lookup_fmap, Ej. }
    rewrite Ex, Ey'. simpl. unfold np_delete.
    assert (Hlx : length (pick x_solved pool) = length pool) by apply length_fmap.
    assert (Hly : length (pick y_solved pool) = length pool) by apply length_fmap.
    rewrite Hlx, Hly.
    destruct (decide (p < length pool)%nat) as [_ | Hn]; [| lia]. simpl.
    unfold pick at 1 2. rewrite <- !list_fmap_delete. fold (pick x_solved (delete p pool)).
    fold (pick y_solved (delete p pool)).
    destruct (IH (S i) (xn ++ [default 0%Q (x_solved !! j)])
                 (yn ++ [default 0%Q (y_solved !! j)]) (delete p pool))
      as (chosen & rest & Hg & Hloop).
    { lia. }
    { rewrite length_delete by eauto. lia. }
    exists (j :: chosen), rest. split.
    + rewrite (drop_S _ _ _ Ly). simpl.
      rewrite delete_take_drop in Hg.
      rewrite <- (take_drop_middle pool p j Ej). constructor; [| | exact Hg].
      * intros j' Hj'. rewrite (take_drop_middle pool p j Ej) in Hj'.
        apply list_elem_of_lookup_1 in Hj' as [q Hq].
        apply (Hmin q). now rewrite list_lookup_fmap, Hq.
      * intros j' Hj'. apply elem_of_take in Hj' as (q & Hq & Hqp).
        apply (Hfirst q); [| exact Hqp]. now rewrite list_lookup_fmap, Hq.
    + rewrite Hloop. unfold pick. rewrite !fmap_cons, <- !app_assoc. reflexivity.
Qed.

Lemma pick_seq (l : list Q) : pick l (seq 0 (length l)) = l.
Proof.
  apply list_eq. intros i. unfold pick. rewrite list_lookup_fmap.
  destruct (decide (i < length l)%nat) as [Hlt | Hge].
  - rewrite lookup_seq_lt by exact Hlt. simpl.
    destruct (lookup_lt_is_Some_2 l i Hlt) as [x Hx]. now rewrite Hx.
  - rewrite (lookup_ge_None_2 l) by lia.
    rewrite (lookup_ge_None_2 (seq 0 (length l))); [reflexivity |].
    rewrite length_seq. lia.
Qed.

(** C2.  On paired arrays ([x] and [y] of equal length, for the original
    and for the solved points): if there are more original than solved
    points, [_sort_position_by_original] returns the original arrays
    unchanged; otherwise it returns arrays of the length of the solved
    ones, whose first [len(original)] entries are the solved points
    assigned greedily to the original points in order (each time the
    closest remaining one by squared Euclidean distance, the first one on
    a tie, removed from the pool, so that no solved index is used twice)
    and whose other entries are the leftover solved points in their
    solved order. *)
Theorem sort_position_by_original_spec (x_o y_o x_solved y_solved : list Q) :
  length x_o = length y_o ->
  length x_solved = length y_solved ->
  ((length x_solved < length x_o)%nat ->
   _sort_position_by_original x_o y_o x_solved y_solved = Ok (x_o, y_o)) /\
  ((length x_o <= length x_solved)%nat ->
   exists chosen rest,
     greedy_match (point x_solved y_solved) (zip x_o y_o)
                  (seq 0 (length x_solved)) chosen rest /\
     _sort_position_by_original x_o y_o x_solved y_solved
     = Ok (pick x_solved chosen ++ pick x_solved rest,
           pick y_solved chosen ++ pick y_solved rest) /\
     length (pick x_solved chosen) = length x_o /\
     length (pick x_solved chosen ++ pick x_solved rest) = length x_solved /\
     length (pick y_solved chosen ++ pick y_solved rest) = length x_solved /\
     NoDup chosen /\
     chosen ++ rest ≡ₚ seq 0 (length x_solved) /\
     rest `sublist_of` seq 0 (length x_solved)).
Proof.
  intros Ho Hs. unfold _sort_position_by_original. split.
  - intros Hlt. destruct (decide (length x_solved < length x_o)%nat); [reflexivity | lia].
  - intros Hle. destruct (decide (length x_solved < length x_o)%nat); [lia |].
    destruct (sort_loop_spec x_solved y_solved y_o x_o 0 [] [] (seq 0 (length x_solved)))
      as (chosen & rest & Hg & Hloop).
    { simpl. lia. }
    { rewrite length_seq. lia. }
    rewrite drop_0 in Hg.
    rewrite pick_seq in Hloop.
    replace (pick y_solved (seq 0 (length x_solved))) with y_solved in Hloop
      by (rewrite Hs; symmetry; apply pick_seq).
    destruct (greedy_match_facts _ _ _ _ _ Hg) as (Hlen & Hperm & Hsub).
    rewrite length_zip_with_l_eq in Hlen by exact Ho.
    assert (Hall : length (chosen ++ rest) = length x_solved).
    { rewrite Hperm. apply length_seq. }
    exists chosen, rest. split; [exact Hg |].
    split; [rewrite Hloop; reflexivity |].
    split; [unfold pick; now rewrite length_fmap |].
    split; [unfold pick; now rewrite <- fmap_app, length_fmap |].
    split; [unfold pick; now rewrite <- fmap_app, length_fmap |].
    split; [| split; assumption].
    assert (Hnd : NoDup (chosen ++ rest)).
    { rewrite Hperm. apply NoDup_seq. }
    apply NoDup_app in Hnd. tauto.
Qed.

Lemma sort_position_by_original_spec_witness :
  length [0%Q; 10%Q] = length [0%Q; 10%Q] /\
  length [10%Q; 0%Q; 5%Q] = length [10%Q; 0%Q; 5%Q] /\
  exists chosen rest,
    greedy_match (point [10%Q; 0%Q; 5%Q] [10%Q; 0%Q; 5%Q])
                 (zip [0%Q; 10%Q] [0%Q; 10%Q]) (seq 0 3) chosen rest /\
    _sort_position_by_original [0%Q; 10%Q] [0%Q; 10%Q] [10%Q; 0%Q; 5%Q] [10%Q; 0%Q; 5%Q]
    = Ok (pick [10%Q; 0%Q; 5%Q] chosen ++ pick [10%Q; 0%Q; 5%Q] rest,
          pick [10%Q; 0%Q; 5%Q] chosen ++ pick [10%Q; 0%Q; 5%Q] rest).
Proof.
  split; [reflexivity |]. split; [reflexivity |].
  destruct (sort_position_by_original_spec [0%Q; 10%Q] [0%Q; 10%Q]
              [10%Q; 0%Q; 5%Q] [10%Q; 0%Q; 5%Q] eq_refl eq_refl) as [_ H].
  destruct H as (chosen & rest & Hg & Hrun & _); [simpl; lia |].
  exists chosen, rest. split; [exact Hg | exact Hrun].
Defined.

(** The example above, run: the two original points take the solved
    points 1 and 0, the third solved point follows. *)
Example sort_position_by_original_run :
  _sort_position_by_original [0%Q; 10%Q] [0%Q; 10%Q] [10%Q; 0%Q; 5%Q] [10%Q; 0%Q; 5%Q]
  = Ok ([0%Q; 10%Q; 5%Q], [0%Q; 10%Q; 5%Q]).
Proof. reflexivity. Qed.

End MatcherSpec.

(** * More on the Gaussian profile: closed forms, mass and curvature *)

Module GaussianExtra.

Import Gaussian.
Import GaussianSpec.
Local Open Scope R_scope.

(** The constant [1 / (2 sigma^2)] of the source. *)
Definition c_of (sigma : R) : R := 1 / (2 * sigma * sigma).

(** The Gaussian factor [exp(-c R^2)]. *)
Definition gauss (sigma R0 : R) : R := exp (- c_of sigma * R0 ^ 2).

(** The deflection of a Gaussian of total mass [amp]:
    [amp (1 - exp(-R^2 / (2 sigma^2))) / (pi R)]. *)
Definition alpha_closed (amp sigma R0 : R) : R :=
  amp * (1 - gauss sigma R0) / (PI * R0).

(** Its radial derivative. *)
Definition d_alpha_closed (amp sigma R0 : R) : R :=
  amp / (PI * R0 ^ 2) * (-1 + (1 + 2 * c_of sigma * R0 ^ 2) * gauss sigma R0).

(** The convergence of a Gaussian of total mass [amp]. *)
Definition kappa (amp sigma R0 : R) : R :=
  amp / (2 * PI * sigma * sigma) * gauss sigma R0.

Definition nonzero (d : R) : Prop := d <> 0.

Lemma succeeds_div_nz (a b : R) :
  b <> 0 -> succeeds (fun v => v = a / b) nonzero (div a b).
Proof. intros Hb. now apply succeeds_div. Qed.

Lemma scale_sq (s : R) :
  0 < s -> (sqrt PI * sqrt (s * s * 2)) * (sqrt PI * sqrt (s * s * 2)) = 2 * PI * s * s.
Proof.
  intros Hs.
  assert (Ha : sqrt PI * sqrt PI = PI) by (apply sqrt_sqrt; pose proof PI_RGT_0; lra).
  assert (Hb : sqrt (s * s * 2) * sqrt (s * s * 2) = s * s * 2) by (apply sqrt_sqrt; nra).
  transitivity ((sqrt PI * sqrt PI) * (sqrt (s * s * 2) * sqrt (s * s * 2))); [ring |].
  rewrite Ha, Hb. ring.
Qed.

Lemma scale_nz (s : R) : 0 < s -> sqrt PI * sqrt (s * s * 2) <> 0.
Proof. intros Hs. pose proof (amp_scale_pos s Hs). lra. Qed.

(** [mass_2d] in closed form. *)
Lemma mass_2d_value (R0 amp s : R) :
  0 < s ->
  succeeds (fun v => v = amp / (sqrt PI * sqrt (s * s * 2)) * (2 * PI * s * s)
                         * (1 - gauss s R0))
           nonzero (mass_2d R0 amp s).
Proof.
  intros Hs. unfold mass_2d.
  eapply succeeds_bind; [apply succeeds_div_nz, scale_nz, Hs |]. intros amp2d ->.
  eapply succeeds_bind; [apply succeeds_div_nz; nra |]. intros c ->.
  eapply succeeds_bind.
  { apply succeeds_div_nz. intros E.
    assert (0 < 1 / (2 * s * s)) by (apply Rdiv_lt_0_compat; nra). lra. }
  intros q ->. apply succeeds_ret. unfold gauss, c_of.
  assert (Hb : 0 < sqrt (s * s * 2)) by (apply sqrt_lt_R0; nra).
  pose proof sqrt_pi_pos as Ha.
  field. repeat split; lra.
Qed.

(** [mass_2d_lens] in closed form: the amplitude of the lens convention
    is the total projected mass. *)
Lemma mass_2d_lens_value (R0 amp s : R) :
  0 < s -> succeeds (fun v => v = amp * (1 - gauss s R0)) nonzero (mass_2d_lens R0 amp s).
Proof.
  intros Hs. unfold mass_2d_lens.
  eapply succeeds_bind.
  { unfold _amp2d_to_3d. apply succeeds_div_nz, scale_nz, Hs. }
  intros a3 ->.
  eapply succeeds_weaken; [apply mass_2d_value, Hs |].
  intros v ->. pose proof (scale_sq s Hs) as Hk. pose proof (scale_nz s Hs) as Hn.
  set (k := sqrt PI * sqrt (s * s * 2)) in *.
  replace (2 * PI * s * s) with (k * k) by exact Hk. field. exact Hn.
Qed.

(** [alpha_abs] in closed form, away from [R = 0]. *)
Lemma alpha_abs_value (R0 amp s : R) :
  0 < s -> R0 <> 0 ->
  succeeds (fun v => v = alpha_closed amp s R0) nonzero (alpha_abs R0 amp s).
Proof.
  intros Hs HR. unfold alpha_abs.
  eapply succeeds_bind.
  { unfold _amp2d_to_3d. apply succeeds_div_nz, scale_nz, Hs. }
  intros a3 ->.
  eapply succeeds_bind; [apply mass_2d_value, Hs |]. intros m ->.
  eapply succeeds_bind.
  { apply succeeds_div_nz, not_eq_sym, Rlt_not_eq, PI_RGT_0. }
  intros a ->.
  eapply succeeds_weaken; [apply succeeds_div_nz, HR |].
  intros v ->. pose proof (scale_sq s Hs) as Hk. pose proof (scale_nz s Hs) as Hn.
  unfold alpha_closed.
  set (k := sqrt PI * sqrt (s * s * 2)) in *.
  replace (2 * PI * s * s) with (k * k) by exact Hk. field.
  repeat split; try assumption. apply not_eq_sym, Rlt_not_eq, PI_RGT_0.
Qed.

(** [d_alpha_dr] in closed form, away from [R = 0]. *)
Lemma d_alpha_dr_value (R0 amp s : R) :
  0 < s -> R0 <> 0 ->
  succeeds (fun v => v = d_alpha_closed amp s R0) nonzero (d_alpha_dr R0 amp s s).
Proof.
  intros Hs HR. unfold d_alpha_dr.
  pose proof PI_RGT_0 as Hpi.
  eapply succeeds_bind; [apply succeeds_div_nz; nra |]. intros c ->.
  eapply succeeds_bind.
  { unfold _amp2d_to_3d. apply succeeds_div_nz, scale_nz, Hs. }
  intros a3 ->.
  eapply succeeds_bind; [apply succeeds_div_nz; lra |]. intros t ->.
  eapply succeeds_bind.
  { apply succeeds_div_nz. apply pow_nonzero, HR. }
  intros q ->. apply succeeds_ret.
  assert (Hsq : sqrt (2 / PI * s * s) = sqrt (s * s * 2) / sqrt PI).
  { replace (2 / PI * s * s) with ((s * s * 2) / PI) by (field; lra).
    apply sqrt_div_alt. exact Hpi. }
  rewrite Hsq. unfold d_alpha_closed, gauss, c_of.
  assert (Ha : sqrt PI * sqrt PI = PI) by (apply sqrt_sqrt; lra).
  assert (Hb : 0 < sqrt (s * s * 2)) by (apply sqrt_lt_R0; nra).
  assert (Ha' : 0 < sqrt PI) by (apply sqrt_lt_R0; lra).
  rewrite <- Ha at 3. field.
  repeat split; lra.
Qed.

(** ** The Gaussian factor *)

Lemma c_of_pos (s : R) : 0 < s -> 0 < c_of s.
Proof. intros Hs. unfold c_of. apply Rdiv_lt_0_compat; nra. Qed.

Lemma gauss_range (s R0 : R) : 0 < s -> 0 < gauss s R0 <= 1.
Proof.
  intros Hs. unfold gauss. split; [apply exp_pos |].
  pose proof (c_of_pos s Hs) as Hc. pose proof (pow2_ge_0 R0) as HR.
  destruct (Req_dec (- c_of s * R0 ^ 2) 0) as [E | E].
  - rewrite E, exp_0. lra.
  - rewrite <- exp_0. left. apply exp_increasing. nra.
Qed.

Lemma gauss_at_0 (s : R) : gauss s 0 = 1.
Proof. unfold gauss. replace (- c_of s * 0 ^ 2) with 0 by ring. apply exp_0. Qed.

Lemma gauss_decreasing (s R1 R2 : R) :
  0 < s -> Rabs R1 <= Rabs R2 -> gauss s R2 <= gauss s R1.
Proof.
  intros Hs HR. unfold gauss.
  pose proof (c_of_pos s Hs) as Hc.
  assert (Hsq : R1 ^ 2 <= R2 ^ 2).
  { rewrite <- (pow2_abs R1), <- (pow2_abs R2).
    apply pow_incr. split; [apply Rabs_pos | exact HR]. }
  destruct (Req_dec (R1 ^ 2) (R2 ^ 2)) as [E | E].
  - rewrite E. lra.
  - left. apply exp_increasing. nra.
Qed.

(** ** The deflection and its derivative *)

Lemma alpha_closed_derivative (amp s R0 : R) :
  R0 <> 0 -> derivable_pt_lim (alpha_closed amp s) R0 (d_alpha_closed amp s R0).
Proof.
  intros HR. pose proof PI_RGT_0 as Hpi.
  set (u := mult_real_fct (- c_of s) (fun y : R => y ^ 2)).
  assert (Hu : derivable_pt_lim u R0 (- c_of s * (INR 2 * R0 ^ pred 2))).
  { apply derivable_pt_lim_scal, derivable_pt_lim_pow. }
  assert (He : derivable_pt_lim (comp exp u) R0
                 (exp (u R0) * (- c_of s * (INR 2 * R0 ^ pred 2)))).
  { apply derivable_pt_lim_comp; [exact Hu | apply derivable_pt_lim_exp]. }
  assert (Hn : derivable_pt_lim (mult_real_fct amp (fct_cte 1 - comp exp u)%F) R0
                 (amp * (0 - exp (u R0) * (- c_of s * (INR 2 * R0 ^ pred 2))))).
  { apply derivable_pt_lim_scal, derivable_pt_lim_minus;
      [apply derivable_pt_lim_const | exact He]. }
  assert (Hd : derivable_pt_lim (mult_real_fct PI id) R0 (PI * 1)).
  { apply derivable_pt_lim_scal, derivable_pt_lim_id. }
  assert (Hnz : mult_real_fct PI id R0 <> 0).
  { unfold mult_real_fct, id. nra. }
  pose proof (derivable_pt_lim_div _ _ _ _ _ Hn Hd Hnz) as H.
  apply (derivable_pt_lim_ext
           (mult_real_fct amp (fct_cte 1 - comp exp u) / mult_real_fct PI id)%F).
  { intros z. reflexivity. }
  replace (d_alpha_closed amp s R0)
    with ((amp * (0 - exp (u R0) * (- c_of s * (INR 2 * R0 ^ pred 2)))
           * mult_real_fct PI id R0
           - PI * 1 * mult_real_fct amp (fct_cte 1 - comp exp u)%F R0)
          / Rsqr (mult_real_fct PI id R0)); [exact H |].
  unfold d_alpha_closed, gauss, u, mult_real_fct, minus_fct, fct_cte, comp, id, Rsqr.
  simpl. field. split; lra.
Qed.

(** X1.  [alpha_abs] is the deflection of a Gaussian of total mass [amp], in
    closed form [amp (1 - exp(-R^2 / (2 sigma^2))) / (pi R)], wherever
    [R] is not 0. *)
Theorem alpha_abs_closed_form (R0 amp sigma : R) :
  0 < sigma -> R0 <> 0 ->
  value (alpha_abs R0 amp sigma)
  = Some (amp * (1 - exp (- (1 / (2 * sigma * sigma)) * R0 ^ 2)) / (PI * R0)).
Proof.
  intros Hs HR. destruct (alpha_abs_value R0 amp sigma Hs HR) as (v & l & -> & -> & _).
  reflexivity.
Qed.

Lemma alpha_abs_closed_form_witness :
  0 < 1 /\ 2 <> 0 /\
  value (alpha_abs 2 3 1) = Some (3 * (1 - exp (- (1 / (2 * 1 * 1)) * 2 ^ 2)) / (PI * 2)).
Proof.
  split; [lra |]. split; [lra |]. apply (alpha_abs_closed_form 2 3 1); lra.
Defined.

(** X2.  At [R = 0] both [alpha_abs] and [d_alpha_dr] divide by zero, however
    [sigma > 0] and [amp] are chosen: the flooring of the radius in
    [derivatives] and [hessian] is what keeps them away from it. *)
Theorem alpha_abs_zero_radius (amp sigma : R) :
  0 < sigma ->
  alpha_abs 0 amp sigma = None /\ d_alpha_dr 0 amp sigma sigma = None.
Proof.
  intros Hs. pose proof PI_RGT_0 as Hpi. split.
  - unfold alpha_abs.
    destruct (amp2d_to_3d_ok amp sigma Hs) as (a3 & l1 & -> & _ & _). cbn [bind].
    destruct (mass_2d_ok 0 a3 sigma Hs) as (m & l2 & -> & _ & _). cbn [bind].
    unfold div. destruct (Req_dec_T PI 0) as [E | _]; [lra |]. cbn [bind].
    destruct (Req_dec_T 0 0) as [_ | n]; [reflexivity | now destruct n].
  - unfold d_alpha_dr, div.
    destruct (Req_dec_T (2 * sigma * sigma) 0) as [E | _]; [nra |]. cbn [bind].
    destruct (amp2d_to_3d_ok amp sigma Hs) as (a3 & l1 & -> & _ & _). cbn [bind].
    destruct (Req_dec_T PI 0) as [E | _]; [lra |]. cbn [bind].
    destruct (Req_dec_T (0 ^ 2) 0) as [_ | n]; [reflexivity |].
    exfalso. apply n. ring.
Qed.

Lemma alpha_abs_zero_radius_witness : 0 < 1 /\ alpha_abs 0 1 1 = None.
Proof. split; [lra |]. apply (alpha_abs_zero_radius 1 1). lra. Defined.

(** X3.  [d_alpha_dr] is the derivative of [alpha_abs] with respect to the
    radius: away from [R = 0], [alpha_abs] is the function
    [alpha_closed amp sigma] of [R], and [d_alpha_dr] returns the
    derivative of that function at [R]. *)
Theorem d_alpha_dr_is_derivative (R0 amp sigma : R) :
  0 < sigma -> R0 <> 0 ->
  (forall R1, R1 <> 0 -> value (alpha_abs R1 amp sigma) = Some (alpha_closed amp sigma R1)) /\
  exists d, value (d_alpha_dr R0 amp sigma sigma) = Some d /\
            derivable_pt_lim (alpha_closed amp sigma) R0 d.
Proof.
  intros Hs HR. split.
  - intros R1 HR1.
    destruct (alpha_abs_value R1 amp sigma Hs HR1) as (v & l & -> & -> & _). reflexivity.
  - destruct (d_alpha_dr_value R0 amp sigma Hs HR) as (v & l & -> & -> & _).
    exists (d_alpha_closed amp sigma R0). split; [reflexivity |].
    now apply alpha_closed_derivative.
Qed.

Lemma d_alpha_dr_is_derivative_witness :
  0 < 1 /\ 2 <> 0 /\
  exists d, value (d_alpha_dr 2 3 1 1) = Some d /\ derivable_pt_lim (alpha_closed 3 1) 2 d.
Proof.
  split; [lra |]. split; [lra |]. apply (d_alpha_dr_is_derivative 2 3 1); lra.
Defined.

(** ** Projected mass *)

(** X4.  [mass_2d_lens] is the projected mass inside radius [R] of a Gaussian
    whose total projected mass is [amp]: it is [amp (1 - exp(-R^2/(2
    sigma^2)))], so for [amp >= 0] it vanishes at [R = 0], grows with
    [|R|] and never exceeds [amp]. *)
Theorem mass_2d_lens_enclosed (R1 R2 amp sigma : R) :
  0 < sigma -> 0 <= amp -> Rabs R1 <= Rabs R2 ->
  exists m0 m1 m2,
    value (mass_2d_lens 0 amp sigma) = Some m0 /\
    value (mass_2d_lens R1 amp sigma) = Some m1 /\
    value (mass_2d_lens R2 amp sigma) = Some m2 /\
    m0 = 0 /\ 0 <= m1 <= m2 /\ m2 <= amp /\
    m2 = amp * (1 - exp (- (1 / (2 * sigma * sigma)) * R2 ^ 2)).
Proof.
  intros Hs Ha HR.
  destruct (mass_2d_lens_value 0 amp sigma Hs) as (m0 & l0 & -> & -> & _).
  destruct (mass_2d_lens_value R1 amp sigma Hs) as (m1 & l1 & -> & -> & _).
  destruct (mass_2d_lens_value R2 amp sigma Hs) as (m2 & l2 & -> & -> & _).
  exists (amp * (1 - gauss sigma 0)), (amp * (1 - gauss sigma R1)),
         (amp * (1 - gauss sigma R2)).
  repeat split; try reflexivity.
  - rewrite gauss_at_0. ring.
  - pose proof (gauss_range sigma R1 Hs). nra.
  - pose proof (gauss_decreasing sigma R1 R2 Hs HR). nra.
  - pose proof (gauss_range sigma R2 Hs). nra.
Qed.

Lemma mass_2d_lens_enclosed_witness :
  exists m0 m1 m2,
    value (mass_2d_lens 0 3 1) = Some m0 /\
    value (mass_2d_lens 1 3 1) = Some m1 /\
    value (mass_2d_lens (-2) 3 1) = Some m2 /\
    m0 = 0 /\ 0 <= m1 <= m2 /\ m2 <= 3 /\
    m2 = 3 * (1 - exp (- (1 / (2 * 1 * 1)) * (-2) ^ 2)).
Proof.
  apply (mass_2d_lens_enclosed 1 (-2) 3 1); [lra | lra |].
  rewrite Rabs_R1. unfold Rabs. destruct (Rcase_abs (-2)); lra.
Defined.

(** ** Deflection *)

Lemma py_max_above (r : R) : ds <= r -> py_max r ds = r.
Proof. intros H. unfold py_max. destruct (Rlt_dec r ds); [lra | reflexivity]. Qed.

Lemma py_max_below (r : R) : r <= ds -> py_max r ds = ds.
Proof. intros H. unfold py_max. destruct (Rlt_dec r ds); [reflexivity | lra]. Qed.

Lemma derivatives_at_value (x_ y_ R0 amp s : R) :
  0 < s -> R0 <> 0 ->
  succeeds (fun v => v = (alpha_closed amp s R0 / R0 * x_, alpha_closed amp s R0 / R0 * y_))
           nonzero (derivatives_at x_ y_ R0 amp s).
Proof.
  intros Hs HR. unfold derivatives_at.
  eapply succeeds_bind; [apply alpha_abs_value; assumption |]. intros a ->.
  eapply succeeds_bind; [apply succeeds_div_nz, HR |]. intros qx ->.
  eapply succeeds_bind; [apply succeeds_div_nz, HR |]. intros qy ->.
  now apply succeeds_ret.
Qed.

(** X5.  Outside the floored disc the deflection [derivatives] returns points
    along the radius and has the length [alpha_abs] gives: with
    [R = sqrt(x_^2 + y_^2) >= ds], the result is [(a x_ / R, a y_ / R)]
    for the value [a] of [alpha_abs R], so [f_x^2 + f_y^2 = a^2] and
    [f_x y_ = f_y x_]. *)
Theorem derivatives_radial (x y amp sigma cx cy : R) :
  0 < sigma -> ds <= sqrt ((x - cx) ^ 2 + (y - cy) ^ 2) ->
  exists a fx fy,
    value (alpha_abs (sqrt ((x - cx) ^ 2 + (y - cy) ^ 2)) amp sigma) = Some a /\
    value (derivatives x y amp sigma cx cy) = Some (fx, fy) /\
    fx ^ 2 + fy ^ 2 = a ^ 2 /\ fx * (y - cy) = fy * (x - cx).
Proof.
  intros Hs Hr. pose proof ds_pos as Hds.
  set (r := sqrt ((x - cx) ^ 2 + (y - cy) ^ 2)) in *.
  assert (HR : r <> 0) by lra.
  assert (Hsq : (x - cx) ^ 2 + (y - cy) ^ 2 = r ^ 2).
  { unfold r. rewrite pow2_sqrt; [reflexivity |].
    pose proof (pow2_ge_0 (x - cx)). pose proof (pow2_ge_0 (y - cy)). lra. }
  destruct (alpha_abs_value r amp sigma Hs HR) as (a & l & Ea & -> & _).
  assert (Ed : derivatives x y amp sigma cx cy
               = derivatives_at (x - cx) (y - cy) r amp sigma).
  { unfold derivatives. fold r. now rewrite py_max_above. }
  destruct (derivatives_at_value (x - cx) (y - cy) r amp sigma Hs HR)
    as (v & l' & Ev & -> & _).
  eexists _, _, _. rewrite Ea, Ed, Ev. cbn [value].
  split; [reflexivity |]. split; [reflexivity |].
  set (a := alpha_closed amp sigma r). split.
  - transitivity (a ^ 2 * ((x - cx) ^ 2 + (y - cy) ^ 2) / r ^ 2); [field; exact HR |].
    rewrite Hsq. field. exact HR.
  - field. exact HR.
Qed.

Lemma derivatives_radial_witness :
  exists a fx fy,
    value (alpha_abs (sqrt ((3 - 0) ^ 2 + (4 - 0) ^ 2)) 1 1) = Some a /\
    value (derivatives 3 4 1 1 0 0) = Some (fx, fy) /\
    fx ^ 2 + fy ^ 2 = a ^ 2 /\ fx * (4 - 0) = fy * (3 - 0).
Proof.
  apply (derivatives_radial 3 4 1 1 0 0); [lra |].
  replace ((3 - 0) ^ 2 + (4 - 0) ^ 2) with (5 ^ 2) by ring.
  rewrite sqrt_pow2 by lra. unfold ds. lra.
Defined.

(** X6.  At the centre of the lens the deflection is exactly zero: the floored
    radius only enters through the factor [alpha / R], which is
    multiplied by [x_ = 0] and [y_ = 0]. *)
Theorem derivatives_zero_at_center (amp sigma cx cy : R) :
  0 < sigma -> value (derivatives cx cy amp sigma cx cy) = Some (0, 0).
Proof.
  intros Hs. pose proof ds_pos as Hds.
  unfold derivatives. rewrite radius_at_center, py_max_below by lra.
  destruct (derivatives_at_value (cx - cx) (cy - cy) ds amp sigma Hs) as (v & l & -> & -> & _);
    [lra |].
  cbn [value]. f_equal. f_equal; ring.
Qed.

Lemma derivatives_zero_at_center_witness :
  0 < 2 /\ value (derivatives 1 3 5 2 1 3) = Some (0, 0).
Proof. split; [lra |]. apply (derivatives_zero_at_center 5 2 1 3). lra. Defined.

(** ** Curvature *)

Lemma hessian_at_value (x_ y_ r amp s : R) :
  0 < s -> r <> 0 ->
  let d := d_alpha_closed amp s r in
  let a := alpha_closed amp s r in
  succeeds (fun v => v = ((d - a / r) * x_ ^ 2 / r ^ 2 + a / r,
                          (d - a / r) * x_ * y_ / r ^ 2,
                          (d - a / r) * x_ * y_ / r ^ 2,
                          (d - a / r) * y_ ^ 2 / r ^ 2 + a / r))
           nonzero (hessian_at x_ y_ r amp s).
Proof.
  intros Hs HR d a. unfold hessian_at.
  assert (HR2 : r ^ 2 <> 0) by (apply pow_nonzero, HR).
  eapply succeeds_bind; [apply d_alpha_dr_value; assumption |]. intros d0 ->. fold d.
  eapply succeeds_bind; [apply alpha_abs_value; assumption |]. intros a0 ->. fold a.
  eapply succeeds_bind; [apply succeeds_div_nz, HR |]. intros a1 ->.
  eapply succeeds_bind; [apply succeeds_div_nz, HR2 |]. intros a2 ->.
  eapply succeeds_bind; [apply succeeds_div_nz, HR |]. intros a3 ->.
  eapply succeeds_bind; [apply succeeds_div_nz, HR |]. intros a4 ->.
  eapply succeeds_bind; [apply succeeds_div_nz, HR |]. intros b1 ->.
  eapply succeeds_bind; [apply succeeds_div_nz, HR2 |]. intros b2 ->.
  eapply succeeds_bind; [apply succeeds_div_nz, HR |]. intros b3 ->.
  eapply succeeds_bind; [apply succeeds_div_nz, HR |]. intros b4 ->.
  eapply succeeds_bind; [apply succeeds_div_nz, HR |]. intros c1 ->.
  eapply succeeds_bind; [apply succeeds_div_nz, HR2 |]. intros c2 ->.
  eapply succeeds_bind; [apply succeeds_div_nz, HR |]. intros fxy ->.
  apply succeeds_ret.
  f_equal; [f_equal; [f_equal |] |]; field; exact HR.
Qed.

Lemma curl_plus_slope (amp s r : R) :
  0 < s -> r <> 0 ->
  d_alpha_closed amp s r + alpha_closed amp s r / r = 2 * kappa amp s r.
Proof.
  intros Hs HR. pose proof PI_RGT_0 as Hpi.
  unfold d_alpha_closed, alpha_closed, kappa, c_of.
  field. repeat split; lra.
Qed.

(** X7.  Outside the floored disc the Hessian is symmetric and its trace is
    twice the convergence of a Gaussian of total mass [amp]:
    [f_xx + f_yy = amp / (pi sigma^2) * exp(-R^2 / (2 sigma^2))]. *)
Theorem hessian_trace (x y amp sigma cx cy : R) :
  0 < sigma -> ds <= sqrt ((x - cx) ^ 2 + (y - cy) ^ 2) ->
  exists fxx fxy fyx fyy,
    value (hessian x y amp sigma cx cy) = Some (fxx, fxy, fyx, fyy) /\
    fxy = fyx /\
    fxx + fyy = amp / (PI * sigma * sigma)
                * exp (- (1 / (2 * sigma * sigma)) * ((x - cx) ^ 2 + (y - cy) ^ 2)).
Proof.
  intros Hs Hr. pose proof ds_pos as Hds. pose proof PI_RGT_0 as Hpi.
  set (r := sqrt ((x - cx) ^ 2 + (y - cy) ^ 2)) in *.
  assert (HR : r <> 0) by lra.
  assert (Hsq : (x - cx) ^ 2 + (y - cy) ^ 2 = r ^ 2).
  { unfold r. rewrite pow2_sqrt; [reflexivity |].
    pose proof (pow2_ge_0 (x - cx)). pose proof (pow2_ge_0 (y - cy)). lra. }
  assert (Eh : hessian x y amp sigma cx cy = hessian_at (x - cx) (y - cy) r amp sigma).
  { unfold hessian. fold r. now rewrite py_max_above. }
  destruct (hessian_at_value (x - cx) (y - cy) r amp sigma Hs HR) as (v & l & Ev & -> & _).
  eexists _, _, _, _. rewrite Eh, Ev. cbn [value].
  split; [reflexivity |]. split; [reflexivity |].
  set (d := d_alpha_closed amp sigma r). set (a := alpha_closed amp sigma r).
  transitivity ((d - a / r) * ((x - cx) ^ 2 + (y - cy) ^ 2) / r ^ 2 + 2 * (a / r));
    [field; exact HR |].
  rewrite Hsq.
  transitivity (d + a / r); [field; exact HR |].
  unfold d, a. rewrite curl_plus_slope by assumption.
  unfold kappa, gauss, c_of. field. lra.
Qed.

Lemma hessian_trace_witness :
  exists fxx fxy fyx fyy,
    value (hessian 3 4 1 1 0 0) = Some (fxx, fxy, fyx, fyy) /\
    fxy = fyx /\
    fxx + fyy = 1 / (PI * 1 * 1)
                * exp (- (1 / (2 * 1 * 1)) * ((3 - 0) ^ 2 + (4 - 0) ^ 2)).
Proof.
  apply (hessian_trace 3 4 1 1 0 0); [lra |].
  replace ((3 - 0) ^ 2 + (4 - 0) ^ 2) with (5 ^ 2) by ring.
  rewrite sqrt_pow2 by lra. unfold ds. lra.
Defined.

(** X8.  At the centre of the lens the Hessian is a multiple of the identity:
    the mixed terms vanish and both diagonal terms are [alpha / R] at the
    floored radius [R = ds]. *)
Theorem hessian_isotropic_at_center (amp sigma cx cy : R) :
  0 < sigma ->
  exists a, value (alpha_abs ds amp sigma) = Some a /\
            value (hessian cx cy amp sigma cx cy) = Some (a / ds, 0, 0, a / ds).
Proof.
  intros Hs. pose proof ds_pos as Hds.
  assert (HR : ds <> 0) by lra.
  destruct (alpha_abs_value ds amp sigma Hs HR) as (a & l & -> & -> & _).
  exists (alpha_closed amp sigma ds). split; [reflexivity |].
  unfold hessian. rewrite radius_at_center, py_max_below by lra.
  destruct (hessian_at_value (cx - cx) (cy - cy) ds amp sigma Hs HR) as (v & l' & -> & -> & _).
  cbn [value]. f_equal.
  f_equal; [f_equal; [f_equal |] |]; field; exact HR.
Qed.

Lemma hessian_isotropic_at_center_witness :
  0 < 2 /\
  exists a, value (alpha_abs ds 5 2) = Some a /\
            value (hessian 1 3 5 2 1 3) = Some (a / ds, 0, 0, a / ds).
Proof. split; [lra |]. apply (hessian_isotropic_at_center 5 2 1 3). lra. Defined.

(** ** Arrays and scalars *)

Lemma floor_entry_py_max (r : R) : floor_entry r = py_max r ds.
Proof.
  unfold floor_entry, py_max.
  destruct (Rle_dec r ds), (Rlt_dec r ds); try reflexivity; lra.
Qed.

Lemma mapM_ext {A B : Type} (f g : A -> Checked B) (l : list A) :
  (forall a, f a = g a) -> mapM f l = mapM g l.
Proof. intros H. induction l as [| a l IH]; [reflexivity |]. cbn [mapM]. now rewrite H, IH. Qed.

(** X9.  The two ways the radius is floored, [max(R, ds)] on a scalar and the
    mask [R[R <= ds] = ds] on an array, agree: on an array, [derivatives]
    and [hessian] compute entry by entry what they compute on the scalar
    entries, with the same divisions in the same order. *)
Theorem array_branch_agrees (xy : list (R * R)) (amp sigma cx cy : R) :
  derivatives_array xy amp sigma cx cy
  = mapM (fun p => derivatives (fst p) (snd p) amp sigma cx cy) xy /\
  hessian_array xy amp sigma cx cy
  = mapM (fun p => hessian (fst p) (snd p) amp sigma cx cy) xy.
Proof.
  split.
  - apply mapM_ext. intros p. unfold derivatives. now rewrite floor_entry_py_max.
  - apply mapM_ext. intros p. unfold hessian. now rewrite floor_entry_py_max.
Qed.

(** ** Potential *)

Lemma potential_prefactor_value (amp s : R) :
  0 < s ->
  succeeds (fun v => v = amp / PI) nonzero (potential_prefactor amp s s (1 / (2 * s * s))).
Proof.
  intros Hs. pose proof PI_RGT_0 as Hpi.
  pose proof (scale_sq s Hs) as Hk. pose proof (scale_nz s Hs) as Hn.
  unfold potential_prefactor.
  eapply succeeds_bind; [unfold _amp2d_to_3d; apply succeeds_div_nz, Hn |]. intros a3 ->.
  eapply succeeds_bind; [apply succeeds_div_nz, Hn |]. intros a2 ->.
  eapply succeeds_bind.
  { apply succeeds_div_nz.
    assert (0 < 1 / (2 * s * s)) by (apply Rdiv_lt_0_compat; nra). lra. }
  intros t ->. apply succeeds_ret.
  set (k := sqrt PI * sqrt (s * s * 2)) in *.
  transitivity (amp / (k * k) * (2 * s * s)); [field; repeat split; solve [lra | exact Hn] |].
  rewrite Hk. field. repeat split; lra.
Qed.

Lemma function_value (quad : (R -> R) -> R -> R -> R) (x y amp s cx cy : R) :
  0 < s ->
  succeeds (fun v => v = _num_integral quad (sqrt ((x - cx) ^ 2 + (y - cy) ^ 2))
                                       (1 / (2 * s * s)) * (amp / PI))
           nonzero (function quad x y amp s cx cy).
Proof.
  intros Hs. unfold function.
  eapply succeeds_bind; [apply succeeds_div_nz; nra |]. intros c ->.
  eapply succeeds_bind; [apply potential_prefactor_value, Hs |]. intros p ->.
  now apply succeeds_ret.
Qed.

(** X10.  The potential is the numerical integral times [amp / pi]: the two
    amplitude conversions and the factor [2 / (2 c)] cancel the
    dependence of the prefactor on [sigma]. *)
Theorem function_prefactor (quad : (R -> R) -> R -> R -> R) (x y amp sigma cx cy : R) :
  0 < sigma ->
  value (function quad x y amp sigma cx cy)
  = Some (_num_integral quad (sqrt ((x - cx) ^ 2 + (y - cy) ^ 2)) (1 / (2 * sigma * sigma))
          * (amp / PI)).
Proof.
  intros Hs.
  destruct (function_value quad x y amp sigma cx cy Hs) as (v & l & -> & -> & _).
  reflexivity.
Qed.

Lemma function_prefactor_witness :
  0 < 1 /\
  value (function (fun _ _ _ => 7) 3 4 2 1 0 0)
  = Some (_num_integral (fun _ _ _ => 7) (sqrt ((3 - 0) ^ 2 + (4 - 0) ^ 2)) (1 / (2 * 1 * 1))
          * (2 / PI)).
Proof. split; [lra |]. apply (function_prefactor (fun _ _ _ => 7) 3 4 2 1 0 0). lra. Defined.

(** X11.  On an array, [function] returns, entry by entry, what it returns on
    the scalar entries: one numerical integral per position, times the
    same prefactor. *)
Theorem function_array_agrees (quad : (R -> R) -> R -> R -> R) (xy : list (R * R))
        (amp sigma cx cy : R) :
  0 < sigma ->
  exists vs, value (function_array quad xy amp sigma cx cy) = Some vs /\
    Forall2 (fun p v => value (function quad (fst p) (snd p) amp sigma cx cy) = Some v) xy vs.
Proof.
  intros Hs.
  assert (H : succeeds
                (fun vs => vs = map (fun p => _num_integral quad
                                      (sqrt ((fst p - cx) ^ 2 + (snd p - cy) ^ 2))
                                      (1 / (2 * sigma * sigma)) * (amp / PI)) xy)
                nonzero (function_array quad xy amp sigma cx cy)).
  { unfold function_array.
    eapply succeeds_bind; [apply succeeds_div_nz; nra |]. intros c ->.
    eapply succeeds_bind; [apply potential_prefactor_value, Hs |]. intros p ->.
    apply succeeds_ret. now rewrite !List.map_map. }
  destruct H as (vs & l & -> & -> & _). eexists. split; [reflexivity |].
  induction xy as [| p xy IH]; constructor; [| exact IH].
  destruct (function_value quad (fst p) (snd p) amp sigma cx cy Hs) as (v & l' & -> & -> & _).
  reflexivity.
Qed.

Lemma function_array_agrees_witness :
  exists vs, value (function_array (fun _ _ _ => 7) [(3, 4); (0, 0)] 2 1 0 0) = Some vs /\
    Forall2 (fun p v => value (function (fun _ _ _ => 7) (fst p) (snd p) 2 1 0 0) = Some v)
            [(3, 4); (0, 0)] vs.
Proof. apply (function_array_agrees (fun _ _ _ => 7) [(3, 4); (0, 0)] 2 1 0 0). lra. Defined.

End GaussianExtra.

(** * More on the matching of solved positions *)

Module MatcherExtra.

Import PointSourceModel.
Import PointSourceSpec.
Import MatcherSpec.
Local Open Scope list_scope.

(** [heads_closest os ps]: the points [ps] are in the order in which the
    matching takes them: the first one is a closest one to the first
    original, the second a closest of the others to the second original,
    and so on, for as many points as there are originals. *)
Fixpoint heads_closest (os ps : list (Q * Q)) : Prop :=
  match os, ps with
  | [], _ => True
  | o :: os', p :: ps' =>
      Forall (fun q => (dist2 o p <= dist2 o q)%Q) ps' /\ heads_closest os' ps'
  | _ :: _, [] => False
  end.

Lemma square_nonneg (q : Q) : (0 <= q * q)%Q.
Proof.
  destruct (Qlt_le_dec q 0) as [H | H].
  - assert (E : (q * q == (- q) * (- q))%Q) by ring.
    assert (Hn : (0 <= - q)%Q) by (apply (Qopp_le_compat q 0), Qlt_le_weak, H).
    rewrite E. now apply Qmult_le_0_compat.
  - now apply Qmult_le_0_compat.
Qed.

Lemma dist2_self (o p : Q * Q) : (dist2 o o <= dist2 o p)%Q.
Proof.
  unfold dist2. simpl.
  assert (E : ((o.1 - o.1) * (o.1 - o.1) + (o.2 - o.2) * (o.2 - o.2) == 0 + 0)%Q) by ring.
  rewrite E. apply Qplus_le_compat; apply square_nonneg.
Qed.

Lemma heads_closest_self (l : list (Q * Q)) : heads_closest l l.
Proof.
  induction l as [| o l IH]; simpl; [exact I |].
  split; [| exact IH]. apply Forall_forall. intros q _. apply dist2_self.
Qed.

Lemma argmin_from_head (l : list Q) :
  forall (bi : nat) (b : Q) (i : nat),
  Forall (fun w => (b <= w)%Q) l -> argmin_from bi b i l = bi.
Proof.
  induction l as [| v l IH]; intros bi b i H; simpl; [reflexivity |].
  inversion H as [| ? ? Hv Hl]; subst.
  apply Qlt_bool_false in Hv. rewrite Hv. now apply IH.
Qed.

Lemma r2_zip (x y : Q) (xs ys : list Q) :
  length xs = length ys -> r2 x y xs ys = Ok (dist2 (x, y) <$> zip xs ys).
Proof.
  intros Hlen. unfold r2, np_add. rewrite !length_map.
  destruct (decide (length xs = length ys)) as [_ | H]; [| contradiction].
  f_equal. revert ys Hlen.
  induction xs as [| u xs IH]; intros [| w ys] Hlen; simpl in *; try reflexivity; try lia.
  apply (f_equal2 cons); [reflexivity |]. apply IH. lia.
Qed.

Lemma zip_pick (xs ys : list Q) (idx : list nat) :
  zip (pick xs idx) (pick ys idx) = point xs ys <$> idx.
Proof.
  unfold pick. induction idx as [| j idx IH]; [reflexivity |].
  rewrite !fmap_cons. simpl. now rewrite IH.
Qed.

Lemma pick_app (l : list Q) (a b : list nat) : pick l (a ++ b) = pick l a ++ pick l b.
Proof. unfold pick. apply fmap_app. Qed.

(** When the solved points already are in matching order, the loop takes
    them from the front. *)
Lemma sort_loop_heads (y_o : list Q) (xo_rest : list Q) :
  forall (i : nat) (xn yn xs ys : list Q),
  (i + length xo_rest)%nat = length y_o ->
  length xs = length ys ->
  heads_closest (zip xo_rest (drop i y_o)) (zip xs ys) ->
  sort_loop xo_rest y_o i xn yn xs ys
  = Ok (xn ++ take (length xo_rest) xs, yn ++ take (length xo_rest) ys,
        drop (length xo_rest) xs, drop (length xo_rest) ys).
Proof.
  induction xo_rest as [| x xo_rest IH]; intros i xn yn xs ys Hy Hlen Hh.
  - simpl. now rewrite !app_nil_r, !drop_0.
  - simpl in Hy.
    destruct (getitem_lt y_o i) as (y & Ey & Ly); [lia |].
    rewrite (drop_S _ _ _ Ly) in Hh.
    destruct xs as [| u xs]; destruct ys as [| w ys]; simpl in Hlen, Hh;
      try contradiction; try lia.
    destruct Hh as [Hmin Hrest].
    cbn [sort_loop]. rewrite Ey. cbn [rbind].
    rewrite r2_zip by (simpl; lia). cbn [rbind].
    cbn [zip_with]. rewrite fmap_cons. cbn [np_argmin].
    rewrite argmin_from_head by (apply Forall_fmap; exact Hmin).
    cbn [rbind getitem lookup list_lookup]. cbn.
    unfold np_delete. cbn [length].
    destruct (decide (0 < S (length xs))%nat) as [_ | H]; [| lia].
    destruct (decide (0 < S (length ys))%nat) as [_ | H]; [| lia].
    cbn [rbind delete list_delete].
    rewrite IH by (try lia; assumption).
    now rewrite <- !app_assoc.
Qed.

(** The output of the matching is in matching order. *)
Lemma greedy_match_heads pt os pool chosen rest :
  greedy_match pt os pool chosen rest -> heads_closest os (pt <$> (chosen ++ rest)).
Proof.
  induction 1 as [pool | o os pre j post chosen rest Hmin _ Hg IH]; [exact I |].
  rewrite <- app_comm_cons, fmap_cons. cbn [heads_closest]. split; [| exact IH].
  apply Forall_fmap, Forall_forall. intros j' Hj'. simpl.
  apply Hmin.
  destruct (greedy_match_facts _ _ _ _ _ Hg) as (_ & Hperm & _).
  rewrite Hperm in Hj'. rewrite elem_of_app in *. rewrite elem_of_cons. tauto.
Qed.

Lemma sort_of_heads (x_o y_o xs ys : list Q) :
  length x_o = length y_o -> length xs = length ys ->
  (length x_o <= length xs)%nat ->
  heads_closest (zip x_o y_o) (zip xs ys) ->
  _sort_position_by_original x_o y_o xs ys = Ok (xs, ys).
Proof.
  intros Ho Hs Hle Hh. unfold _sort_position_by_original.
  destruct (decide (length xs < length x_o)%nat); [lia |].
  rewrite sort_loop_heads; [| simpl; lia | exact Hs | now rewrite drop_0].
  cbn [rbind app]. now rewrite !take_drop.
Qed.

(** X12.  Matching positions against themselves changes nothing: every point
    is at distance zero from itself, and on a tie the first of the closest
    points is taken. *)
Theorem sort_position_by_original_self (x y : list Q) :
  length x = length y -> _sort_position_by_original x y x y = Ok (x, y).
Proof.
  intros H. apply sort_of_heads; [exact H | exact H | lia | apply heads_closest_self].
Qed.

Lemma sort_position_by_original_self_witness :
  _sort_position_by_original [1%Q; 1%Q; 0%Q] [2%Q; 2%Q; 5%Q] [1%Q; 1%Q; 0%Q] [2%Q; 2%Q; 5%Q]
  = Ok ([1%Q; 1%Q; 0%Q], [2%Q; 2%Q; 5%Q]).
Proof.
  exact (sort_position_by_original_self [1%Q; 1%Q; 0%Q] [2%Q; 2%Q; 5%Q] eq_refl).
Defined.

(** X13.  [_sort_position_by_original] is idempotent: matching its own output
    against the same original positions gives that output again. *)
Theorem sort_position_by_original_idempotent (x_o y_o x_solved y_solved xs ys : list Q) :
  length x_o = length y_o ->
  length x_solved = length y_solved ->
  _sort_position_by_original x_o y_o x_solved y_solved = Ok (xs, ys) ->
  _sort_position_by_original x_o y_o xs ys = Ok (xs, ys).
Proof.
  intros Ho Hs Hrun. unfold _sort_position_by_original in Hrun.
  destruct (decide (length x_solved < length x_o)%nat) as [Hlt | Hge].
  - inversion Hrun; subst.
    apply sort_of_heads; [exact Ho | exact Ho | lia | apply heads_closest_self].
  - destruct (sort_loop_spec x_solved y_solved y_o x_o 0 [] [] (seq 0 (length x_solved)))
      as (chosen & rest & Hg & Hloop).
    { simpl. lia. }
    { rewrite length_seq. lia. }
    rewrite drop_0 in Hg. rewrite pick_seq in Hloop.
    replace (pick y_solved (seq 0 (length x_solved))) with y_solved in Hloop
      by (rewrite Hs; symmetry; apply pick_seq).
    rewrite Hloop in Hrun. cbn [rbind app] in Hrun. inversion Hrun; subst xs ys. clear Hrun.
    destruct (greedy_match_facts _ _ _ _ _ Hg) as (Hlen & Hperm & _).
    rewrite length_zip_with_l_eq in Hlen by exact Ho.
    assert (Hall : length (chosen ++ rest) = length x_solved).
    { rewrite Hperm. apply length_seq. }
    rewrite <- !pick_app.
    apply sort_of_heads.
    + exact Ho.
    + unfold pick. now rewrite !length_fmap.
    + unfold pick. rewrite length_fmap. lia.
    + rewrite zip_pick. now apply greedy_match_heads with (pool := seq 0 (length x_solved)).
Qed.

Lemma sort_position_by_original_idempotent_witness :
  _sort_position_by_original [0%Q; 10%Q] [0%Q; 10%Q] [0%Q; 10%Q; 5%Q] [0%Q; 10%Q; 5%Q]
  = Ok ([0%Q; 10%Q; 5%Q], [0%Q; 10%Q; 5%Q]).
Proof.
  exact (sort_position_by_original_idempotent
           [0%Q; 10%Q] [0%Q; 10%Q] [10%Q; 0%Q; 5%Q] [10%Q; 0%Q; 5%Q]
           [0%Q; 10%Q; 5%Q] [0%Q; 10%Q; 5%Q] eq_refl eq_refl eq_refl).
Defined.

End MatcherExtra.

(** * More on construction *)

Module ConstructionExtra.

Import PointSourceModel.
Import PointSourceSpec.
Import LinearSpec.
Local Open Scope string_scope.
Local Open Scope list_scope.

Section Construction.

Context {LensModel : Type}.

Variable LensedPositions_init :
  option LensModel -> bool -> bool -> option (list (list nat)) -> option (list nat) ->
  option Q -> result unit.
Variable SourcePositions_init : option LensModel -> bool -> option Q -> result unit.

Lemma default_list_None {A : Type} (v : A) (n : nat) :
  Forall (eq v) (default_list None v n).
Proof. simpl. apply Forall_replicate. reflexivity. Qed.

(** The loop of [__init__] over unlensed sources reads none of the
    per-source lists. *)
Lemma init_loop_unlensed (lens_model : option LensModel) (save_cache : bool)
      fixed additional index frames redshift (models : list string) :
  Forall (eq "UNLENSED") models ->
  forall (i : nat) (acc : list (PointSourceCached LensModel)),
  init_loop (init_model LensedPositions_init SourcePositions_init lens_model save_cache fixed additional index frames redshift)
            models i acc
  = Ok (acc ++ replicate (length models)
                         {| cached_model := Unlensed; cached_save_cache := save_cache |}).
Proof.
  induction 1 as [| t models <- _ IH]; intros i acc; simpl.
  - now rewrite app_nil_r.
  - rewrite IH, <- app_assoc. reflexivity.
Qed.

Lemma unlensed_no_lensed (models : list string) :
  Forall (eq "UNLENSED") models -> ~ "LENSED_POSITION" ∈ models.
Proof.
  intros H Hin. rewrite Forall_forall in H. specialize (H _ Hin). discriminate.
Qed.

(** X14.  An object that [__init__] returns, from optional lists of the
    documented length, satisfies what the methods rely on: one flag of
    each kind and one wrapper per declared source, every type supported,
    the wrappers of the declared types in declaration order; and the
    flags that were left out have their defaults: flux from every point
    source, no fixed magnification. *)
Theorem init_establishes_consistency (cfg : Config LensModel) (self : PointSource LensModel) :
  lengths_agree cfg ->
  (forall l, arg_flux_from_point_source_list cfg = Some l ->
             length l = length (arg_point_source_type_list cfg)) ->
  __init__ LensedPositions_init SourcePositions_init cfg = Ok self ->
  consistent self /\
  Forall supported (point_source_type_list self) /\
  map model_kind (_point_source_list self) = point_source_type_list self /\
  (arg_flux_from_point_source_list cfg = None ->
   Forall (eq true) (_flux_from_point_source_list self)) /\
  (arg_fixed_magnification_list cfg = None ->
   Forall (eq false) (_fixed_magnification_list self)).
Proof.
  intros Hwf Hflux Hinit.
  destruct (init_consistent _ _ cfg self Hwf Hflux Hinit) as [Hc Hs].
  split; [exact Hc |]. split; [exact Hs |].
  apply init_Ok_inv in Hinit as (_ & _ & Ht & Hk & _ & Hfx & Hfl).
  split; [now rewrite Ht |].
  split.
  - intros E. rewrite Hfl, E. apply default_list_None.
  - intros E. rewrite Hfx, E. apply default_list_None.
Qed.

(** X15.  A type list of unlensed sources only can always be constructed,
    whatever the optional lists are (none of them is read): the object
    holds one unlensed wrapper per source. *)
Theorem init_unlensed_only (cfg : Config LensModel) :
  Forall (eq "UNLENSED") (arg_point_source_type_list cfg) ->
  exists self, __init__ LensedPositions_init SourcePositions_init cfg = Ok self /\
    _point_source_list self
    = replicate (length (arg_point_source_type_list cfg))
                {| cached_model := Unlensed; cached_save_cache := arg_save_cache cfg |} /\
    point_source_type_list self = arg_point_source_type_list cfg.
Proof.
  intros H. pose proof (unlensed_no_lensed _ H) as Hn.
  unfold __init__.
  destruct (decide ("LENSED_POSITION" ∈ arg_point_source_type_list cfg)); [contradiction |].
  cbn [rbind]. rewrite (init_loop_unlensed _ _ _ _ _ _ _ _ H). cbn [rbind app].
  eexists. split; [reflexivity |]. split; reflexivity.
Qed.

(** X16.  A per-source list that is too short is an [IndexError], not the
    configuration error: when the first source that is not unlensed is a
    lensed or a source position at a position that
    [fixed_magnification_list] does not have, and the frame list is not
    missing, [__init__] raises [IndexError]. *)
Theorem init_short_list_error (cfg : Config LensModel) (pre post : list string)
        (t : string) (l : list bool) :
  arg_point_source_type_list cfg = pre ++ t :: post ->
  Forall (eq "UNLENSED") pre ->
  t = "LENSED_POSITION" \/ t = "SOURCE_POSITION" ->
  ~ lacks_frame_list cfg ->
  arg_fixed_magnification_list cfg = Some l ->
  (length l <= length pre)%nat ->
  __init__ LensedPositions_init SourcePositions_init cfg = Raise IndexError.
Proof.
  intros Ht Hpre Hkind Hlack Hfixed Hlen.
  assert (Hget : getitem l (length pre) = Raise IndexError).
  { unfold getitem. now rewrite lookup_ge_None_2. }
  assert (Hloop : forall fixed additional index frames redshift acc,
            fixed = l ->
            init_loop (init_model LensedPositions_init SourcePositions_init (arg_lens_model cfg) (arg_save_cache cfg)
                                  fixed additional index frames redshift)
                      (pre ++ t :: post) 0 acc
            = Raise IndexError).
  { intros fixed additional index frames redshift acc ->.
    assert (G : forall rest i acc',
              init_loop (init_model LensedPositions_init SourcePositions_init (arg_lens_model cfg) (arg_save_cache cfg)
                                    l additional index frames redshift)
                        (pre ++ rest) i acc'
              = init_loop (init_model LensedPositions_init SourcePositions_init (arg_lens_model cfg) (arg_save_cache cfg)
                                      l additional index frames redshift)
                          rest (i + length pre)
                          (acc' ++ replicate (length pre)
                             {| cached_model := Unlensed;
                                cached_save_cache := arg_save_cache cfg |})).
    { clear Ht Hlen Hget. intros rest.
      induction Hpre as [| u pre <- _ IH]; intros i acc'; simpl.
      - now rewrite Nat.add_0_r, app_nil_r.
      - rewrite IH, <- app_assoc. simpl. now rewrite Nat.add_succ_r. }
    rewrite G. cbn [init_loop Nat.add]. unfold init_model.
    destruct Hkind as [-> | ->]; simpl; rewrite Hget; reflexivity. }
  unfold __init__. rewrite Ht in *. rewrite Hfixed. cbn [default_list].
  unfold lacks_frame_list in Hlack. rewrite Ht in Hlack.
  destruct (decide ("LENSED_POSITION" ∈ pre ++ t :: post)) as [Hin | Hnin].
  - destruct (arg_index_lens_model_list cfg) as [idx |] eqn:Ei;
      destruct (arg_point_source_frame_list cfg) as [fl |] eqn:Ef;
      repeat case_bool_decide; simpl; try congruence;
      try (rewrite Hloop by reflexivity; reflexivity).
    exfalso. apply Hlack. repeat split; congruence.
  - cbn [rbind]. rewrite Hloop by reflexivity. reflexivity.
Qed.

End Construction.

Lemma init_establishes_consistency_witness :
  consistent (unlensed_pair [true; false]) /\
  Forall supported (point_source_type_list (unlensed_pair [true; false])).
Proof.
  assert (Hwf : lengths_agree (pair_config [true; false])).
  { repeat split; intros l E; discriminate E. }
  assert (Hfl : forall l, arg_flux_from_point_source_list (pair_config [true; false]) = Some l ->
                          length l = length (arg_point_source_type_list
                                               (pair_config [true; false]))).
  { intros l E. inversion E. reflexivity. }
  destruct (init_establishes_consistency lensed_returns source_returns
              (pair_config [true; false])
              (unlensed_pair [true; false]) Hwf Hfl eq_refl) as (Hc & Hs & _).
  split; [exact Hc | exact Hs].
Defined.

Lemma init_unlensed_only_witness :
  exists self, __init__ lensed_returns source_returns (pair_config [true]) = Ok self /\
    _point_source_list self
    = replicate 2 {| cached_model := Unlensed; cached_save_cache := false |} /\
    point_source_type_list self = ["UNLENSED"; "UNLENSED"].
Proof.
  apply (init_unlensed_only lensed_returns source_returns (pair_config [true])).
  repeat constructor.
Defined.

(** One unlensed source and a source position, with a one-entry
    [fixed_magnification_list]. *)
Definition short_list_config : Config unit :=
  {| arg_point_source_type_list := ["UNLENSED"; "SOURCE_POSITION"];
     arg_lens_model := None;
     arg_fixed_magnification_list := Some [true];
     arg_additional_images_list := None;
     arg_flux_from_point_source_list := None;
     arg_magnification_limit := None;
     arg_save_cache := false;
     arg_kwargs_lens_eqn_solver := None;
     arg_index_lens_model_list := None;
     arg_point_source_frame_list := None;
     arg_redshift_list := None |}.

Lemma init_short_list_error_witness :
  __init__ lensed_returns source_returns short_list_config = Raise IndexError.
Proof.
  apply (init_short_list_error lensed_returns source_returns short_list_config
           ["UNLENSED"] [] "SOURCE_POSITION" [true]).
  - reflexivity.
  - repeat constructor.
  - now right.
  - intros (_ & H & _). now apply H.
  - reflexivity.
  - simpl. lia.
Defined.

End ConstructionExtra.

(** * More on the solver window, the frames and the cache *)

Module WindowExtra.

Import PointSourceModel.
Import PointSourceMore.
Import PointSourceSpec.
Import LinearSpec.
Local Open Scope string_scope.
Local Open Scope list_scope.

Section Window.

Context {LensModel : Type}.

Lemma insert_get_keeps (kw : gmap string Q) (key : string) (d : Q) (k : string) (v : Q) :
  kw !! k = Some v -> <[key := dict_get kw key d]> kw !! k = Some v.
Proof.
  intros H. unfold dict_get. destruct (decide (k = key)) as [-> | Hne].
  - rewrite H. now simplify_map_eq.
  - now simplify_map_eq.
Qed.

Lemma insert_get_id (kw : gmap string Q) (key : string) (d : Q) :
  is_Some (kw !! key) -> <[key := dict_get kw key d]> kw = kw.
Proof.
  intros [v Hv]. unfold dict_get. rewrite Hv. now apply insert_id.
Qed.

Lemma insert_get_is_Some (kw : gmap string Q) (key : string) (d : Q) :
  is_Some (<[key := dict_get kw key d]> kw !! key).
Proof. simplify_map_eq. eauto. Qed.

Lemma insert_get_mono (kw : gmap string Q) (key : string) (d : Q) (k : string) :
  is_Some (kw !! k) -> is_Some (<[key := dict_get kw key d]> kw !! k).
Proof. intros [v Hv]. exists v. now apply insert_get_keeps. Qed.

(** X17.  With [only_from_unspecified=True], [update_search_window] changes no
    entry the solver keywords already have, afterwards the three window
    keys are set, and so a second such call (without [min_distance])
    leaves the object as it is, whatever window it is given. *)
Theorem update_search_window_unspecified (self : PointSource LensModel)
        (search_window x_center y_center : Q) (min_distance : option Q) :
  let self' := update_search_window self search_window x_center y_center min_distance true in
  (forall key v, _kwargs_lens_eqn_solver self !! key = Some v ->
                 _kwargs_lens_eqn_solver self' !! key = Some v) /\
  (forall key, key ∈ ["search_window"; "x_center"; "y_center"] ->
               is_Some (_kwargs_lens_eqn_solver self' !! key)) /\
  (forall w x y, update_search_window self' w x y None true = self').
Proof.
  set (kw0 := _kwargs_lens_eqn_solver self).
  set (kw1 := match min_distance with
              | Some d => if bool_decide (kw0 !! "min_distance" = None) && true
                          then <["min_distance" := d]> kw0 else kw0
              | None => kw0
              end).
  set (kw2 := <["search_window" := dict_get kw1 "search_window" search_window]> kw1).
  set (kw3 := <["x_center" := dict_get kw2 "x_center" x_center]> kw2).
  set (kw4 := <["y_center" := dict_get kw3 "y_center" y_center]> kw3).
  assert (H01 : forall key v, kw0 !! key = Some v -> kw1 !! key = Some v).
  { intros key v H. unfold kw1. destruct min_distance as [d |]; [| exact H].
    case_bool_decide as Hm; simpl; [| exact H].
    destruct (decide (key = "min_distance")) as [-> | Hne]; [congruence |].
    now simplify_map_eq. }
  assert (Hsw : is_Some (kw4 !! "search_window")).
  { apply insert_get_mono, insert_get_mono, insert_get_is_Some. }
  assert (Hxc : is_Some (kw4 !! "x_center")).
  { apply insert_get_mono, insert_get_is_Some. }
  assert (Hyc : is_Some (kw4 !! "y_center")) by apply insert_get_is_Some.
  intros self'. change (_kwargs_lens_eqn_solver self') with kw4.
  split; [| split].
  - intros key v H. now apply insert_get_keeps, insert_get_keeps, insert_get_keeps, H01.
  - intros key Hkey. rewrite !elem_of_cons, elem_of_nil in Hkey.
    destruct Hkey as [-> | [-> | [-> | []]]]; assumption.
  - intros w x y. unfold update_search_window at 1.
    change (_kwargs_lens_eqn_solver self') with kw4. cbv zeta.
    rewrite (insert_get_id kw4 "search_window") by exact Hsw.
    rewrite (insert_get_id kw4 "x_center") by exact Hxc.
    rewrite (insert_get_id kw4 "y_center") by exact Hyc.
    reflexivity.
Qed.

(** X18.  [min_distance] is stored only by a call with
    [only_from_unspecified=True], and only when no [min_distance] was
    set before: a call with [only_from_unspecified=False] overwrites the
    window and ignores the [min_distance] it is given. *)
Theorem update_search_window_min_distance (self : PointSource LensModel)
        (search_window x_center y_center : Q) (min_distance : option Q)
        (only_from_unspecified : bool) :
  _kwargs_lens_eqn_solver
    (update_search_window self search_window x_center y_center min_distance
                          only_from_unspecified) !! "min_distance"
  = match _kwargs_lens_eqn_solver self !! "min_distance" with
    | Some v => Some v
    | None => if only_from_unspecified then min_distance else None
    end.
Proof.
  unfold update_search_window. cbn [_kwargs_lens_eqn_solver set_kwargs_lens_eqn_solver].
  destruct only_from_unspecified; simplify_map_eq.
  - destruct min_distance as [d |]; [case_bool_decide as Hm |]; simpl.
    + rewrite Hm. now simplify_map_eq.
    + destruct (_kwargs_lens_eqn_solver self !! "min_distance"); [reflexivity | contradiction].
    + destruct (_kwargs_lens_eqn_solver self !! "min_distance"); reflexivity.
  - destruct min_distance as [d |]; [rewrite andb_false_r |];
      destruct (_kwargs_lens_eqn_solver self !! "min_distance"); reflexivity.
Qed.

(** ** [k_list] *)

Lemma k_list_loop_spec (idx : list (list nat)) (frames : list nat) :
  forall (acc l : list (list nat)),
  k_list_loop idx frames acc = Ok l <->
  Forall (fun f => (f < length idx)%nat) frames /\
  l = acc ++ ((fun f => default [] (idx !! f)) <$> frames).
Proof.
  induction frames as [| f frames IH]; intros acc l; cbn [k_list_loop].
  - rewrite fmap_nil, app_nil_r. split.
    + intros H. inversion H. auto.
    + now intros [_ ->].
  - rewrite rbind_Ok. split.
    + intros (ks & Hks & H). apply getitem_Ok in Hks.
      apply IH in H as [HF ->]. split.
      * constructor; [now apply lookup_lt_Some in Hks | exact HF].
      * rewrite fmap_cons, Hks, <- app_assoc. reflexivity.
    + intros [HF ->]. inversion HF as [| ? ? Hf HF']; subst.
      destruct (lookup_lt_is_Some_2 idx f Hf) as [ks Hks].
      exists ks. split; [now apply getitem_Ok |].
      apply IH. split; [exact HF' |].
      rewrite fmap_cons, Hks, <- app_assoc. reflexivity.
Qed.

(** X19.  [k_list(k)] returns [None] for an object without
    [index_lens_model_list]; with one, it returns exactly when the frame
    list has, at position [k], a list of frames that all are positions of
    [index_lens_model_list], and then it returns the entries of
    [index_lens_model_list] at these frames, in their order. *)
Theorem k_list_returns (self : PointSource LensModel) (k : nat)
        (r : option (list (list nat))) :
  k_list self k = Ok r <->
  match _index_lens_model_list self with
  | None => r = None
  | Some idx =>
      exists frame_list frames,
        _point_source_frame_list self = Some frame_list /\
        frame_list !! k = Some (Some frames) /\
        Forall (fun f => (f < length idx)%nat) frames /\
        r = Some ((fun f => default [] (idx !! f)) <$> frames)
  end.
Proof.
  unfold k_list. destruct (_index_lens_model_list self) as [idx |].
  - rewrite rbind_Ok. split.
    + intros (fr & Hfr & H). apply rbind_Ok in H as (frames & Hframes & H).
      apply rbind_Ok in H as (l & Hl & H). inversion H; subst r.
      destruct (_point_source_frame_list self) as [frame_list |]; [| discriminate].
      apply getitem_Ok in Hfr. destruct fr as [fr |]; [| discriminate].
      inversion Hframes; subst fr.
      apply k_list_loop_spec in Hl as [HF ->].
      exists frame_list, frames. auto.
    + intros (frame_list & frames & -> & Hk & HF & ->).
      exists (Some frames). split; [now apply getitem_Ok |]. cbn [rbind].
      assert (Hl : k_list_loop idx frames []
                   = Ok ([] ++ ((fun f => default [] (idx !! f)) <$> frames))).
      { apply k_list_loop_spec. auto. }
      rewrite Hl. reflexivity.
  - split; intros H; [now inversion H | now subst].
Qed.

End Window.

(** ** The cache and the lens model *)

Section Cache.

Context {LensModel : Type}.

Variable model_set_save_cache :
  PointSourceCached LensModel -> bool -> PointSourceCached LensModel.
Variable model_delete_lens_model_cache :
  PointSourceCached LensModel -> PointSourceCached LensModel.
Variable model_update_lens_model :
  PointSourceCached LensModel -> option LensModel -> PointSourceCached LensModel.

(** What the methods of this section leave alone: the declared types and
    the flags, and the number of wrapped models. *)
Definition same_sources (self self' : PointSource LensModel) : Prop :=
  point_source_type_list self' = point_source_type_list self /\
  _flux_from_point_source_list self' = _flux_from_point_source_list self /\
  _fixed_magnification_list self' = _fixed_magnification_list self /\
  length (_point_source_list self') = length (_point_source_list self) /\
  _kwargs_lens_eqn_solver self' = _kwargs_lens_eqn_solver self /\
  _magnification_limit self' = _magnification_limit self.

Lemma same_sources_consistent (self self' : PointSource LensModel) :
  same_sources self self' -> consistent self -> consistent self'.
Proof.
  intros (Ht & Hf & Hx & Hm & _) (H1 & H2 & H3). unfold consistent.
  rewrite Ht, Hf, Hx, Hm. auto.
Qed.

Lemma same_sources_set_save_cache (self : PointSource LensModel) (b : bool) :
  same_sources self (_set_save_cache model_set_save_cache self b).
Proof. repeat split. simpl. apply length_map. Qed.

Lemma same_sources_delete (self : PointSource LensModel) :
  same_sources self (delete_lens_model_cache model_delete_lens_model_cache self).
Proof. repeat split. simpl. apply length_map. Qed.

Lemma same_sources_restore (self : PointSource LensModel) :
  same_sources self
    (restore_cache model_set_save_cache model_delete_lens_model_cache self).
Proof.
  unfold restore_cache. destruct (_save_cache self); [repeat split |].
  repeat split. simpl. now rewrite !length_map.
Qed.

(** X20.  The cache methods and [update_lens_model] keep the object usable:
    they change neither the declared types, nor the flags, nor the number
    of wrapped models, so an object that has one flag and one wrapper per
    source still has them afterwards.  [set_save_cache] sets the flag of
    the class, [_set_save_cache] does not, and [update_lens_model] stores
    the new lens model. *)
Theorem cache_methods_keep_sources (self : PointSource LensModel) (save_cache : bool)
        (lens_model_class : option LensModel) :
  consistent self ->
  let s1 := delete_lens_model_cache model_delete_lens_model_cache self in
  let s2 := _set_save_cache model_set_save_cache self save_cache in
  let s3 := set_save_cache model_set_save_cache self save_cache in
  let s4 := update_lens_model model_delete_lens_model_cache model_update_lens_model
                              self lens_model_class in
  (consistent s1 /\ consistent s2 /\ consistent s3 /\ consistent s4) /\
  (same_sources self s1 /\ same_sources self s2 /\ same_sources self s3 /\
   same_sources self s4) /\
  _save_cache s2 = _save_cache self /\
  _save_cache s3 = save_cache /\
  _lens_model s4 = lens_model_class /\
  _lens_model s1 = _lens_model self.
Proof.
  intros Hc s1 s2 s3 s4.
  assert (H1 : same_sources self s1) by apply same_sources_delete.
  assert (H2 : same_sources self s2) by apply same_sources_set_save_cache.
  assert (H3 : same_sources self s3).
  { repeat split. simpl. apply length_map. }
  assert (H4 : same_sources self s4).
  { repeat split. simpl. now rewrite !length_map. }
  split.
  { repeat split; eapply same_sources_consistent; eauto. }
  split; [auto |]. repeat split.
Qed.

End Cache.

Lemma cache_methods_keep_sources_witness :
  consistent (set_save_cache (fun m b => {| cached_model := cached_model m;
                                            cached_save_cache := b |})
                             (unlensed_pair [true; true]) true) /\
  _save_cache (set_save_cache (fun m b => {| cached_model := cached_model m;
                                             cached_save_cache := b |})
                              (unlensed_pair [true; true]) true) = true.
Proof.
  pose proof (cache_methods_keep_sources
                (fun m b => {| cached_model := cached_model m; cached_save_cache := b |})
                (fun m => m) (fun m _ => m)
                (unlensed_pair [true; true]) true None unlensed_pair_consistent) as H.
  cbv zeta in H. destruct H as ((_ & _ & H3 & _) & _ & _ & Hs & _).
  split; [exact H3 | exact Hs].
Defined.

End WindowExtra.

(** * More on the image positions *)

Module PositionsExtra.

Import PointSourceModel.
Import PointSourceMore.
Import PointSourceSpec.
Import LinearSpec.
Import MatcherSpec.
Local Open Scope string_scope.
Local Open Scope list_scope.

Section Positions.

Context {LensModel LensKwargs : Type}.

Variable model_image_position :
  PointSourceCached LensModel -> gmap string value -> LensKwargs -> option Q ->
  gmap string Q -> bool -> result (list Q * list Q).

Variable self : PointSource LensModel.

(** One round of the loop of [image_position], for a model that is
    selected: the positions appended for the model at position [i]. *)
Definition image_position_entry (h : heap) (entries : list ref) (kwargs_lens : LensKwargs)
           (original_position additional_images : bool)
           (model : PointSourceCached LensModel) (i : nat) : result (list Q * list Q) :=
  let* r := getitem entries i in
  let* kwargs := load_dict h r in
  let* '(x_image, y_image) :=
    model_image_position model kwargs kwargs_lens (_magnification_limit self)
                         (_kwargs_lens_eqn_solver self) additional_images in
  if original_position && additional_images then
    let* ty := getitem (point_source_type_list self) i in
    if decide (ty = "LENSED_POSITION") then
      let* x_o := dict_getitem kwargs "ra_image" in
      let* y_o := dict_getitem kwargs "dec_image" in
      let* x_o := py_iter x_o in
      let* y_o := py_iter y_o in
      _sort_position_by_original x_o y_o x_image y_image
    else Ok (x_image, y_image)
  else Ok (x_image, y_image).

Definition selected (k : option nat) (i : nat) : bool :=
  match k with None => true | Some k' => Nat.eqb k' i end.

Lemma image_position_loop_cons h entries kwargs_lens k orig addl model models i xl yl :
  image_position_loop model_image_position self h entries kwargs_lens k orig addl
                      (model :: models) i xl yl
  = if selected k i then
      let* '(x, y) := image_position_entry h entries kwargs_lens orig addl model i in
      image_position_loop model_image_position self h entries kwargs_lens k orig addl
                          models (S i) (xl ++ [x]) (yl ++ [y])
    else
      image_position_loop model_image_position self h entries kwargs_lens k orig addl
                          models (S i) xl yl.
Proof.
  cbn [image_position_loop]. unfold selected, image_position_entry.
  destruct (match k with None => true | Some k' => Nat.eqb k' i end); [| reflexivity].
  destruct (getitem entries i) as [r |]; [| reflexivity]. cbn [rbind].
  destruct (load_dict h r) as [kwargs |]; [| reflexivity]. cbn [rbind].
  destruct (model_image_position model kwargs kwargs_lens (_magnification_limit self)
              (_kwargs_lens_eqn_solver self) addl) as [[x y] |]; reflexivity.
Qed.

Lemma image_position_loop_after h entries kwargs_lens k orig addl models :
  forall i xl yl, (k < i)%nat ->
  image_position_loop model_image_position self h entries kwargs_lens (Some k) orig addl
                      models i xl yl
  = Ok (xl, yl).
Proof.
  induction models as [| m models IH]; intros i xl yl Hk; [reflexivity |].
  rewrite image_position_loop_cons. unfold selected.
  replace (Nat.eqb k i) with false by (symmetry; apply Nat.eqb_neq; lia).
  apply IH. lia.
Qed.

Lemma image_position_loop_select h entries kwargs_lens k orig addl models :
  forall i xl yl, (i <= k)%nat ->
  image_position_loop model_image_position self h entries kwargs_lens (Some k) orig addl
                      models i xl yl
  = match models !! (k - i)%nat with
    | Some m =>
        let* '(x, y) := image_position_entry h entries kwargs_lens orig addl m k in
        Ok (xl ++ [x], yl ++ [y])
    | None => Ok (xl, yl)
    end.
Proof.
  induction models as [| m models IH]; intros i xl yl Hk; [reflexivity |].
  rewrite image_position_loop_cons. unfold selected.
  destruct (Nat.eqb_spec k i) as [-> | Hne].
  - rewrite Nat.sub_diag. cbn [lookup list_lookup].
    destruct (image_position_entry h entries kwargs_lens orig addl m i) as [[x y] |];
      [| reflexivity].
    cbn [rbind]. apply image_position_loop_after. lia.
  - rewrite IH by lia. replace (k - i)%nat with (S (k - S i)) by lia. reflexivity.
Qed.

Lemma image_position_loop_all h entries kwargs_lens orig addl models :
  forall i xl yl xs ys,
  image_position_loop model_image_position self h entries kwargs_lens None orig addl
                      models i xl yl = Ok (xs, ys) ->
  exists xs' ys', xs = xl ++ xs' /\ ys = yl ++ ys' /\
    forall j m, models !! j = Some m ->
      exists x y, image_position_entry h entries kwargs_lens orig addl m (i + j) = Ok (x, y)
                  /\ xs' !! j = Some x /\ ys' !! j = Some y.
Proof.
  induction models as [| m models IH]; intros i xl yl xs ys H.
  - inversion H; subst. exists [], []. rewrite !app_nil_r.
    split; [reflexivity |]. split; [reflexivity |]. intros j m' Hj. discriminate.
  - rewrite image_position_loop_cons in H. cbn [selected] in H.
    apply rbind_Ok in H as ([x y] & He & H).
    apply IH in H as (xs' & ys' & -> & -> & Hall).
    exists (x :: xs'), (y :: ys'). rewrite <- !app_assoc.
    split; [reflexivity |]. split; [reflexivity |].
    intros [| j] m' Hj.
    + inversion Hj; subst m'. rewrite Nat.add_0_r. exists x, y. auto.
    + replace (i + S j)%nat with (S i + j)%nat by lia. now apply Hall.
Qed.

(** X21.  [image_position(k=k)] for an index [k] returns what the call without
    [k] returns for the source [k], as a list of one entry; for a [k]
    that is not the position of a source it returns two empty lists and
    raises nothing. *)
Theorem image_position_select (h : heap) (kwargs_ps : ref) (kwargs_lens : LensKwargs)
        (original_position additional_images : bool) (xs ys : list (list Q)) (k : nat) :
  image_position model_image_position self h kwargs_ps kwargs_lens None
                 original_position additional_images = Ok (xs, ys) ->
  ((k < length (_point_source_list self))%nat ->
   exists x y, xs !! k = Some x /\ ys !! k = Some y /\
     image_position model_image_position self h kwargs_ps kwargs_lens (Some k)
                    original_position additional_images = Ok ([x], [y])) /\
  ((length (_point_source_list self) <= k)%nat ->
   image_position model_image_position self h kwargs_ps kwargs_lens (Some k)
                  original_position additional_images = Ok ([], [])).
Proof.
  unfold image_position. intros H.
  apply rbind_Ok in H as (entries & He & H). rewrite He. cbn [rbind].
  rewrite image_position_loop_select by lia. rewrite Nat.sub_0_r.
  apply image_position_loop_all in H as (xs' & ys' & -> & -> & Hall).
  split.
  - intros Hk. destruct (lookup_lt_is_Some_2 _ _ Hk) as [m Hm]. rewrite Hm.
    destruct (Hall k m Hm) as (x & y & Hentry & Hx & Hy).
    cbn [Nat.add] in Hentry. rewrite Hentry. exists x, y. auto.
  - intros Hk. now rewrite lookup_ge_None_2.
Qed.

(** X22.  What [original_position] does for the source [k], whose wrapped
    model returns the positions [x_image], [y_image]: nothing, unless
    [additional_images] is set as well and the source is a lensed
    position; then the positions [ra_image], [dec_image] of the source's
    keywords are returned as they are when the model has found fewer
    images than they hold, and otherwise the positions the model has
    found, all of them, rearranged. *)
Theorem image_position_original (h : heap) (kwargs_ps : ref) (kwargs_lens : LensKwargs)
        (original_position additional_images : bool) (k : nat)
        (entries : list ref) (r : ref) (kwargs : gmap string value)
        (model : PointSourceCached LensModel) (ty : string) (x_image y_image : list Q) :
  lists h !! kwargs_ps = Some entries ->
  entries !! k = Some r ->
  dicts h !! r = Some kwargs ->
  _point_source_list self !! k = Some model ->
  point_source_type_list self !! k = Some ty ->
  model_image_position model kwargs kwargs_lens (_magnification_limit self)
                       (_kwargs_lens_eqn_solver self) additional_images
  = Ok (x_image, y_image) ->
  length x_image = length y_image ->
  let result := image_position model_image_position self h kwargs_ps kwargs_lens (Some k)
                               original_position additional_images in
  (original_position && additional_images = false \/ ty <> "LENSED_POSITION" ->
   result = Ok ([x_image], [y_image])) /\
  (forall x_o y_o,
     original_position && additional_images = true -> ty = "LENSED_POSITION" ->
     kwargs !! "ra_image" = Some (Array x_o) -> kwargs !! "dec_image" = Some (Array y_o) ->
     length x_o = length y_o ->
     ((length x_image < length x_o)%nat -> result = Ok ([x_o], [y_o])) /\
     ((length x_o <= length x_image)%nat ->
      exists x y, result = Ok ([x], [y]) /\ zip x y ≡ₚ zip x_image y_image)).
Proof.
  intros Hl He Hd Hm Ht Hip Hlen result.
  assert (Hres : result = let* '(x, y) := image_position_entry h entries kwargs_lens
                                            original_position additional_images model k in
                          Ok ([x], [y])).
  { unfold result, image_position, load_list. rewrite Hl. cbn [rbind].
    rewrite image_position_loop_select by lia. now rewrite Nat.sub_0_r, Hm. }
  assert (Hentry : image_position_entry h entries kwargs_lens original_position
                                        additional_images model k
                   = if original_position && additional_images then
                       if decide (ty = "LENSED_POSITION") then
                         let* x_o := dict_getitem kwargs "ra_image" in
                         let* y_o := dict_getitem kwargs "dec_image" in
                         let* x_o := py_iter x_o in
                         let* y_o := py_iter y_o in
                         _sort_position_by_original x_o y_o x_image y_image
                       else Ok (x_image, y_image)
                     else Ok (x_image, y_image)).
  { unfold image_position_entry, getitem. rewrite He. cbn [rbind].
    unfold load_dict. rewrite Hd. cbn [rbind]. rewrite Hip. cbn [rbind].
    rewrite Ht. reflexivity. }
  rewrite Hres, Hentry. clear Hres Hentry. split.
  - intros [-> | Hne]; [reflexivity |].
    destruct (original_position && additional_images); [| reflexivity].
    destruct (decide (ty = "LENSED_POSITION")); [contradiction | reflexivity].
  - intros x_o y_o -> -> Hra Hdec Ho.
    destruct (decide ("LENSED_POSITION" = "LENSED_POSITION")) as [_ | Hn]; [| contradiction].
    unfold dict_getitem. rewrite Hra, Hdec. cbn [rbind py_iter].
    split.
    + intros Hlt. unfold _sort_position_by_original.
      destruct (decide (length x_image < length x_o)%nat); [reflexivity | lia].
    + intros Hle. unfold _sort_position_by_original.
      destruct (decide (length x_image < length x_o)%nat); [lia |].
      destruct (sort_loop_spec x_image y_image y_o x_o 0 [] [] (seq 0 (length x_image)))
        as (chosen & rest & Hg & Hloop).
      { simpl. lia. }
      { rewrite length_seq. lia. }
      rewrite pick_seq in Hloop.
      replace (pick y_image (seq 0 (length x_image))) with y_image in Hloop
        by (rewrite Hlen; symmetry; apply pick_seq).
      rewrite Hloop. cbn [rbind app].
      eexists _, _. split; [reflexivity |].
      destruct (greedy_match_facts _ _ _ _ _ Hg) as (_ & Hperm & _).
      unfold pick. rewrite <- !fmap_app.
      transitivity (zip ((fun j => default 0%Q (x_image !! j)) <$> seq 0 (length x_image))
                        ((fun j => default 0%Q (y_image !! j)) <$> seq 0 (length x_image))).
      * rewrite !zip_with_fmap_l, !zip_with_fmap_r, !zip_with_diag.
        now apply fmap_Permutation.
      * fold (pick x_image (seq 0 (length x_image))).
        fold (pick y_image (seq 0 (length x_image))).
        rewrite pick_seq. rewrite Hlen. now rewrite pick_seq.
Qed.

End Positions.

(** Wrapped models that report the two images [(1, 1)] and [(0, 0)]. *)
Definition two_images (m : PointSourceCached unit) (kwargs : gmap string value)
           (kwargs_lens : unit) (magnification_limit : option Q)
           (solver : gmap string Q) (additional_images : bool)
  : result (list Q * list Q) :=
  Ok ([1%Q; 0%Q], [1%Q; 0%Q]).

(** One lensed position, every optional argument left out. *)
Definition lensed_source : PointSource unit :=
  {| _index_lens_model_list := None;
     _point_source_frame_list := Some [None];
     _lens_model := None;
     point_source_type_list := ["LENSED_POSITION"];
     _point_source_list :=
       [ {| cached_model := LensedPositions None false false None None None;
            cached_save_cache := false |} ];
     _fixed_magnification_list := [false];
     _flux_from_point_source_list := [true];
     _redshift_list := [None];
     _kwargs_lens_eqn_solver := ∅;
     _magnification_limit := None;
     _save_cache := false |}.

(** [kwargs_ps = [{'ra_image': [0, 1, 2], 'dec_image': [0, 1, 2]}]] *)
Definition three_positions : gmap string value :=
  {[ "ra_image" := Array [0%Q; 1%Q; 2%Q]; "dec_image" := Array [0%Q; 1%Q; 2%Q] ]}.

Definition lensed_heap : heap :=
  Heap {[ 1%positive := three_positions ]} {[ 1%positive := [1%positive] ]}.

Lemma image_position_select_witness :
  image_position one_image (unlensed_pair [true; true]) distinct_heap 1%positive tt
                 (Some 1%nat) false false = Ok ([[0%Q]], [[0%Q]]) /\
  image_position one_image (unlensed_pair [true; true]) distinct_heap 1%positive tt
                 (Some 5%nat) false false = Ok ([], []).
Proof.
  destruct (image_position_select one_image (unlensed_pair [true; true]) distinct_heap
              1%positive tt false false [[0%Q]; [0%Q]] [[0%Q]; [0%Q]] 1 eq_refl)
    as [H1 _].
  destruct (image_position_select one_image (unlensed_pair [true; true]) distinct_heap
              1%positive tt false false [[0%Q]; [0%Q]] [[0%Q]; [0%Q]] 5 eq_refl)
    as [_ H2].
  split.
  - destruct H1 as (x & y & Hx & Hy & H); [simpl; lia |].
    inversion Hx; inversion Hy; subst. exact H.
  - apply H2. simpl. lia.
Defined.

Lemma image_position_original_witness :
  image_position two_images lensed_source lensed_heap 1%positive tt (Some 0%nat) true true
  = Ok ([[0%Q; 1%Q; 2%Q]], [[0%Q; 1%Q; 2%Q]]).
Proof.
  destruct (image_position_original two_images lensed_source lensed_heap 1%positive tt
              true true 0 [1%positive] 1%positive three_positions
              {| cached_model := LensedPositions None false false None None None;
                 cached_save_cache := false |}
              "LENSED_POSITION" [1%Q; 0%Q] [1%Q; 0%Q]
              eq_refl eq_refl eq_refl eq_refl eq_refl eq_refl eq_refl) as [_ H].
  destruct (H [0%Q; 1%Q; 2%Q] [0%Q; 1%Q; 2%Q] eq_refl eq_refl eq_refl eq_refl eq_refl)
    as [Hlt _].
  apply Hlt. simpl. lia.
Defined.

End PositionsExtra.

(** * More on amplitudes, the flat point-source list and the linear
      response *)

Module ResponseExtra.

Import PointSourceModel.
Import PointSourceMore.
Import PointSourceSpec.
Import LinearSpec.
Import MatcherSpec.
Local Open Scope string_scope.
Local Open Scope list_scope.

(** An amplitude that [point_source_list] keeps. *)
Definition not_zero (a : Q) : Prop := ~ (a == 0)%Q.

Definition all_zero (a : list Q) : Prop := Forall (eq 0%Q) a.

Lemma all_zero_zeros {A : Type} (l : list A) : all_zero (map (fun _ => 0%Q) l).
Proof. induction l; constructor; auto. Qed.

Lemma getitem2_Ok (l : list (list Q)) (i j : nat) (a : Q) :
  getitem2 l i j = Ok a <-> exists li, l !! i = Some li /\ li !! j = Some a.
Proof.
  unfold getitem2. rewrite rbind_Ok. split.
  - intros (li & H1 & H2). exists li. split; now apply getitem_Ok.
  - intros (li & H1 & H2). exists li. split; now apply getitem_Ok.
Qed.

Section Response.

Context {LensModel LensKwargs : Type}.

Variable model_set_save_cache :
  PointSourceCached LensModel -> bool -> PointSourceCached LensModel.
Variable model_delete_lens_model_cache :
  PointSourceCached LensModel -> PointSourceCached LensModel.
Variable model_source_position :
  PointSourceCached LensModel -> gmap string value -> LensKwargs -> result (value * value).
Variable model_image_position :
  PointSourceCached LensModel -> gmap string value -> LensKwargs -> option Q ->
  gmap string Q -> bool -> result (list Q * list Q).
Variable model_image_amplitude :
  PointSourceCached LensModel -> gmap string value -> LensKwargs -> gmap string Q ->
  result (list Q).
Variable model_source_amplitude :
  PointSourceCached LensModel -> gmap string value -> LensKwargs -> result value.
Variable lens_model_magnification :
  option LensModel -> list Q -> list Q -> LensKwargs -> result (list Q).

(** ** One entry per source *)

Lemma load_dict_Ok (h : heap) (r : ref) (kw : gmap string value) :
  load_dict h r = Ok kw -> is_Some (dicts h !! r).
Proof. unfold load_dict. destruct (dicts h !! r); [eauto | discriminate]. Qed.

Lemma load_list_Ok (h : heap) (r : ref) (l : list ref) :
  load_list h r = Ok l <-> lists h !! r = Some l.
Proof.
  unfold load_list. destruct (lists h !! r); split; intros H; try discriminate; congruence.
Qed.

Lemma source_position_loop_spec h entries kwargs_lens
      (models : list (PointSourceCached LensModel)) :
  forall i xl yl xs ys,
  source_position_loop model_source_position h entries kwargs_lens models i xl yl
  = Ok (xs, ys) ->
  length xs = (length xl + length models)%nat /\
  length ys = (length yl + length models)%nat /\
  (forall j, (j < length models)%nat ->
     exists r, entries !! (i + j)%nat = Some r /\ is_Some (dicts h !! r)).
Proof.
  induction models as [| m models IH]; intros i xl yl xs ys H; simpl in H.
  - inversion H; subst. simpl.
    split; [lia |]. split; [lia |]. intros j Hj. exfalso. lia.
  - apply rbind_Ok in H as (r & Hr & H). apply getitem_Ok in Hr.
    apply rbind_Ok in H as (kw & Hkw & H). apply load_dict_Ok in Hkw.
    apply rbind_Ok in H as ([x y] & _ & H).
    apply IH in H as (Hx & Hy & Hent). rewrite length_app in Hx, Hy. simpl in *.
    repeat split; try lia.
    intros [| j] Hj.
    + exists r. now rewrite Nat.add_0_r.
    + replace (i + S j)%nat with (S i + j)%nat by lia. apply Hent. lia.
Qed.

(** X23.  When [source_position] returns, it returns one position per source,
    and [kwargs_ps] holds a dictionary for every source. *)
Theorem source_position_shape (self : PointSource LensModel) (h : heap) (kwargs_ps : ref)
        (kwargs_lens : LensKwargs) (xs ys : list value) :
  source_position model_source_position self h kwargs_ps kwargs_lens = Ok (xs, ys) ->
  length xs = length (_point_source_list self) /\
  length ys = length (_point_source_list self) /\
  exists entries, lists h !! kwargs_ps = Some entries /\
    (length (_point_source_list self) <= length entries)%nat /\
    forall j, (j < length (_point_source_list self))%nat ->
      exists r, entries !! j = Some r /\ is_Some (dicts h !! r).
Proof.
  unfold source_position. intros H.
  apply rbind_Ok in H as (entries & He & H). apply load_list_Ok in He.
  apply source_position_loop_spec in H as (Hx & Hy & Hent). simpl in *.
  split; [exact Hx |]. split; [exact Hy |].
  exists entries. split; [exact He |]. split; [| exact Hent].
  destruct (_point_source_list self) as [| m ms] eqn:E; [simpl; lia |].
  destruct (Hent (length ms)) as (r & Hr & _); [simpl; lia |].
  apply lookup_lt_Some in Hr. simpl in *. lia.
Qed.

(** ** Amplitudes of sources without flux *)

Lemma image_amplitude_loop_all (self : PointSource LensModel) h entries kwargs_lens
      (models : list (PointSourceCached LensModel)) :
  forall i acc amps,
  image_amplitude_loop model_image_amplitude self h entries kwargs_lens None models i acc
  = Ok amps ->
  exists amps', amps = acc ++ amps' /\ length amps' = length models /\
    forall j a, amps' !! j = Some a ->
      _flux_from_point_source_list self !! (i + j)%nat = Some false -> all_zero a.
Proof.
  induction models as [| m models IH]; intros i acc amps H; simpl in H.
  - inversion H; subst. exists []. rewrite app_nil_r. repeat split. intros j a Hj. discriminate.
  - apply rbind_Ok in H as (r & _ & H). apply rbind_Ok in H as (kw & _ & H).
    apply rbind_Ok in H as (image_amp & _ & H).
    apply rbind_Ok in H as (flux & Hflux & H). apply getitem_Ok in Hflux.
    destruct flux; apply IH in H as (amps' & -> & Hlen & Hz).
    + exists (image_amp :: amps'). rewrite <- app_assoc. simpl.
      split; [reflexivity |]. split; [lia |].
      intros [| j] a Hj Hf.
      * rewrite Nat.add_0_r in Hf. congruence.
      * replace (i + S j)%nat with (S i + j)%nat in Hf by lia. exact (Hz j a Hj Hf).
    + exists (map (fun _ => 0%Q) image_amp :: amps'). rewrite <- app_assoc. simpl.
      split; [reflexivity |]. split; [lia |].
      intros [| j] a Hj Hf.
      * inversion Hj; subst. apply all_zero_zeros.
      * replace (i + S j)%nat with (S i + j)%nat in Hf by lia. exact (Hz j a Hj Hf).
Qed.

(** Whatever [k] selects, a source without flux only contributes zeros. *)
Lemma image_amplitude_loop_disabled (self : PointSource LensModel) h entries kwargs_lens k
      (models : list (PointSourceCached LensModel)) :
  Forall (eq false) (_flux_from_point_source_list self) ->
  forall i acc amps,
  Forall all_zero acc ->
  image_amplitude_loop model_image_amplitude self h entries kwargs_lens k models i acc
  = Ok amps ->
  Forall all_zero amps.
Proof.
  intros Hoff. induction models as [| m models IH]; intros i acc amps Hacc H; simpl in H.
  - now inversion H; subst.
  - destruct (match k with None => true | Some k' => Nat.eqb k' i end);
      [| exact (IH _ _ _ Hacc H)].
    apply rbind_Ok in H as (r & _ & H). apply rbind_Ok in H as (kw & _ & H).
    apply rbind_Ok in H as (image_amp & _ & H).
    apply rbind_Ok in H as (flux & Hflux & H). apply getitem_Ok in Hflux.
    rewrite Forall_forall in Hoff.
    assert (flux = false) as -> by (symmetry; apply Hoff; eapply list_elem_of_lookup_2; eauto).
    apply IH in H; [exact H |].
    apply Forall_app. split; [exact Hacc |]. constructor; [apply all_zero_zeros | constructor].
Qed.

(** X24.  When [image_amplitude] returns, it returns one array per source,
    and the array of a source whose [flux_from_point_source] flag is
    [False] holds zeros only. *)
Theorem image_amplitude_flux_disabled (self : PointSource LensModel) (h : heap)
        (kwargs_ps : ref) (kwargs_lens : LensKwargs) (amps : list (list Q)) :
  image_amplitude model_image_amplitude self h kwargs_ps kwargs_lens None = Ok amps ->
  length amps = length (_point_source_list self) /\
  forall i a, _flux_from_point_source_list self !! i = Some false ->
              amps !! i = Some a -> Forall (eq 0%Q) a.
Proof.
  unfold image_amplitude. intros H.
  apply rbind_Ok in H as (entries & _ & H).
  apply image_amplitude_loop_all in H as (amps' & -> & Hlen & Hz). simpl.
  split; [exact Hlen |]. intros i a Hf Ha. exact (Hz i a Ha Hf).
Qed.

Lemma source_amplitude_loop_all (self : PointSource LensModel) h entries kwargs_lens
      (models : list (PointSourceCached LensModel)) :
  forall i acc amps,
  source_amplitude_loop model_source_amplitude self h entries kwargs_lens models i acc
  = Ok amps ->
  exists amps', amps = acc ++ amps' /\ length amps' = length models /\
    forall j v, amps' !! j = Some v ->
      _flux_from_point_source_list self !! (i + j)%nat = Some false ->
      all_zero (np_asarray v).
Proof.
  induction models as [| m models IH]; intros i acc amps H; simpl in H.
  - inversion H; subst. exists []. rewrite app_nil_r. repeat split. intros j a Hj. discriminate.
  - apply rbind_Ok in H as (r & _ & H). apply rbind_Ok in H as (kw & _ & H).
    apply rbind_Ok in H as (source_amp & _ & H).
    apply rbind_Ok in H as (flux & Hflux & H). apply getitem_Ok in Hflux.
    destruct flux; apply IH in H as (amps' & -> & Hlen & Hz).
    + exists (source_amp :: amps'). rewrite <- app_assoc. simpl.
      split; [reflexivity |]. split; [lia |].
      intros [| j] a Hj Hf.
      * rewrite Nat.add_0_r in Hf. congruence.
      * replace (i + S j)%nat with (S i + j)%nat in Hf by lia. exact (Hz j a Hj Hf).
    + exists (np_zeros_like source_amp :: amps'). rewrite <- app_assoc. simpl.
      split; [reflexivity |]. split; [lia |].
      intros [| j] a Hj Hf.
      * inversion Hj; subst. destruct source_amp as [q | l]; simpl.
        -- repeat constructor.
        -- apply all_zero_zeros.
      * replace (i + S j)%nat with (S i + j)%nat in Hf by lia. exact (Hz j a Hj Hf).
Qed.

(** X25.  When [source_amplitude] returns, it returns one amplitude per
    source, and the amplitude of a source whose [flux_from_point_source]
    flag is [False] is zero (an array of zeros, if the wrapped model
    returns an array). *)
Theorem source_amplitude_flux_disabled (self : PointSource LensModel) (h : heap)
        (kwargs_ps : ref) (kwargs_lens : LensKwargs) (amps : list value) :
  source_amplitude model_source_amplitude self h kwargs_ps kwargs_lens = Ok amps ->
  length amps = length (_point_source_list self) /\
  forall i v, _flux_from_point_source_list self !! i = Some false ->
              amps !! i = Some v -> Forall (eq 0%Q) (np_asarray v).
Proof.
  unfold source_amplitude. intros H.
  apply rbind_Ok in H as (entries & _ & H).
  apply source_amplitude_loop_all in H as (amps' & -> & Hlen & Hz). simpl.
  split; [exact Hlen |]. intros i a Hf Ha. exact (Hz i a Ha Hf).
Qed.

(** ** [point_source_list] *)

Lemma inner_aligned ra_list dec_list amp_list with_amp i js :
  forall ra dec amp ra' dec' amp',
  point_source_list_inner ra_list dec_list amp_list with_amp i js ra dec amp
  = Ok (ra', dec', amp') ->
  length ra = length dec -> length dec = length amp ->
  length ra' = length dec' /\ length dec' = length amp'.
Proof.
  induction js as [| j js IH]; intros ra dec amp ra' dec' amp' H H1 H2; simpl in H.
  - now inversion H; subst.
  - apply rbind_Ok in H as (skip & _ & H). destruct skip; [exact (IH _ _ _ _ _ _ H H1 H2) |].
    apply rbind_Ok in H as (r & _ & H). apply rbind_Ok in H as (d & _ & H).
    apply rbind_Ok in H as (a & _ & H).
    apply IH in H; [exact H | |]; rewrite !length_app; simpl; lia.
Qed.

Lemma inner_nonzero ra_list dec_list amp_list i js :
  forall ra dec amp ra' dec' amp',
  point_source_list_inner ra_list dec_list amp_list true i js ra dec amp
  = Ok (ra', dec', amp') ->
  Forall not_zero amp -> Forall not_zero amp'.
Proof.
  induction js as [| j js IH]; intros ra dec amp ra' dec' amp' H Hnz; simpl in H.
  - now inversion H; subst.
  - apply rbind_Ok in H as (skip & Hskip & H).
    apply rbind_Ok in Hskip as (a & Ha & Hskip). inversion Hskip; subst skip.
    destruct (Qeq_bool a 0) eqn:E; [exact (IH _ _ _ _ _ _ H Hnz) |].
    apply rbind_Ok in H as (r & _ & H). apply rbind_Ok in H as (d & _ & H).
    rewrite Ha in H. cbn [rbind] in H.
    apply IH in H; [exact H |].
    apply Forall_app. split; [exact Hnz |].
    constructor; [| constructor]. now apply Qeq_bool_neq.
Qed.

Lemma inner_all_zero ra_list dec_list amp_list i js :
  Forall all_zero amp_list ->
  forall ra dec amp out,
  point_source_list_inner ra_list dec_list amp_list true i js ra dec amp = Ok out ->
  out = (ra, dec, amp).
Proof.
  intros Hz. induction js as [| j js IH]; intros ra dec amp out H; simpl in H.
  - now inversion H.
  - apply rbind_Ok in H as (skip & Hskip & H).
    apply rbind_Ok in Hskip as (a & Ha & Hskip). inversion Hskip; subst skip.
    apply getitem2_Ok in Ha as (li & Hli & Ha).
    rewrite Forall_forall in Hz.
    assert (Hzi : all_zero li) by (apply Hz; eapply list_elem_of_lookup_2; eauto).
    unfold all_zero in Hzi. rewrite Forall_forall in Hzi.
    assert (0%Q = a) as <- by (apply Hzi; eapply list_elem_of_lookup_2; eauto).
    cbn in H. now apply IH.
Qed.

Lemma inner_without_amp ra_list dec_list amp_list i ra_i js :
  ra_list !! i = Some ra_i ->
  forall ra dec amp ra' dec' amp',
  point_source_list_inner ra_list dec_list amp_list false i js ra dec amp
  = Ok (ra', dec', amp') ->
  ra' = ra ++ pick ra_i js /\ amp' = amp ++ replicate (length js) 1%Q.
Proof.
  intros Hi. induction js as [| j js IH]; intros ra dec amp ra' dec' amp' H; simpl in H.
  - inversion H; subst. unfold pick. simpl. now rewrite !app_nil_r.
  - apply rbind_Ok in H as (r & Hr & H). apply rbind_Ok in H as (d & _ & H).
    apply getitem2_Ok in Hr as (li & Hli & Hr). rewrite Hi in Hli. inversion Hli; subst li.
    apply IH in H as [-> ->]. unfold pick. rewrite fmap_cons, Hr, <- !app_assoc.
    split; reflexivity.
Qed.

Lemma outer_aligned ra_list dec_list amp_list with_amp rest :
  forall i ra dec amp ra' dec' amp',
  point_source_list_outer ra_list dec_list amp_list with_amp rest i ra dec amp
  = Ok (ra', dec', amp') ->
  length ra = length dec -> length dec = length amp ->
  length ra' = length dec' /\ length dec' = length amp'.
Proof.
  induction rest as [| x rest IH]; intros i ra dec amp ra' dec' amp' H H1 H2; simpl in H.
  - now inversion H; subst.
  - apply rbind_Ok in H as ([[ra1 dec1] amp1] & Hin & H).
    apply inner_aligned in Hin as [G1 G2]; [| assumption | assumption].
    exact (IH _ _ _ _ _ _ _ H G1 G2).
Qed.

Lemma outer_nonzero ra_list dec_list amp_list rest :
  forall i ra dec amp ra' dec' amp',
  point_source_list_outer ra_list dec_list amp_list true rest i ra dec amp
  = Ok (ra', dec', amp') ->
  Forall not_zero amp -> Forall not_zero amp'.
Proof.
  induction rest as [| x rest IH]; intros i ra dec amp ra' dec' amp' H Hnz; simpl in H.
  - now inversion H; subst.
  - apply rbind_Ok in H as ([[ra1 dec1] amp1] & Hin & H).
    apply inner_nonzero in Hin; [| exact Hnz].
    exact (IH _ _ _ _ _ _ _ H Hin).
Qed.

Lemma outer_all_zero ra_list dec_list amp_list rest :
  Forall all_zero amp_list ->
  forall i ra dec amp out,
  point_source_list_outer ra_list dec_list amp_list true rest i ra dec amp = Ok out ->
  out = (ra, dec, amp).
Proof.
  intros Hz. induction rest as [| x rest IH]; intros i ra dec amp out H; simpl in H.
  - now inversion H.
  - apply rbind_Ok in H as ([[ra1 dec1] amp1] & Hin & H).
    apply inner_all_zero in Hin; [| exact Hz]. inversion Hin; subst.
    exact (IH _ _ _ _ _ H).
Qed.

Lemma outer_without_amp ra_list dec_list amp_list rest :
  forall i ra dec amp ra' dec' amp',
  rest = drop i ra_list ->
  point_source_list_outer ra_list dec_list amp_list false rest i ra dec amp
  = Ok (ra', dec', amp') ->
  ra' = ra ++ concat rest /\ amp' = amp ++ replicate (length (concat rest)) 1%Q.
Proof.
  induction rest as [| x rest IH]; intros i ra dec amp ra' dec' amp' Hrest H; simpl in H.
  - inversion H; subst. simpl. now rewrite !app_nil_r.
  - apply rbind_Ok in H as ([[ra1 dec1] amp1] & Hin & H).
    assert (Hi : ra_list !! i = Some x).
    { rewrite <- (Nat.add_0_r i), <- lookup_drop, <- Hrest. reflexivity. }
    apply (inner_without_amp _ _ _ _ x) in Hin as [-> ->]; [| exact Hi].
    rewrite pick_seq, length_seq in H.
    apply IH in H as [-> ->].
    + simpl. rewrite length_app, replicate_add, <- !app_assoc. split; reflexivity.
    + rewrite (drop_S _ _ _ Hi) in Hrest. now inversion Hrest.
Qed.

(** X26.  The three arrays [point_source_list] returns are aligned: they have
    the same length.  With [with_amp] no amplitude it returns is zero,
    and if no source has its [flux_from_point_source] flag set, nothing
    is returned at all.  The [save_cache] flag of the object is as
    before. *)
Theorem point_source_list_aligned (self self' : PointSource LensModel) (h : heap)
        (kwargs_ps : ref) (kwargs_lens : LensKwargs) (k : option nat) (with_amp : bool)
        (ra_array dec_array amp_array : list Q) :
  point_source_list model_set_save_cache model_delete_lens_model_cache
                    model_image_position model_image_amplitude
                    self h kwargs_ps kwargs_lens k with_amp
  = Ok (ra_array, dec_array, amp_array, self') ->
  length ra_array = length dec_array /\
  length dec_array = length amp_array /\
  (with_amp = true ->
   Forall (fun a => ~ (a == 0)%Q) amp_array /\
   (Forall (eq false) (_flux_from_point_source_list self) ->
    ra_array = [] /\ dec_array = [] /\ amp_array = [])) /\
  _save_cache self' = _save_cache self.
Proof.
  unfold point_source_list. intros H.
  apply rbind_Ok in H as ([ra_list dec_list] & _ & H).
  apply rbind_Ok in H as (amp_list & Hamp & H).
  apply rbind_Ok in H as ([[ra dec] amp] & Hout & H).
  inversion H; subst ra dec amp self'. clear H.
  destruct (outer_aligned _ _ _ _ _ _ _ _ _ _ _ _ Hout eq_refl eq_refl) as [H1 H2].
  split; [exact H1 |]. split; [exact H2 |]. split.
  - intros ->. split.
    + apply (outer_nonzero _ _ _ _ _ _ _ _ _ _ _ Hout). constructor.
    + intros Hoff. unfold image_amplitude in Hamp.
      apply rbind_Ok in Hamp as (entries & _ & Hamp).
      apply image_amplitude_loop_disabled in Hamp; [| exact Hoff | constructor].
      apply outer_all_zero in Hout; [| exact Hamp]. now inversion Hout.
  - unfold restore_cache. simpl. destruct (_save_cache self) eqn:E; simpl; now rewrite ?E.
Qed.

(** X27.  Without [with_amp], [point_source_list] returns every position of
    every selected source, in order, with the amplitude one. *)
Theorem point_source_list_without_amp (self self' : PointSource LensModel) (h : heap)
        (kwargs_ps : ref) (kwargs_lens : LensKwargs) (k : option nat)
        (xs ys : list (list Q)) (ra_array dec_array amp_array : list Q) :
  image_position model_image_position (_set_save_cache model_set_save_cache self true)
                 h kwargs_ps kwargs_lens k false false = Ok (xs, ys) ->
  point_source_list model_set_save_cache model_delete_lens_model_cache
                    model_image_position model_image_amplitude
                    self h kwargs_ps kwargs_lens k false
  = Ok (ra_array, dec_array, amp_array, self') ->
  ra_array = concat xs /\
  length dec_array = length (concat xs) /\
  amp_array = replicate (length (concat xs)) 1%Q.
Proof.
  unfold point_source_list. intros Hip H. rewrite Hip in H. cbn [rbind] in H.
  apply rbind_Ok in H as ([[ra dec] amp] & Hout & H).
  inversion H; subst ra dec amp self'. clear H.
  destruct (outer_aligned _ _ _ _ _ _ _ _ _ _ _ _ Hout eq_refl eq_refl) as [H1 H2].
  apply outer_without_amp in Hout as [-> ->]; [| now rewrite drop_0].
  simpl in *. split; [reflexivity |]. split; [lia | reflexivity].
Qed.

(** ** [linear_response_set] *)

Lemma linear_response_points_length x_pos y_pos mag js :
  forall ra dec amp ra' dec' amp',
  linear_response_points x_pos y_pos mag js ra dec amp = Ok (ra', dec', amp') ->
  length ra' = (length ra + length js)%nat /\
  length dec' = (length dec + length js)%nat /\
  length amp' = (length amp + length js)%nat.
Proof.
  induction js as [| j js IH]; intros ra dec amp ra' dec' amp' H; simpl in H.
  - inversion H; subst. simpl. lia.
  - apply rbind_Ok in H as (x & _ & H). apply rbind_Ok in H as (y & _ & H).
    apply rbind_Ok in H as (m & _ & H).
    apply IH in H. rewrite !length_app in H. simpl in *. lia.
Qed.

Lemma linear_response_loop_length (self : PointSource LensModel) h kwargs_ps kwargs_lens
      with_amp (xs ys : list (list Q)) (models : list (PointSourceCached LensModel)) :
  forall i ra dec amp ra' dec' amp',
  (i + length models)%nat = length (_flux_from_point_source_list self) ->
  (i + length models)%nat = length (_fixed_magnification_list self) ->
  (i + length models)%nat = length xs ->
  linear_response_loop model_image_amplitude lens_model_magnification
                       self h kwargs_ps kwargs_lens with_amp xs ys models i ra dec amp
  = Ok (ra', dec', amp') ->
  let n := basis_total (drop i (_flux_from_point_source_list self))
                       (drop i (_fixed_magnification_list self))
                       (map length (drop i xs)) in
  length ra' = (length ra + n)%nat /\
  length dec' = (length dec + n)%nat /\
  length amp' = (length amp + n)%nat.
Proof.
  induction models as [| m models IH]; intros i ra dec amp ra' dec' amp' Hf Hx Hr H;
    simpl in Hf, Hx, Hr.
  - simpl in H. inversion H; subst. rewrite !drop_ge by lia. simpl. lia.
  - destruct (getitem_lt (_flux_from_point_source_list self) i) as (f & Ef & Lf); [lia |].
    destruct (getitem_lt (_fixed_magnification_list self) i) as (x & Ex & Lx); [lia |].
    destruct (getitem_lt xs i) as (c & Ec & Lc); [lia |].
    rewrite (drop_S _ _ _ Lf), (drop_S _ _ _ Lx), (drop_S _ _ _ Lc).
    cbn [map basis_total]. cbn [linear_response_loop] in H.
    rewrite Ef in H. cbn [rbind] in H. destruct f; cbn [basis_count].
    + rewrite Ec in H. cbn [rbind] in H.
      apply rbind_Ok in H as (y_pos & _ & H).
      rewrite Ex in H. cbn [rbind] in H. destruct x.
      * apply rbind_Ok in H as (mag & _ & H).
        apply IH in H; [| lia | lia | lia]. rewrite !length_app in H. simpl in *. lia.
      * apply rbind_Ok in H as (mag & _ & H).
        apply rbind_Ok in H as ([[ra1 dec1] amp1] & Hp & H).
        apply linear_response_points_length in Hp. rewrite length_seq in Hp.
        apply IH in H; [| lia | lia | lia]. simpl in *. lia.
    + apply IH in H; [| lia | lia | lia]. simpl in *. lia.
Qed.

(** X28.  The number [n] of responses that [linear_response_set] returns is
    the length of each of the three lists it returns, and it is the
    number [num_basis] counts (with the cache of the wrapped models
    switched on, as [linear_response_set] does it before it asks for the
    image positions). *)
Theorem linear_response_set_count (self self' : PointSource LensModel) (h : heap)
        (kwargs_ps : ref) (kwargs_lens : LensKwargs) (with_amp : bool)
        (ra_pos dec_pos amp : list (list Q)) (n : nat) :
  consistent self ->
  linear_response_set model_set_save_cache model_delete_lens_model_cache
                      model_image_position model_image_amplitude lens_model_magnification
                      self h kwargs_ps kwargs_lens with_amp
  = Ok (ra_pos, dec_pos, amp, n, self') ->
  length ra_pos = n /\ length dec_pos = n /\ length amp = n /\
  num_basis model_image_position (_set_save_cache model_set_save_cache self true)
            h kwargs_ps kwargs_lens = Ok n.
Proof.
  intros (Hf & Hx & Hm) H. unfold linear_response_set in H.
  set (self1 := _set_save_cache model_set_save_cache self true) in *.
  assert (Hlen1 : length (_point_source_list self1) = length (_point_source_list self)).
  { unfold self1. simpl. apply length_map. }
  apply rbind_Ok in H as ([xs ys] & Hip & H).
  apply rbind_Ok in H as ([[ra dec] am] & Hloop & H).
  inversion H; subst ra dec am n self'. clear H.
  pose proof (image_position_returns _ _ _ _ _ _ _ Hip) as (entries & _ & Hxs & _).
  apply linear_response_loop_length in Hloop;
    [| simpl in *; lia | simpl in *; lia | simpl in *; lia].
  rewrite !drop_0 in Hloop. simpl in Hloop. destruct Hloop as (H1 & H2 & H3).
  split; [reflexivity |]. split; [lia |]. split; [lia |].
  unfold num_basis. rewrite Hip. cbn [rbind].
  rewrite num_basis_loop_spec by (simpl in *; lia).
  rewrite !drop_0. simpl. now rewrite H1.
Qed.

(** ** [update_linear] without fixed magnification *)

Lemma update_linear_loop_total (self : PointSource LensModel) param entries
      (ra : list (list Q)) (models : list (PointSourceCached LensModel)) :
  (forall q, _flux_from_point_source_list self !! q = Some true ->
             _fixed_magnification_list self !! q = Some false) ->
  forall k i h,
  (k + length models)%nat = length (_flux_from_point_source_list self) ->
  (k + length models)%nat = length (_fixed_magnification_list self) ->
  (k + length models)%nat = length ra ->
  (forall j, (j < length models)%nat ->
     exists r, entries !! (k + j)%nat = Some r /\ is_Some (dicts h !! r)) ->
  exists j h', update_linear_loop self param entries ra models k i h = Ok (j, h').
Proof.
  intros Hnofix. induction models as [| m models IH]; intros k i h Hf Hx Hr Hent;
    simpl in Hf, Hx, Hr.
  - simpl. eauto.
  - destruct (getitem_lt (_flux_from_point_source_list self) k) as (f & Ef & Lf); [lia |].
    destruct (getitem_lt ra k) as (c & Ec & Lc); [lia |].
    cbn [update_linear_loop]. rewrite Ef. cbn [rbind].
    assert (Hent' : forall h', (forall r, is_Some (dicts h !! r) -> is_Some (dicts h' !! r)) ->
              forall j, (j < length models)%nat ->
                exists r, entries !! (S k + j)%nat = Some r /\ is_Some (dicts h' !! r)).
    { intros h' Hmono j Hj. destruct (Hent (S j)) as (r & Hr' & Hs); [simpl; lia |].
      exists r. split; [| now apply Hmono].
      now replace (S k + j)%nat with (k + S j)%nat by lia. }
    destruct f.
    + destruct (Hent 0%nat) as (r & Hr0 & Hs); [simpl; lia |].
      rewrite Nat.add_0_r in Hr0.
      assert (Er : getitem entries k = Ok r) by now apply getitem_Ok.
      rewrite Er. cbn [rbind].
      assert (Ex : getitem (_fixed_magnification_list self) k = Ok false).
      { apply getitem_Ok. now apply Hnofix. }
      rewrite Ex. cbn [rbind]. rewrite Ec. cbn [rbind].
      set (v := Array (take (length c) (drop i param))).
      assert (Eset : dict_setitem h r "point_amp" v
                     = Ok (Heap (apply_write (dicts h) (r, "point_amp", v)) (lists h))).
      { apply dict_setitem_Ok. auto. }
      rewrite Eset. cbn [rbind].
      apply IH; [lia | lia | lia |].
      apply Hent'. intros r' Hr'. simpl. now apply apply_write_is_Some.
    + apply IH; [lia | lia | lia |]. apply Hent'. auto.
Qed.

(** X29.  When no source with flux has a fixed magnification, [update_linear]
    cannot run out of parameters: the amplitudes are slices of [param],
    which are cut short instead of raising.  Whenever [image_position]
    returns, [update_linear] returns, for every [param] and every start
    index, and the index it returns is the start index advanced by the
    number of images of the sources with flux. *)
Theorem update_linear_without_fixed (self : PointSource LensModel) (h : heap)
        (kwargs_ps : ref) (kwargs_lens : LensKwargs) (param : list Q) (i : nat)
        (xs ys : list (list Q)) :
  consistent self ->
  (forall q, _flux_from_point_source_list self !! q = Some true ->
             _fixed_magnification_list self !! q = Some false) ->
  image_position model_image_position self h kwargs_ps kwargs_lens None false false
  = Ok (xs, ys) ->
  exists h',
    update_linear model_image_position self param i kwargs_ps kwargs_lens h
    = Ok (kwargs_ps,
          (i + basis_total (_flux_from_point_source_list self)
                           (_fixed_magnification_list self) (map length xs))%nat,
          h').
Proof.
  intros Hc Hnofix Hip. pose proof Hc as (Hf & Hx & Hm).
  pose proof (image_position_returns _ _ _ _ _ _ _ Hip) as (entries & Hl & Hxs & Hent).
  destruct (update_linear_loop_total self param entries xs (_point_source_list self)
              Hnofix 0 i h) as (j & h' & Hloop); [simpl; lia | simpl; lia | simpl; lia | |].
  { intros q Hq. simpl. now apply Hent. }
  assert (Hrun : update_linear model_image_position self param i kwargs_ps kwargs_lens h
                 = Ok (kwargs_ps, j, h')).
  { unfold update_linear. rewrite Hip. cbn [rbind]. unfold load_list. rewrite Hl.
    cbn [rbind]. rewrite Hloop. reflexivity. }
  destruct (update_linear_inv _ _ _ _ _ _ _ _ _ _ _ _ Hc Hip Hrun) as [_ ->].
  exists h'. exact Hrun.
Qed.

End Response.

(** ** Examples *)

(** Wrapped models with the amplitudes [3, 0] and the source amplitude
    [7]; a cache flag that is stored in the wrapper. *)
Definition two_amplitudes (m : PointSourceCached unit) (kwargs : gmap string value)
           (kwargs_lens : unit) (solver : gmap string Q) : result (list Q) :=
  Ok [3%Q; 0%Q].

Definition one_source_amplitude (m : PointSourceCached unit) (kwargs : gmap string value)
           (kwargs_lens : unit) : result value :=
  Ok (Scalar 7%Q).

Definition origin_source (m : PointSourceCached unit) (kwargs : gmap string value)
           (kwargs_lens : unit) : result (value * value) :=
  Ok (Scalar 0%Q, Scalar 0%Q).

Definition store_flag (m : PointSourceCached unit) (b : bool) : PointSourceCached unit :=
  {| cached_model := cached_model m; cached_save_cache := b |}.

Definition keep_model (m : PointSourceCached unit) : PointSourceCached unit := m.

Definition two_positions (m : PointSourceCached unit) (kwargs : gmap string value)
           (kwargs_lens : unit) (magnification_limit : option Q)
           (solver : gmap string Q) (additional_images : bool)
  : result (list Q * list Q) :=
  Ok ([1%Q; 2%Q], [4%Q; 5%Q]).

Definition unit_magnification (lens_model : option unit) (x y : list Q) (kwargs_lens : unit)
  : result (list Q) :=
  Ok (map (fun _ => 1%Q) x).

Lemma source_position_shape_witness :
  exists entries, lists distinct_heap !! 1%positive = Some entries /\
    (length (_point_source_list (unlensed_pair [true; true])) <= length entries)%nat.
Proof.
  destruct (source_position_shape origin_source (unlensed_pair [true; true]) distinct_heap
              1%positive tt [Scalar 0%Q; Scalar 0%Q] [Scalar 0%Q; Scalar 0%Q] eq_refl)
    as (_ & _ & entries & He & Hlen & _).
  exists entries. split; [exact He | exact Hlen].
Defined.

Lemma image_amplitude_flux_disabled_witness :
  image_amplitude two_amplitudes (unlensed_pair [true; false]) distinct_heap 1%positive tt None
  = Ok [[3%Q; 0%Q]; [0%Q; 0%Q]] /\
  Forall (eq 0%Q) [0%Q; 0%Q].
Proof.
  split; [reflexivity |].
  destruct (image_amplitude_flux_disabled two_amplitudes (unlensed_pair [true; false])
              distinct_heap 1%positive tt [[3%Q; 0%Q]; [0%Q; 0%Q]] eq_refl) as [_ H].
  exact (H 1%nat [0%Q; 0%Q] eq_refl eq_refl).
Defined.

Lemma source_amplitude_flux_disabled_witness :
  source_amplitude one_source_amplitude (unlensed_pair [true; false]) distinct_heap
                   1%positive tt
  = Ok [Scalar 7%Q; Scalar 0%Q] /\
  Forall (eq 0%Q) (np_asarray (Scalar 0%Q)).
Proof.
  split; [reflexivity |].
  destruct (source_amplitude_flux_disabled one_source_amplitude (unlensed_pair [true; false])
              distinct_heap 1%positive tt [Scalar 7%Q; Scalar 0%Q] eq_refl) as [_ H].
  exact (H 1%nat (Scalar 0%Q) eq_refl eq_refl).
Defined.

Lemma point_source_list_aligned_witness :
  point_source_list store_flag keep_model two_positions two_amplitudes
                    (unlensed_pair [true; false]) distinct_heap 1%positive tt None true
  = Ok ([1%Q], [4%Q], [3%Q], unlensed_pair [true; false]) /\
  Forall (fun a => ~ (a == 0)%Q) [3%Q].
Proof.
  assert (H : point_source_list store_flag keep_model two_positions two_amplitudes
                (unlensed_pair [true; false]) distinct_heap 1%positive tt None true
              = Ok ([1%Q], [4%Q], [3%Q], unlensed_pair [true; false])) by reflexivity.
  split; [exact H |].
  destruct (point_source_list_aligned store_flag keep_model two_positions two_amplitudes
              _ _ _ _ _ _ _ _ _ _ H) as (_ & _ & Hnz & _).
  exact (proj1 (Hnz eq_refl)).
Defined.

Lemma point_source_list_without_amp_witness :
  [1%Q; 2%Q; 1%Q; 2%Q] = concat [[1%Q; 2%Q]; [1%Q; 2%Q]] /\
  [1%Q; 1%Q; 1%Q; 1%Q] = replicate 4 1%Q.
Proof.
  destruct (point_source_list_without_amp store_flag keep_model two_positions two_amplitudes
              (unlensed_pair [true; false]) (unlensed_pair [true; false])
              distinct_heap 1%positive tt None
              [[1%Q; 2%Q]; [1%Q; 2%Q]] [[4%Q; 5%Q]; [4%Q; 5%Q]]
              [1%Q; 2%Q; 1%Q; 2%Q] [4%Q; 5%Q; 4%Q; 5%Q] [1%Q; 1%Q; 1%Q; 1%Q]
              eq_refl eq_refl) as (H1 & _ & H3).
  split; [exact H1 | exact H3].
Defined.

Lemma linear_response_set_count_witness :
  num_basis two_positions (_set_save_cache store_flag (unlensed_pair [true; true]) true)
            distinct_heap 1%positive tt = Ok 4%nat.
Proof.
  destruct (linear_response_set_count store_flag keep_model two_positions two_amplitudes
              unit_magnification (unlensed_pair [true; true]) (unlensed_pair [true; true])
              distinct_heap 1%positive tt false
              [[1%Q]; [2%Q]; [1%Q]; [2%Q]] [[4%Q]; [5%Q]; [4%Q]; [5%Q]]
              [[1%Q]; [1%Q]; [1%Q]; [1%Q]] 4
              unlensed_pair_consistent eq_refl) as (_ & _ & _ & H).
  exact H.
Defined.

Lemma update_linear_without_fixed_witness :
  exists h',
    update_linear one_image (unlensed_pair [true; true]) [] 0 1%positive tt distinct_heap
    = Ok (1%positive, 2%nat, h').
Proof.
  apply (update_linear_without_fixed one_image (unlensed_pair [true; true]) distinct_heap
           1%positive tt [] 0 [[0%Q]; [0%Q]] [[0%Q]; [0%Q]] unlensed_pair_consistent).
  - intros [| [| q]] Hq; try reflexivity; discriminate.
  - reflexivity.
Defined.

End ResponseExtra.

(** * The check of the image positions *)

Module CheckExtra.

Import PointSourceModel.
Import PointSourceCheck.
Import PointSourceSpec.
Import LinearSpec.
Local Open Scope string_scope.
Local Open Scope list_scope.

Lemma foldl_Rmax_ge (a : list R) :
  forall u : R, (u <= foldl Rmax u a)%R /\ Forall (fun d => (d <= foldl Rmax u a)%R) a.
Proof.
  induction a as [| v a IH]; intros u; simpl.
  - split; [lra | constructor].
  - destruct (IH (Rmax u v)) as [H1 H2].
    pose proof (Rmax_l u v). pose proof (Rmax_r u v).
    split; [lra |]. constructor; [lra | exact H2].
Qed.

Lemma np_max_ge (a : list R) (m : R) :
  np_max a = Ok m -> Forall (fun d => (d <= m)%R) a.
Proof.
  destruct a as [| u a]; [discriminate |]. intros H. inversion H; subst.
  destruct (foldl_Rmax_ge a u) as [H1 H2]. now constructor.
Qed.

Lemma zip_with_map_lookup (f g : R -> R) (xs ys : list R) (j : nat) (xj yj : R) :
  xs !! j = Some xj -> ys !! j = Some yj ->
  zip_with Rplus (map f xs) (map g ys) !! j = Some (f xj + g yj)%R.
Proof.
  revert ys j. induction xs as [| x xs IH]; intros [| y ys] [| j] Hx Hy;
    simpl in *; try discriminate.
  - now inversion Hx; inversion Hy; subst.
  - now apply IH.
Qed.

(** With arrays of the same length, the distances are the distances of
    the points from the first point. *)
Lemma source_plane_distance_lookup (x_source y_source dist : list R) (j : nat)
      (x0 y0 xj yj : R) :
  source_plane_distance x_source y_source = Ok dist ->
  length x_source = length y_source ->
  x_source !! 0%nat = Some x0 -> y_source !! 0%nat = Some y0 ->
  x_source !! j = Some xj -> y_source !! j = Some yj ->
  dist !! j = Some (sqrt ((xj - x0) ^ 2 + (yj - y0) ^ 2)).
Proof.
  unfold source_plane_distance, getitem. intros H Hlen Hx0 Hy0 Hxj Hyj.
  rewrite Hx0, Hy0 in H. cbn [rbind] in H. unfold np_add_R in H.
  rewrite !length_map in H.
  destruct (decide (length x_source = length y_source)) as [_ | Hn]; [| contradiction].
  cbn [rbind] in H. inversion H; subst dist.
  change (map sqrt ?l) with (sqrt <$> l). rewrite list_lookup_fmap.
  rewrite (zip_with_map_lookup _ _ _ _ j xj yj Hxj Hyj). reflexivity.
Qed.

Section Tolerance.

Context {LensModel LensKwargs : Type}.

Variable model_image_position :
  PointSourceCached LensModel -> gmap string value -> LensKwargs -> option Q ->
  gmap string Q -> bool -> result (list Q * list Q).
Variable lens_model_ray_shooting :
  option LensModel -> list Q -> list Q -> LensKwargs -> result (list R * list R).

Definition traced (t : string) : Prop := t = "LENSED_POSITION" \/ t = "SOURCE_POSITION".

Lemma traced_iff (t : string) : t ∈ ["LENSED_POSITION"; "SOURCE_POSITION"] <-> traced t.
Proof. unfold traced. rewrite !elem_of_cons, elem_of_nil. tauto. Qed.

Lemma check_loop_untraced (self : PointSource LensModel) kwargs_lens tolerance xs ys
      (models : list string) :
  Forall (fun t => ~ traced t) models ->
  forall i, check_image_positions_loop lens_model_ray_shooting self kwargs_lens tolerance
                                       xs ys models i = Ok true.
Proof.
  induction 1 as [| t models Ht _ IH]; intros i; simpl; [reflexivity |].
  destruct (decide (t ∈ ["LENSED_POSITION"; "SOURCE_POSITION"])) as [Hin | _]; [| apply IH].
  apply traced_iff in Hin. contradiction.
Qed.

Lemma check_loop_true (self : PointSource LensModel) kwargs_lens tolerance xs ys
      (models : list string) :
  forall i,
  check_image_positions_loop lens_model_ray_shooting self kwargs_lens tolerance
                             xs ys models i = Ok true ->
  forall j t, models !! j = Some t -> traced t ->
    exists x_pos y_pos x_source y_source dist,
      xs !! (i + j)%nat = Some x_pos /\ ys !! (i + j)%nat = Some y_pos /\
      lens_model_ray_shooting (_lens_model self) x_pos y_pos kwargs_lens
      = Ok (x_source, y_source) /\
      source_plane_distance x_source y_source = Ok dist /\
      Forall (fun d => (d <= tolerance)%R) dist.
Proof.
  induction models as [| m models IH]; intros i H j t Hj Ht; [discriminate |].
  simpl in H.
  destruct (decide (m ∈ ["LENSED_POSITION"; "SOURCE_POSITION"])) as [Hin | Hnin].
  - apply rbind_Ok in H as (x_pos & Hx & H). apply getitem_Ok in Hx.
    apply rbind_Ok in H as (y_pos & Hy & H). apply getitem_Ok in Hy.
    apply rbind_Ok in H as ([x_source y_source] & Hray & H).
    apply rbind_Ok in H as (dist & Hdist & H).
    apply rbind_Ok in H as (mx & Hmax & H).
    destruct (Rgt_dec mx tolerance) as [Hgt | Hle]; [discriminate |].
    destruct j as [| j].
    + rewrite Nat.add_0_r. exists x_pos, y_pos, x_source, y_source, dist.
      repeat split; try assumption.
      apply np_max_ge in Hmax. eapply Forall_impl; [exact Hmax |].
      intros d Hd. simpl in Hd. lra.
    + replace (i + S j)%nat with (S i + j)%nat by lia. apply (IH _ H j t Hj Ht).
  - destruct j as [| j].
    + inversion Hj; subst m. exfalso. apply Hnin. now apply traced_iff.
    + replace (i + S j)%nat with (S i + j)%nat by lia. apply (IH _ H j t Hj Ht).
Qed.

(** X30.  When [image_position] returns: if no source is a lensed or a source
    position, [check_image_positions] returns [True] and the lens model
    is not asked; and if [check_image_positions] returns [True], then for
    every lensed or source position the images have been traced back, and
    each traced image lies within [tolerance] of the first traced image of
    its source. *)
Theorem check_image_positions_sound (self : PointSource LensModel) (h : heap)
        (kwargs_ps : ref) (kwargs_lens : LensKwargs) (tolerance : R)
        (xs ys : list (list Q)) :
  image_position model_image_position self h kwargs_ps kwargs_lens None false false
  = Ok (xs, ys) ->
  (Forall (fun t => ~ traced t) (point_source_type_list self) ->
   check_image_positions model_image_position lens_model_ray_shooting
                         self h kwargs_ps kwargs_lens tolerance = Ok true) /\
  (check_image_positions model_image_position lens_model_ray_shooting
                         self h kwargs_ps kwargs_lens tolerance = Ok true ->
   forall i t, point_source_type_list self !! i = Some t -> traced t ->
     exists x_pos y_pos x_source y_source,
       xs !! i = Some x_pos /\ ys !! i = Some y_pos /\
       lens_model_ray_shooting (_lens_model self) x_pos y_pos kwargs_lens
       = Ok (x_source, y_source) /\
       forall j x0 y0 xj yj,
         length x_source = length y_source ->
         x_source !! 0%nat = Some x0 -> y_source !! 0%nat = Some y0 ->
         x_source !! j = Some xj -> y_source !! j = Some yj ->
         (sqrt ((xj - x0) ^ 2 + (yj - y0) ^ 2) <= tolerance)%R).
Proof.
  intros Hip. unfold check_image_positions. rewrite Hip. cbn [rbind]. split.
  - intros Hun. now apply check_loop_untraced.
  - intros H i t Hi Ht.
    destruct (check_loop_true _ _ _ _ _ _ _ H i t Hi Ht)
      as (x_pos & y_pos & x_source & y_source & dist & Hx & Hy & Hray & Hdist & Hall).
    exists x_pos, y_pos, x_source, y_source. simpl in Hx, Hy.
    split; [exact Hx |]. split; [exact Hy |]. split; [exact Hray |].
    intros j x0 y0 xj yj Hlen Hx0 Hy0 Hxj Hyj.
    pose proof (source_plane_distance_lookup _ _ _ j _ _ _ _ Hdist Hlen Hx0 Hy0 Hxj Hyj) as Hd.
    rewrite Forall_forall in Hall. apply Hall. eapply list_elem_of_lookup_2. exact Hd.
Qed.

End Tolerance.

(** A lens model that traces every image to the origin. *)
Definition trace_to_origin (lens_model : option unit) (x y : list Q) (kwargs_lens : unit)
  : result (list R * list R) :=
  Ok (map (fun _ => 0%R) x, map (fun _ => 0%R) y).

Lemma check_image_positions_sound_witness :
  check_image_positions one_image trace_to_origin (unlensed_pair [true; true])
                        distinct_heap 1%positive tt 0%R = Ok true.
Proof.
  destruct (check_image_positions_sound one_image trace_to_origin
              (unlensed_pair [true; true]) distinct_heap 1%positive tt 0%R
              [[0%Q]; [0%Q]] [[0%Q]; [0%Q]] eq_refl) as [H _].
  apply H. repeat constructor; intros [E | E]; discriminate E.
Defined.

End CheckExtra.
